(** * Browser widgets of the kalv site: a shallow embedding

    The development follows the JavaScript sources:
    - [IndexedDBBackupRestore] (backup / restore of IndexedDB databases),
    - [DroppableImageTarget] (the drag-and-drop image store),
    - the button handlers of the page script ([DB_NAMES], [showMessage]),
    - [DotCanvas] (the dot and line animation).

    Browser interfaces the code calls (JSON, FileReader, atob, Blob,
    IndexedDB) are modelled here by executable functions that follow their
    standards; every function of the repository is a definition of its own,
    named as in the source. *)

From Stdlib Require Import List String Ascii ZArith NArith Bool Lia.
From Stdlib Require Import Strings.Byte.
From Stdlib Require Import DecimalString QArith Qround Qpower Lqa.
From Stdlib Require Import Sorting.Sorted OrderedTypeEx.
Import ListNotations.
Local Open Scope string_scope.
Local Open Scope Z_scope.

Set Implicit Arguments.

(* ================================================================== *)
(** * JavaScript values *)
(* ================================================================== *)

Module JS.

(** The values that reach the code: JSON data, plus the kinds of value
    that the structured clone of IndexedDB can hold and JSON cannot
    ([undefined], BigInt, [Date], [Blob]/[File]).  A number is carried by
    its value, an integer: fractions, [NaN], the infinities and the negative
    zero are outside the model.  A valid [Date] is carried by its ISO-8601
    rendering (what [toJSON] returns).  A [File] is a [Blob] with a name.
    An object is the list of its own enumerable properties in enumeration
    order.  Values are finite trees: an object that contains itself, which
    the structured clone can also hold, is outside the model, and so are the
    other kinds of object that it can hold ([Map], [Set], [RegExp],
    [ArrayBuffer] and its views). *)
Unset Elimination Schemes.
Inductive value : Type :=
| VUndefined
| VNull
| VBool (b : bool)
| VNum (n : Z)
| VBigInt (n : Z)
| VStr (s : string)
| VDate (iso : string)
| VBlob (bytes : list byte) (mime : string) (fname : option string)
| VArr (items : list value)
| VObj (fields : list (string * value)).

(** The text of a JSON document, by its syntax tree. *)
Inductive json : Type :=
| JNull
| JBool (b : bool)
| JNum (n : Z)
| JStr (s : string)
| JArr (items : list json)
| JObj (fields : list (string * json)).
Set Elimination Schemes.

(** A string handed to [JSON.parse]: either the text of a document or
    something that does not parse. *)
Inductive text : Type :=
| NotJSON (raw : string)
| Doc (j : json).

Section ValueInd.
Variable P : value -> Prop.
Hypothesis Hundef : P VUndefined.
Hypothesis Hnull : P VNull.
Hypothesis Hbool : forall b, P (VBool b).
Hypothesis Hnum : forall n, P (VNum n).
Hypothesis Hbigint : forall n, P (VBigInt n).
Hypothesis Hstr : forall s, P (VStr s).
Hypothesis Hdate : forall s, P (VDate s).
Hypothesis Hblob : forall bs m f, P (VBlob bs m f).
Hypothesis Harr : forall l, Forall P l -> P (VArr l).
Hypothesis Hobj : forall fs, Forall (fun kv => P (snd kv)) fs -> P (VObj fs).

Fixpoint value_ind (v : value) : P v :=
  match v with
  | VUndefined => Hundef
  | VNull => Hnull
  | VBool b => Hbool b
  | VNum n => Hnum n
  | VBigInt n => Hbigint n
  | VStr s => Hstr s
  | VDate s => Hdate s
  | VBlob bs m f => Hblob bs m f
  | VArr l =>
      Harr ((fix go (l : list value) : Forall P l :=
               match l with
               | [] => Forall_nil _
               | x :: r => Forall_cons x (value_ind x) (go r)
               end) l)
  | VObj fs =>
      Hobj ((fix go (l : list (string * value))
               : Forall (fun kv => P (snd kv)) l :=
               match l with
               | [] => Forall_nil _
               | x :: r => Forall_cons x (value_ind (snd x)) (go r)
               end) fs)
  end.
End ValueInd.

Section JsonInd.
Variable P : json -> Prop.
Hypothesis Hnull : P JNull.
Hypothesis Hbool : forall b, P (JBool b).
Hypothesis Hnum : forall n, P (JNum n).
Hypothesis Hstr : forall s, P (JStr s).
Hypothesis Harr : forall l, Forall P l -> P (JArr l).
Hypothesis Hobj : forall fs, Forall (fun kv => P (snd kv)) fs -> P (JObj fs).

Fixpoint json_ind (j : json) : P j :=
  match j with
  | JNull => Hnull
  | JBool b => Hbool b
  | JNum n => Hnum n
  | JStr s => Hstr s
  | JArr l =>
      Harr ((fix go (l : list json) : Forall P l :=
               match l with
               | [] => Forall_nil _
               | x :: r => Forall_cons x (json_ind x) (go r)
               end) l)
  | JObj fs =>
      Hobj ((fix go (l : list (string * json))
               : Forall (fun kv => P (snd kv)) l :=
               match l with
               | [] => Forall_nil _
               | x :: r => Forall_cons x (json_ind (snd x)) (go r)
               end) fs)
  end.
End JsonInd.

(** ** Property access *)

(** [o[k]] on an object: the first property named [k]. *)
Fixpoint assoc {A : Type} (k : string) (l : list (string * A)) : option A :=
  match l with
  | [] => None
  | (k', v) :: r => if String.eqb k k' then Some v else assoc k r
  end.

(** A list of named things with the entry of a name replaced in place, or
    a new entry at its end. *)
Fixpoint assoc_set {A : Type} (k : string) (v : A) (l : list (string * A))
  : list (string * A) :=
  match l with
  | [] => [(k, v)]
  | (k', v') :: r =>
      if String.eqb k k' then (k, v) :: r else (k', v') :: assoc_set k v r
  end.

Definition keys {A : Type} (l : list (string * A)) : list string :=
  map fst l.

(** A property name is an array index when it is the decimal rendering,
    without leading zero, of an integer from 0 to 2^32 - 2. *)
Definition array_index (s : string) : option N :=
  match NilEmpty.uint_of_string s with
  | Some d =>
      let n := N.of_uint d in
      if String.eqb (NilEmpty.string_of_uint (N.to_uint n)) s
         && (n <? 4294967295)%N
      then Some n
      else None
  | None => None
  end.

(** The own properties of an object are enumerated with the array indices
    first, in ascending order, and then the other names in the order of
    their creation.  [precedes k k'] tells whether a new property [k] comes
    before an existing property [k']. *)
Definition precedes (k k' : string) : bool :=
  match array_index k, array_index k' with
  | Some i, Some j => (i <? j)%N
  | Some _, None => true
  | None, _ => false
  end.

Fixpoint insert_property {A : Type} (k : string) (v : A)
  (l : list (string * A)) : list (string * A) :=
  match l with
  | [] => [(k, v)]
  | (k', v') :: r =>
      if precedes k k' then (k, v) :: (k', v') :: r
      else (k', v') :: insert_property k v r
  end.

(** The own properties of an object after a data property [k] has been
    created or set on it ([CreateDataProperty], or an assignment [o[k] = v]
    that finds no setter): an existing property keeps its place. *)
Definition define {A : Type} (k : string) (v : A) (l : list (string * A))
  : list (string * A) :=
  match assoc k l with
  | Some _ => assoc_set k v l
  | None => insert_property k v l
  end.

(** [o[k] = v] on an object [o] made by [{}], for a [v] that is an object.
    [__proto__] is an accessor of [Object.prototype]: assigning to it makes
    [v] the prototype of [o] and creates no own property, and a later read of
    [o.__proto__] yields that prototype. *)
Definition assign {A : Type} (k : string) (v : A) (l : list (string * A))
  : list (string * A) :=
  if String.eqb k "__proto__" then l else define k v l.

(** The names of an object in an order in which JavaScript can hold them:
    each name once, array indices first and ascending. *)
Definition after (k k' : string) : bool :=
  negb (String.eqb k k') && negb (precedes k' k).

Fixpoint enumeration_order (ks : list string) : bool :=
  match ks with
  | [] => true
  | k :: r => forallb (after k) r && enumeration_order r
  end.

(** Decimal rendering of an array index. *)
Definition index_name (i : nat) : string :=
  NilEmpty.string_of_uint (Nat.to_uint i).

Fixpoint indexed {A : Type} (i : nat) (l : list A) : list (string * A) :=
  match l with
  | [] => []
  | x :: r => (index_name i, x) :: indexed (S i) r
  end.

Definition chars (s : string) : list value :=
  map (fun c => VStr (String c EmptyString)) (list_ascii_of_string s).

(** Own enumerable properties of a value, as [for ... in], [Object.keys]
    and the object spread [{...v}] see them: the fields of an object, the
    indexed elements of an array, the indexed characters of a string, and
    nothing for the other values. *)
Definition own_properties (v : value) : list (string * value) :=
  match v with
  | VObj fs => fs
  | VArr l => indexed 0 l
  | VStr s => indexed 0 (chars s)
  | _ => []
  end.

(** [v[k]], with [undefined] for a missing property. *)
Definition get (v : value) (k : string) : value :=
  match assoc k (own_properties v) with
  | Some x => x
  | None => VUndefined
  end.

(** JavaScript truthiness. *)
Definition truthy (v : value) : bool :=
  match v with
  | VUndefined | VNull => false
  | VBool b => b
  | VNum n => negb (n =? 0)
  | VBigInt n => negb (n =? 0)
  | VStr s => negb (String.eqb s "")
  | _ => true
  end.

(** [typeof v === 'object'] *)
Definition typeof_object (v : value) : bool :=
  match v with
  | VNull | VDate _ | VBlob _ _ _ | VArr _ | VObj _ => true
  | _ => false
  end.

(** [v instanceof Blob || v instanceof File] *)
Definition is_blob (v : value) : bool :=
  match v with
  | VBlob _ _ _ => true
  | _ => false
  end.

(** ** JSON.stringify and JSON.parse *)

(** What [JSON.stringify] makes of a value inside a document: [None] when
    it throws (a BigInt has no JSON), [Some None] for [undefined] (the
    property is left out of an object and written [null] in an array).  A
    [Date] is written as its ISO string; a [Blob] has no own enumerable
    property and is written [{}]. *)
Definition element (r : option (option json)) : option json :=
  match r with
  | None => None
  | Some None => Some JNull
  | Some (Some j) => Some j
  end.

Definition member (k : string) (r : option (option json))
  : option (list (string * json)) :=
  match r with
  | None => None
  | Some None => Some []
  | Some (Some j) => Some [(k, j)]
  end.

Fixpoint all_written {A : Type} (l : list (option A)) : option (list A) :=
  match l with
  | [] => Some []
  | None :: _ => None
  | Some x :: r =>
      match all_written r with
      | Some xs => Some (x :: xs)
      | None => None
      end
  end.

Fixpoint to_json (v : value) : option (option json) :=
  match v with
  | VUndefined => Some None
  | VNull => Some (Some JNull)
  | VBool b => Some (Some (JBool b))
  | VNum n => Some (Some (JNum n))
  | VBigInt _ => None
  | VStr s => Some (Some (JStr s))
  | VDate iso => Some (Some (JStr iso))
  | VBlob _ _ _ => Some (Some (JObj []))
  | VArr l =>
      match all_written (map (fun x => element (to_json x)) l) with
      | Some js => Some (Some (JArr js))
      | None => None
      end
  | VObj fs =>
      match all_written
              (map (fun kv => member (fst kv) (to_json (snd kv))) fs) with
      | Some ms => Some (Some (JObj (List.concat ms)))
      | None => None
      end
  end.

(** The object that [JSON.parse] builds from the members of a document, in
    the order of the text: a name that is repeated keeps its first place and
    its last value. *)
Definition object_of (members : list (string * value))
  : list (string * value) :=
  fold_left (fun o kv => define (fst kv) (snd kv) o) members [].

Fixpoint of_json (j : json) : value :=
  match j with
  | JNull => VNull
  | JBool b => VBool b
  | JNum n => VNum n
  | JStr s => VStr s
  | JArr l => VArr (map of_json l)
  | JObj fs => VObj (object_of (map (fun kv => (fst kv, of_json (snd kv))) fs))
  end.

(** [JSON.stringify(v)]: [None] when it throws a [TypeError].
    [JSON.stringify(undefined)] is [undefined], which does not parse. *)
Definition JSON_stringify (v : value) : option text :=
  match to_json v with
  | None => None
  | Some None => Some (NotJSON "undefined")
  | Some (Some j) => Some (Doc j)
  end.

(** [JSON.parse]: [None] when it throws a [SyntaxError]. *)
Definition JSON_parse (t : text) : option value :=
  match t with
  | NotJSON _ => None
  | Doc j => Some (of_json j)
  end.

(** The values JSON carries unchanged: JSON data, the objects with their
    names in the order of enumeration. *)
Fixpoint plain (v : value) : bool :=
  match v with
  | VNull | VBool _ | VNum _ | VStr _ => true
  | VUndefined | VBigInt _ | VDate _ | VBlob _ _ _ => false
  | VArr l => forallb plain l
  | VObj fs =>
      enumeration_order (keys fs) && forallb (fun kv => plain (snd kv)) fs
  end.

End JS.

(* ================================================================== *)
(** * Base64, data URLs and Blobs *)
(* ================================================================== *)

Module Base64.

Local Open Scope N_scope.

Definition alphabet : string :=
  "ABCDEFGHIJKLMNOPQRSTUVWXYZabcdefghijklmnopqrstuvwxyz0123456789+/".

(** The character of a 6-bit group. *)
Definition digit (n : N) : ascii :=
  match String.get (N.to_nat n) alphabet with
  | Some c => c
  | None => "="%char
  end.

Fixpoint position (c : ascii) (s : string) (i : N) : option N :=
  match s with
  | EmptyString => None
  | String c' r => if Ascii.eqb c c' then Some i else position c r (i + 1)
  end.

(** The 6-bit group of a character, when it is in the alphabet. *)
Definition sextet (c : ascii) : option N := position c alphabet 0.

Definition byte_of (n : N) : byte :=
  match Byte.of_N n with
  | Some b => b
  | None => x00
  end.

(** Base64 of a byte sequence (RFC 4648, with padding), as
    [FileReader.readAsDataURL] writes it. *)
Fixpoint encode (bs : list byte) : string :=
  match bs with
  | [] => ""
  | [a] =>
      let x := Byte.to_N a in
      String (digit (x / 4)) (String (digit ((x mod 4) * 16)) "==")
  | [a; b] =>
      let x := Byte.to_N a in
      let y := Byte.to_N b in
      String (digit (x / 4))
        (String (digit ((x mod 4) * 16 + y / 16))
           (String (digit ((y mod 16) * 4)) "="))
  | a :: b :: c :: r =>
      let x := Byte.to_N a in
      let y := Byte.to_N b in
      let z := Byte.to_N c in
      String (digit (x / 4))
        (String (digit ((x mod 4) * 16 + y / 16))
           (String (digit ((y mod 16) * 4 + z / 64))
              (String (digit (z mod 64)) (encode r))))
  end.

Definition one_byte (a b : ascii) : option (list byte) :=
  match sextet a, sextet b with
  | Some p, Some q => Some [byte_of (p * 4 + q / 16)]
  | _, _ => None
  end.

Definition two_bytes (a b c : ascii) : option (list byte) :=
  match sextet a, sextet b, sextet c with
  | Some p, Some q, Some r =>
      Some [byte_of (p * 4 + q / 16); byte_of ((q mod 16) * 16 + r / 4)]
  | _, _, _ => None
  end.

Definition three_bytes (a b c d : ascii) : option (list byte) :=
  match sextet a, sextet b, sextet c, sextet d with
  | Some p, Some q, Some r, Some s =>
      Some [byte_of (p * 4 + q / 16); byte_of ((q mod 16) * 16 + r / 4);
            byte_of ((r mod 4) * 64 + s)]
  | _, _, _, _ => None
  end.

(** Forgiving base64 decoding of a character sequence without white space:
    one or two [=] are accepted at the end of a sequence whose length is a
    multiple of four, a sequence of length 1 modulo 4 or with a character
    outside the alphabet is refused, and a final group of two or three
    characters gives one or two bytes. *)
Fixpoint decode (cs : list ascii) : option (list byte) :=
  match cs with
  | [] => Some []
  | [_] => None
  | [a; b] => one_byte a b
  | [a; b; c] => two_bytes a b c
  | a :: b :: c :: d :: r =>
      match r with
      | [] =>
          if Ascii.eqb d "=" then
            if Ascii.eqb c "=" then one_byte a b else two_bytes a b c
          else three_bytes a b c d
      | _ =>
          match three_bytes a b c d, decode r with
          | Some x, Some y => Some (x ++ y)%list
          | _, _ => None
          end
      end
  end.

(** ASCII white space: tab, line feed, form feed, carriage return, space. *)
Definition is_space (c : ascii) : bool :=
  let n := N_of_ascii c in
  (n =? 9) || (n =? 10) || (n =? 12) || (n =? 13) || (n =? 32).

(** [atob]: the decoded binary string, [None] when it throws
    [InvalidCharacterError]. *)
Definition atob (s : string) : option string :=
  option_map string_of_list_byte
    (decode (filter (fun c => negb (is_space c)) (list_ascii_of_string s))).

(** The test run over the 64 digits: the group of a digit is read back,
    and the digit is neither white space, nor the padding character, nor a
    comma. *)
Definition digit_ok (n : N) : bool :=
  match sextet (digit n) with
  | Some m => (m =? n) && negb (is_space (digit n))
              && negb (Ascii.eqb (digit n) "=")
              && negb (Ascii.eqb (digit n) ",")
  | None => false
  end.

End Base64.

Module Blob.
Import JS.

(** [s.split(',')] *)
Fixpoint split_comma (s : string) : list string :=
  match s with
  | EmptyString => [EmptyString]
  | String c r =>
      if Ascii.eqb c "," then EmptyString :: split_comma r
      else match split_comma r with
           | [] => [String c EmptyString]
           | h :: t => String c h :: t
           end
  end.

Definition comma_free (s : string) : bool :=
  forallb (fun c => negb (Ascii.eqb c ",")) (list_ascii_of_string s).

(** [String(v)], used where a DOM interface expects a string.  (A number
    of 22 digits or more is written with an exponent by JavaScript; no
    number that the code renders comes near.) *)
Fixpoint to_string (v : value) : string :=
  match v with
  | VUndefined => "undefined"
  | VNull => "null"
  | VBool true => "true"
  | VBool false => "false"
  | VNum n => NilZero.string_of_int (Z.to_int n)
  | VBigInt n => NilZero.string_of_int (Z.to_int n)
  | VStr s => s
  | VDate iso => iso
  | VBlob _ _ _ => "[object Blob]"
  | VArr l =>
      String.concat ","
        (map (fun x => match x with
                       | VUndefined | VNull => ""
                       | _ => to_string x
                       end) l)
  | VObj _ => "[object Object]"
  end.

Definition printable (c : ascii) : bool :=
  let n := N_of_ascii c in ((32 <=? n) && (n <=? 126))%N.

Definition lower (c : ascii) : ascii :=
  let n := N_of_ascii c in
  if ((65 <=? n) && (n <=? 90))%N then ascii_of_N (n + 32) else c.

(** The [type] of a new Blob: empty when the given type has a character
    outside U+0020..U+007E, in lower case otherwise. *)
Definition normalize_type (t : string) : string :=
  let cs := list_ascii_of_string t in
  if forallb printable cs then string_of_list_ascii (map lower cs) else "".

(** [new Blob([bytes], { type })]; a missing [type] is the empty string. *)
Definition new_Blob (bytes : list byte) (type : value) : value :=
  VBlob bytes
    (match type with
     | VUndefined => ""
     | _ => normalize_type (to_string type)
     end) None.

(** [FileReader.readAsDataURL]: the result delivered to [onload], with the
    media type that browsers write for a Blob without type.  Reads are
    taken to succeed. *)
Definition readAsDataURL (bytes : list byte) (mime : string) : string :=
  "data:"
  ++ (if String.eqb mime "" then "application/octet-stream" else mime)
  ++ ";base64," ++ Base64.encode bytes.

End Blob.

(* ================================================================== *)
(** * IndexedDB *)
(* ================================================================== *)

Module IDB.
Import JS.

(** Keys: numbers sort before strings, and strings are compared by their
    bytes.  The model is narrower than IndexedDB here: Date, binary and array
    keys are not keys of the model, and characters outside the Basic
    Multilingual Plane, which IndexedDB orders by their UTF-16 code units, are
    ordered by their UTF-8 bytes. *)
Inductive key : Type :=
| KNum (n : Z)
| KStr (s : string).

Definition key_compare (a b : key) : comparison :=
  match a, b with
  | KNum x, KNum y => Z.compare x y
  | KNum _, KStr _ => Lt
  | KStr _, KNum _ => Gt
  | KStr x, KStr y => String.compare x y
  end.

Definition key_eqb (a b : key) : bool :=
  match key_compare a b with
  | Eq => true
  | _ => false
  end.

(** Conversion of a value to a key; [None] is "invalid". *)
Definition valid_key (v : value) : option key :=
  match v with
  | VNum n => Some (KNum n)
  | VStr s => Some (KStr s)
  | _ => None
  end.

(** The key a key path reads from a record. *)
Definition key_of (kp : string) (v : value) : option key :=
  match v with
  | VObj fs =>
      match assoc kp fs with
      | Some kv => valid_key kv
      | None => None
      end
  | _ => None
  end.

Record objectStore : Type := mkStore {
  keyPath : option string;
  autoIncrement : bool;
  keyGenerator : Z;
  records : list (key * value)     (* in ascending key order *)
}.

Record database : Type := mkDb {
  version : Z;
  objectStores : list (string * objectStore)   (* sorted by name *)
}.

Definition databases : Type := list (string * database).

Inductive exception_name : Type :=
| DataError
| ConstraintError
| VersionError.

Definition name_text (n : exception_name) : string :=
  match n with
  | DataError => "DataError"
  | ConstraintError => "ConstraintError"
  | VersionError => "VersionError"
  end.

(** What a request or a call can raise. *)
Inductive thrown : Type :=
| Err (message : string)            (* new Error(message) *)
| TypeError (message : string)
| DOMException (name : exception_name)
| Reason (s : string).              (* a promise rejected with a string *)

(** [e.message]; a string has no [message] property and the template
    literal prints [undefined].  (The message of a DOMException is the
    browser's; its name stands for it.) *)
Definition message (e : thrown) : string :=
  match e with
  | Err m => m
  | TypeError m => m
  | DOMException n => name_text n
  | Reason _ => "undefined"
  end.

Inductive result (A : Type) : Type :=
| Ok (a : A)
| Throw (e : thrown).
Arguments Ok {A} a.
Arguments Throw {A} e.

(** Records of a store are kept sorted; a record with an equal key is
    replaced. *)
Fixpoint insert_record (k : key) (v : value) (l : list (key * value))
  : list (key * value) :=
  match l with
  | [] => [(k, v)]
  | (k', v') :: r =>
      match key_compare k k' with
      | Lt => (k, v) :: (k', v') :: r
      | Eq => (k, v) :: r
      | Gt => (k', v') :: insert_record k v r
      end
  end.

Fixpoint lookup_record (k : key) (l : list (key * value)) : option value :=
  match l with
  | [] => None
  | (k', v) :: r => if key_eqb k k' then Some v else lookup_record k r
  end.

(** A key given by the record raises the key generator above it. *)
Definition bump (k : key) (g : Z) : Z :=
  match k with
  | KNum n => if g <=? n then n + 1 else g
  | KStr _ => g
  end.

(** The key under which [store.put(v)] / [store.add(v)] (no key argument)
    stores [v], with the value as stored and the next state of the key
    generator; [None] is the [DataError] the call throws.  With a key path,
    the key is the named property of the record; when the record has no
    such property and the store has a key generator, the generated key is
    written into the record.  The model is narrower than IndexedDB here: a
    key path is a single property name, and a record that is an array (which
    IndexedDB can also give a generated key) is refused. *)
Definition key_for (v : value) (s : objectStore) : option (key * value * Z) :=
  match keyPath s with
  | Some kp =>
      match v with
      | VObj fs =>
          match assoc kp fs with
          | Some kv =>
              match valid_key kv with
              | Some k =>
                  Some (k, v, if autoIncrement s then bump k (keyGenerator s)
                              else keyGenerator s)
              | None => None
              end
          | None =>
              if autoIncrement s
              then Some (KNum (keyGenerator s),
                         VObj (define kp (VNum (keyGenerator s)) fs),
                         keyGenerator s + 1)
              else None
          end
      | _ => None
      end
  | None =>
      if autoIncrement s
      then Some (KNum (keyGenerator s), v, keyGenerator s + 1)
      else None
  end.

Definition with_records (s : objectStore) (g : Z) (l : list (key * value))
  : objectStore :=
  mkStore (keyPath s) (autoIncrement s) g l.

(** [store.put(v)] *)
Definition put (v : value) (s : objectStore) : result objectStore :=
  match key_for v s with
  | Some (k, v', g) => Ok (with_records s g (insert_record k v' (records s)))
  | None => Throw (DOMException DataError)
  end.

(** [store.add(v)]: as [put], but a record with the key must not exist. *)
Definition add (v : value) (s : objectStore) : result objectStore :=
  match key_for v s with
  | Some (k, v', g) =>
      match lookup_record k (records s) with
      | Some _ => Throw (DOMException ConstraintError)
      | None => Ok (with_records s g (insert_record k v' (records s)))
      end
  | None => Throw (DOMException DataError)
  end.

(** [store.clear()] *)
Definition clear (s : objectStore) : objectStore :=
  with_records s (keyGenerator s) [].

(** Object stores of a database are kept sorted by name
    ([db.objectStoreNames] is a sorted list). *)
Fixpoint insert_store (n : string) (s : objectStore)
  (l : list (string * objectStore)) : list (string * objectStore) :=
  match l with
  | [] => [(n, s)]
  | (n', s') :: r =>
      match String.compare n n' with
      | Lt => (n, s) :: (n', s') :: r
      | Eq => (n, s) :: r
      | Gt => (n', s') :: insert_store n s r
      end
  end.

(** [db.createObjectStore(name, { keyPath, autoIncrement })] *)
Definition createObjectStore (n : string) (kp : option string) (ai : bool)
  (db : database) : database :=
  mkDb (version db) (insert_store n (mkStore kp ai 1 []) (objectStores db)).

(** [db.objectStoreNames.contains(name)] *)
Definition contains (db : database) (n : string) : bool :=
  match assoc n (objectStores db) with
  | Some _ => true
  | None => false
  end.

Definition set_store (n : string) (s : objectStore) (db : database)
  : database :=
  mkDb (version db) (assoc_set n s (objectStores db)).

(** [indexedDB.open(name, version)], up to the point where the handlers
    run.  Without a version an existing database is opened as it is and a
    missing one is created with version 1.  A version below the existing one
    is a [VersionError] (delivered to [onerror]); a version above it, or a
    missing database, fires [onupgradeneeded] on the database at the new
    version before [onsuccess]. *)
Inductive opened : Type :=
| Existing (db : database)
| Upgrading (db : database).

Definition open (name : string) (ver : option Z) (dbs : databases)
  : result opened :=
  match assoc name dbs with
  | None => Ok (Upgrading (mkDb (match ver with Some v => v | None => 1 end) []))
  | Some db =>
      match ver with
      | None => Ok (Existing db)
      | Some v =>
          if v <? version db then Throw (DOMException VersionError)
          else if v =? version db then Ok (Existing db)
          else Ok (Upgrading (mkDb v (objectStores db)))
      end
  end.

End IDB.

(* ================================================================== *)
(** * The browser state the widgets act on *)
(* ================================================================== *)

Module World.
Import JS.

Inductive level : Type := LogLine | WarnLine | ErrorLine.

(** The origin's databases, the lines written to the console, and the text
    of the page's [messageBox] element. *)
Record world : Type := mkWorld {
  indexedDB : IDB.databases;
  console : list (level * string);
  messageBox : string
}.

Definition with_dbs (dbs : IDB.databases) (w : world) : world :=
  mkWorld dbs (console w) (messageBox w).

Definition set_db (name : string) (db : IDB.database) (w : world) : world :=
  with_dbs (assoc_set name db (indexedDB w)) w.

Definition logs (ls : list (level * string)) (w : world) : world :=
  mkWorld (indexedDB w) (console w ++ ls) (messageBox w).

Definition log (l : level) (msg : string) (w : world) : world :=
  logs [(l, msg)] w.

(** How a promise ends: the last case is a promise that is never settled. *)
Inductive outcome (A : Type) : Type :=
| Resolved (a : A)
| Rejected (e : IDB.thrown)
| Pending.
Arguments Resolved {A} a.
Arguments Rejected {A} e.
Arguments Pending {A}.

End World.

(* ================================================================== *)
(** * IndexedDBBackupRestore *)
(* ================================================================== *)

Module IndexedDBBackupRestore.
Import JS IDB World.

(** [constructor(dbNames)]: the instance is its [dbNames].  The other
    field, [dbConnections], only holds the handles that [closeConnections]
    closes; no stored data depends on it and it is left out. *)
Definition constructor (dbNames : value) : result (list string) :=
  match dbNames with
  | VArr l =>
      if existsb (fun name => match name with VStr _ => false | _ => true end) l
      then Throw (Err "dbNames must be an array of strings.")
      else Ok (flat_map (fun name => match name with
                                     | VStr s => [s]
                                     | _ => []
                                     end) l)
  | _ => Throw (Err "dbNames must be an array of strings.")
  end.

(** The [onupgradeneeded] handler of [_openDB]: every listed store that the
    database lacks is created with key path [id] and a key generator. *)
Fixpoint ensure_stores (dbName : string) (objectStoreNames : list string)
  (db : database) : database * list (level * string) :=
  match objectStoreNames with
  | [] => (db, [])
  | storeName :: rest =>
      if contains db storeName then ensure_stores dbName rest db
      else
        let (db', ls) :=
          ensure_stores dbName rest
            (createObjectStore storeName (Some "id") true db) in
        (db',
         (LogLine, "Creating object store: " ++ storeName ++ " in " ++ dbName)
         :: ls)
  end.

(** [_openDB(dbName, version, objectStoreNames)].  [errorCode] is not
    defined on the request of a failed open, so the rejection reason ends
    in [undefined]. *)
Definition _openDB (dbName : string) (version : option Z)
  (objectStoreNames : list string) (w : world) : result database * world :=
  match IDB.open dbName version (indexedDB w) with
  | Throw _ => (Throw (Reason ("Error opening DB " ++ dbName ++ ": undefined")), w)
  | Ok (Existing db) => (Ok db, w)
  | Ok (Upgrading db) =>
      let (db', ls) := ensure_stores dbName objectStoreNames db in
      (Ok db', set_db dbName db' (logs ls w))
  end.

(** [_fileToBase64(file)]: the data URL that the reader delivers. *)
Definition _fileToBase64 (bytes : list byte) (mime : string) : string :=
  Blob.readAsDataURL bytes mime.

(** [_base64ToBlob(base64, mimeType)]: a Blob, or [null] with a console
    line when [base64.split(',')[1]] cannot be taken or [atob] throws.
    A missing second piece reaches [atob] as [undefined], which it reads as
    the string of that name. *)
Definition _base64ToBlob (base64 mimeType : value)
  : value * list (level * string) :=
  match base64 with
  | VStr s =>
      match Base64.atob (nth 1 (Blob.split_comma s) "undefined") with
      | Some byteString =>
          (Blob.new_Blob (list_byte_of_string byteString) mimeType, [])
      | None => (VNull, [(ErrorLine, "Error converting base64 to blob:")])
      end
  | _ => (VNull, [(ErrorLine, "Error converting base64 to blob:")])
  end.

(** ** backup *)

(** The object written in place of a Blob or File field. *)
Definition file_data (bytes : list byte) (mime : string)
  (fname : option string) : value :=
  VObj [("_indexedDB_file_data", VBool true);
        ("data", VStr (_fileToBase64 bytes mime));
        ("type", VStr mime);
        ("name", VStr (match fname with
                       | Some n => if String.eqb n "" then "unnamed_file" else n
                       | None => "unnamed_file"
                       end))].

(** One pass of [for (const key in item)] in the cursor handler. *)
Definition backup_field (v : value) : value :=
  match v with
  | VBlob bytes mime fname => file_data bytes mime fname
  | _ => v
  end.

Definition backup_item (item : list (string * value))
  : list (string * value) :=
  map (fun kv => (fst kv, backup_field (snd kv))) item.

(** Whether the handler has awaited the FileReader for this record. *)
Definition awaited (item : list (string * value)) : bool :=
  existsb (fun kv => is_blob (snd kv)) item.

(** The cursor loop over the records of one store, in key order.  The
    handler pushes the converted record and then calls [cursor.continue()].
    The transaction of the cursor is active only while its success event is
    dispatched; the FileReader's [load] arrives in a later task, after the
    handler has returned to the event loop.  So once the handler has awaited
    [_fileToBase64], [cursor.continue()] throws [TransactionInactiveError]
    inside the [async] handler: neither [resolve] nor [reject] of the
    enclosing promise is ever called ([None] below). *)
Fixpoint cursor_loop (recs : list (key * value)) (pushed : list value)
  : option (list value) :=
  match recs with
  | [] => Some pushed
  | (_, v) :: rest =>
      let item := own_properties v in
      let pushed' := (pushed ++ [VObj (backup_item item)])%list in
      if awaited item then None else cursor_loop rest pushed'
  end.

(** [for (const storeName of objectStoreNames)]: [data] is the object
    [backupData[dbName]], which gets the array of the store by
    [backupData[dbName][storeName] = []] and the pushes of the cursor loop. *)
Fixpoint backup_stores (stores : list (string * objectStore))
  (data : list (string * value)) : option (list (string * value)) :=
  match stores with
  | [] => Some data
  | (storeName, s) :: rest =>
      match cursor_loop (records s) [] with
      | Some items => backup_stores rest (assign storeName (VArr items) data)
      | None => None
      end
  end.

(** [for (const dbName of this.dbNames)]: [backupData[dbName] = {}] and
    the loop over the stores of the database. *)
Fixpoint backup_dbs (dbNames : list string) (backupData : list (string * value))
  (w : world) : outcome (list (string * value)) * world :=
  match dbNames with
  | [] => (Resolved backupData, w)
  | dbName :: rest =>
      match _openDB dbName None [] w with
      | (Throw e, w1) =>
          (Rejected (Err ("Backup failed for " ++ dbName ++ ": " ++ message e)),
           log ErrorLine ("Error during backup of " ++ dbName ++ ":") w1)
      | (Ok db, w1) =>
          match backup_stores (objectStores db) [] with
          | Some stores =>
              backup_dbs rest (assign dbName (VObj stores) backupData) w1
          | None => (Pending, w1)
          end
      end
  end.

(** [backup()]: [JSON.stringify] is called outside the [try], so what
    it throws rejects the promise without a line on the console. *)
Definition backup (dbNames : list string) (w : world)
  : outcome text * world :=
  match backup_dbs dbNames [] w with
  | (Resolved backupData, w') =>
      match JSON_stringify (VObj backupData) with
      | Some jsonString => (Resolved jsonString, w')
      | None =>
          (Rejected (TypeError "Do not know how to serialize a BigInt"), w')
      end
  | (Rejected e, w') => (Rejected e, w')
  | (Pending, w') => (Pending, w')
  end.

(** ** restore *)

(** [parsedData.hasOwnProperty(name)].  The method is that of
    [Object.prototype], unless the parsed object has a member of that name:
    then the member is called, and nothing that [JSON.parse] returns can be
    called. *)
Definition hasOwnProperty (parsedData : value) (name : string) : result bool :=
  match parsedData with
  | VObj fs =>
      match assoc "hasOwnProperty" fs with
      | Some _ =>
          Throw (TypeError "parsedData.hasOwnProperty is not a function")
      | None => Ok (existsb (String.eqb name) (keys fs))
      end
  | VArr _ | VStr _ =>
      Ok (existsb (String.eqb name) (keys (own_properties parsedData))
          || String.eqb name "length")
  | _ => Ok false
  end.

(** [Object.keys(v)]; [None] is the [TypeError] on [null] and [undefined]. *)
Definition Object_keys (v : value) : option (list string) :=
  match v with
  | VUndefined | VNull => None
  | _ => Some (keys (own_properties v))
  end.

(** [v.length === 0] *)
Definition length_is_zero (v : value) : bool :=
  match v with
  | VArr l => Nat.eqb (List.length l) 0
  | VStr s => Nat.eqb (String.length s) 0
  | _ => match get v "length" with
         | VNum n => n =? 0
         | _ => false
         end
  end.

(** The elements [for ... of] visits; [None] when the value is not
    iterable. *)
Definition iterate (v : value) : option (list value) :=
  match v with
  | VArr l => Some l
  | VStr s => Some (chars s)
  | _ => None
  end.

(** [v && typeof v === 'object' && v._indexedDB_file_data] *)
Definition marked (v : value) : bool :=
  truthy v && typeof_object v && truthy (get v "_indexedDB_file_data").

(** One pass of [for (const key in item)] in [restore]. *)
Definition restore_field (key : string) (v : value)
  : value * list (level * string) :=
  if marked v
  then
    let (b, ls) := _base64ToBlob (get v "data") (get v "type") in
    (b,
     if truthy b then ls
     else List.app ls
            [(WarnLine, "Failed to convert base64 to Blob for key: '"
                        ++ key ++ "'. Setting to null.")])
  else (v, []).

Fixpoint restore_fields (fs : list (string * value))
  : list (string * value) * list (level * string) :=
  match fs with
  | [] => ([], [])
  | (k, v) :: rest =>
      let (v', ls) := restore_field k v in
      let (rest', ls') := restore_fields rest in
      ((k, v') :: rest', (ls ++ ls')%list)
  end.

(** The record as it is handed to [store.put], with the lines logged on
    the way. *)
Definition restore_item (item : value) : value * list (level * string) :=
  match item with
  | VObj fs => let (fs', ls) := restore_fields fs in (VObj fs', ls)
  | VArr l =>
      let (fs', ls) := restore_fields (indexed 0 l) in (VArr (map snd fs'), ls)
  | _ => (item, [])
  end.

(** [for (let item of itemsToRestore)]: convert, then [await] the put.  A
    put that fails is logged and thrown again as an [Error]; the records put
    before it stay in the store. *)
Fixpoint put_items (dbName storeName : string) (items : list value)
  (s : objectStore) : result unit * objectStore * list (level * string) :=
  match items with
  | [] => (Ok tt, s, [])
  | item :: rest =>
      let (item', ls) := restore_item item in
      match put item' s with
      | Ok s' =>
          let '(r, s'', ls') := put_items dbName storeName rest s' in
          (r, s'', (ls ++ ls')%list)
      | Throw _ =>
          (Throw (Err ("Restoration failed for an item in " ++ dbName ++ "."
                       ++ storeName ++ ".")),
           s,
           List.app ls
             [(ErrorLine, "Error putting item into " ++ dbName ++ "."
                          ++ storeName ++ ":")])
      end
  end.

(** [for (const storeName of objectStoreNames)] *)
Fixpoint restore_stores (dbName : string) (dbStoresData : value)
  (objectStoreNames : list string) (db : database)
  : result unit * database * list (level * string) :=
  match objectStoreNames with
  | [] => (Ok tt, db, [])
  | storeName :: rest =>
      let itemsToRestore := get dbStoresData storeName in
      if negb (truthy itemsToRestore) || length_is_zero itemsToRestore
      then restore_stores dbName dbStoresData rest db
      else
        match assoc storeName (objectStores db) with
        | None =>
            let '(r, db', ls) := restore_stores dbName dbStoresData rest db in
            (r, db',
             (WarnLine, "Object store '" ++ storeName ++ "' not found in '"
                        ++ dbName ++ "'. Skipping restore for this store.")
             :: ls)
        | Some s =>
            match iterate itemsToRestore with
            | None => (Throw (TypeError "itemsToRestore is not iterable"), db, [])
            | Some items =>
                let '(r, s', ls) := put_items dbName storeName items s in
                let db1 := set_store storeName s' db in
                match r with
                | Ok _ =>
                    let '(r', db', ls') :=
                      restore_stores dbName dbStoresData rest db1 in
                    (r', db', (ls ++ ls')%list)
                | Throw e => (Throw e, db1, ls)
                end
            end
        end
  end.

(** The body of [if (parsedData.hasOwnProperty(dbName))]: what it does to
    the world, and whether the loop goes on ([None]) or the promise is
    rejected.  [Object.keys] is called before the [try]. *)
Definition restore_db (parsedData : value) (dbName : string) (w : world)
  : option thrown * world :=
  let dbStoresData := get parsedData dbName in
  match Object_keys dbStoresData with
  | None =>
      (Some (TypeError "Cannot convert undefined or null to object"), w)
  | Some objectStoreNames =>
      match _openDB dbName (Some 1) objectStoreNames w with
      | (Throw e, w1) =>
          (Some (Err ("Restoration failed for " ++ dbName ++ ": "
                      ++ message e)),
           log ErrorLine ("Error during restore of " ++ dbName ++ ":") w1)
      | (Ok db, w1) =>
          let '(r, db', ls) :=
            restore_stores dbName dbStoresData objectStoreNames db in
          let w2 := set_db dbName db' (logs ls w1) in
          match r with
          | Ok _ => (None, w2)
          | Throw e =>
              (Some (Err ("Restoration failed for " ++ dbName ++ ": "
                          ++ message e)),
               log ErrorLine ("Error during restore of " ++ dbName ++ ":") w2)
          end
      end
  end.

(** [for (const dbName in parsedData)] *)
Fixpoint restore_dbs (parsedData : value) (dbNames : list string) (w : world)
  : outcome unit * world :=
  match dbNames with
  | [] => (Resolved tt, w)
  | dbName :: rest =>
      match hasOwnProperty parsedData dbName with
      | Throw e => (Rejected e, w)
      | Ok false => restore_dbs parsedData rest w
      | Ok true =>
          match restore_db parsedData dbName w with
          | (Some e, w') => (Rejected e, w')
          | (None, w') => restore_dbs parsedData rest w'
          end
      end
  end.

(** [restore(jsonString)] *)
Definition restore (jsonString : text) (w : world) : outcome unit * world :=
  match JSON_parse jsonString with
  | None =>
      (Rejected (Err "Invalid JSON string provided for restoration."), w)
  | Some parsedData =>
      restore_dbs parsedData (keys (own_properties parsedData)) w
  end.

End IndexedDBBackupRestore.

(* ================================================================== *)
(** * DroppableImageTarget *)
(* ================================================================== *)

Module DroppableImageTarget.
Import JS IDB World.

Record file : Type := mkFile {
  file_name : string;
  file_type : string;
  file_bytes : list byte
}.

(** The instance: whether [this.db] holds a connection, and the image the
    target shows. *)
Record target : Type := mkTarget {
  db : bool;
  shown : option string
}.

Definition dbName : string := "windowImage".
Definition dbVersion : Z := 1.

(** [initDatabase()], by what it does to the instance and the world: the
    upgrade handler creates the [images] store with key path [id]; creating
    a store that exists aborts the upgrade. *)
Definition initDatabase (t : target) (w : world) : target * world :=
  match IDB.open dbName (Some dbVersion) (indexedDB w) with
  | Throw _ => (t, log ErrorLine "IndexedDB error:" w)
  | Ok (Existing _) =>
      (mkTarget true (shown t), log LogLine "Database opened successfully." w)
  | Ok (Upgrading d) =>
      if contains d "images" then (t, log ErrorLine "IndexedDB error:" w)
      else
        (mkTarget true (shown t),
         log LogLine "Database opened successfully."
           (set_db dbName (createObjectStore "images" (Some "id") false d) w))
  end.


(** [displayImage(dataUrl)] *)
Definition displayImage (dataUrl : string) (t : target) : target :=
  mkTarget (db t) (Some dataUrl).

(** [storeImage(file)], with the time [new Date()] reads.  The first
    component tells whether the image was stored.  [onload] opens a
    transaction on [images] (an exception when the store is missing),
    clears the store and, in the success handler of the clear, adds the
    record.  An [add] that throws does so inside that handler, and an
    exception that leaves a success handler aborts the transaction, as does
    an [add] that fails as a request: the clear is undone. *)
Definition storeImage (f : file) (now : string) (t : target) (w : world)
  : bool * target * world :=
  if negb (db t) then (false, t, log ErrorLine "Database not initialized." w)
  else
    let imageData := Blob.readAsDataURL (file_bytes f) (file_type f) in
    match assoc dbName (indexedDB w) with
    | None => (false, t, w)
    | Some d =>
        match assoc "images" (objectStores d) with
        | None => (false, t, w)
        | Some store =>
            let cleared := clear store in
            let w1 := log LogLine "Previous images cleared." w in
            let imageObject :=
              VObj [("id", VStr "current-image");
                    ("name", VStr (file_name f));
                    ("data", VStr imageData);
                    ("timestamp", VDate now)] in
            match add imageObject cleared with
            | Ok stored =>
                (true, displayImage imageData t,
                 log LogLine "Image stored successfully!"
                   (set_db dbName (set_store "images" stored d) w1))
            | Throw (DOMException ConstraintError) =>
                (false, t, log ErrorLine "Error storing image:" w1)
            | Throw _ => (false, t, w1)
            end
        end
    end.

(** [type.startsWith('image/')] *)
Definition is_image (f : file) : bool := String.prefix "image/" (file_type f).

(** The [drop] listener: the first dropped file is stored when it is an
    image. *)
Definition drop (files : list file) (now : string) (t : target) (w : world)
  : target * world :=
  match files with
  | f :: _ =>
      if is_image f
      then let '(_, t', w') := storeImage f now t w in (t', w')
      else (t, w)
  | [] => (t, w)
  end.

(** [loadExistingImage()] *)
Definition loadExistingImage (t : target) (w : world) : target * world :=
  if negb (db t) then (t, log ErrorLine "Database not initialized." w)
  else
    match assoc dbName (indexedDB w) with
    | None => (t, w)
    | Some d =>
        match assoc "images" (objectStores d) with
        | None => (t, w)
        | Some store =>
            match lookup_record (KStr "current-image") (records store) with
            | Some imageObject =>
                (displayImage (Blob.to_string (get imageObject "data")) t,
                 log LogLine "Existing image loaded from database." w)
            | None => (t, log LogLine "No existing image found." w)
            end
        end
    end.

End DroppableImageTarget.

(* ================================================================== *)
(** * The page script: backup and restore buttons *)
(* ================================================================== *)

Module Page.
Import JS IDB World.

Definition DB_NAMES : list string := ["kalvNotesDB"; "windowImage"].

Definition showMessage (message : string) (w : world) : world :=
  mkWorld (indexedDB w) (console w) message.

(** Click on [backupBtn]: the downloaded text, when there is one. *)
Definition backupBtn_click (w : world) : option text * world :=
  match IndexedDBBackupRestore.backup DB_NAMES
          (showMessage "Saving backup disk..." w) with
  | (Resolved json, w1) =>
      (Some json, showMessage "Disk downloaded successfully!" w1)
  | (Rejected e, w1) =>
      (None,
       showMessage ("Disk save failed: " ++ message e ++ ".")
         (log ErrorLine "Disk save failed:" w1))
  | (Pending, w1) => (None, w1)
  end.


End Page.

(* ================================================================== *)
(** * Numbers as the engine rounds them *)
(* ================================================================== *)

Module Double.
Local Open Scope Q_scope.

(** A JavaScript number is a number of binary64, and an arithmetic
    operation returns the number of binary64 that is nearest to the exact
    result, the one with the even significand when two are as near.  The
    numbers of binary64 are carried by their values, the rationals
    [m * 2^e] with [|m| < 2^53].  The exponent [e] is not bounded here:
    results of 2^1024 and more in size, which become an infinity, and
    results under 2^-1022 in size, which lose bits, are outside the model,
    and so are [NaN] and the negative zero. *)

(** For [0 < x], the exponent [L] with [2^L <= x < 2^(L+1)]. *)
Definition ilog2 (x : Q) : Z :=
  let a := (Z.log2 (Qnum x) - Z.log2 (Zpos (Qden x)))%Z in
  if Qle_bool (2 ^ a) x then a else (a - 1)%Z.

(** The integer nearest to [q], the even one of two that are as near. *)
Definition nearest_even (q : Q) : Z :=
  let f := Qfloor q in
  match Qcompare (q - inject_Z f) (1 # 2) with
  | Lt => f
  | Eq => if Z.even f then f else (f + 1)%Z
  | Gt => (f + 1)%Z
  end.

(** For [0 < x]: [x] is brought between 2^52 and 2^53, rounded to an
    integer there and brought back. *)
Definition round_pos (x : Q) : Q :=
  let e := (ilog2 x - 52)%Z in
  inject_Z (nearest_even (x / 2 ^ e)) * 2 ^ e.

Definition round (x : Q) : Q :=
  match Qnum x with
  | Z0 => 0
  | Zpos _ => round_pos x
  | Zneg _ => - round_pos (- x)
  end.

(** [a + b], [a - b], [a * b] and [a / b] of the language. *)
Definition add (a b : Q) : Q := round (a + b).
Definition sub (a b : Q) : Q := round (a - b).
Definition mul (a b : Q) : Q := round (a * b).
Definition div (a b : Q) : Q := round (a / b).

(** The numbers of binary64. *)
Definition representable (x : Q) : Prop := round x == x.

(** The largest number of binary64 below 1. *)
Definition below_one : Q := 1 - 2 ^ (-53).

End Double.

(* ================================================================== *)
(** * DotCanvas *)
(* ================================================================== *)

Module DotCanvas.

Record dot : Type := mkDot {
  x : Q;
  y : Q;
  radius : Q;
  color : string
}.

(** A line holds the two entries read from [this.dots]; an index outside
    the array reads [undefined] ([None]). *)
Record line : Type := mkLine {
  dot1 : option dot;
  dot2 : option dot;
  line_color : string
}.

Record canvas : Type := mkCanvas {
  width : Q;
  height : Q;
  maxDots : Z;
  dotRadius : Q;
  dots : list dot;
  lines : list line;
  dotCount : Z;
  lineTimeout : option Q      (* delay of the pending timer *)
}.

(** [Math.random()] is read from a supply of draws, each in [0, 1). *)
Definition unit_draw (r : Q) : Prop := (0 <= r)%Q /\ (r < 1)%Q.

(** [Math.floor(Math.random() * this.dots.length)] *)
Definition random_index (n : nat) (r : Q) : Z :=
  Qfloor (r * inject_Z (Z.of_nat n)).

(** How far a call has come when the supply of draws ends. *)
Inductive progress (A : Type) : Type :=
| Returned (a : A) (rest : list Q)
| InLoop                       (* still inside the retry loop *)
| Starved.                     (* out of draws elsewhere *)
Arguments Returned {A} a rest.
Arguments InLoop {A}.
Arguments Starved {A}.

(** [while (randomIndex1 === randomIndex2) randomIndex2 = ...] *)
Fixpoint retry (n : nat) (randomIndex1 randomIndex2 : Z) (rs : list Q)
  {struct rs} : progress Z :=
  if randomIndex1 =? randomIndex2 then
    match rs with
    | [] => InLoop
    | r :: rest => retry n randomIndex1 (random_index n r) rest
    end
  else Returned randomIndex2 rs.

(** [getRandomColor()]: six draws are made for the digits, and white is
    returned whatever they are. *)
Definition getRandomColor (rs : list Q) : progress string :=
  match rs with
  | _ :: _ :: _ :: _ :: _ :: _ :: rest => Returned "#ffffff" rest
  | _ => Starved
  end.

(** [this.dots[i]] *)
Definition dot_at (ds : list dot) (i : Z) : option dot :=
  if i <? 0 then None else nth_error ds (Z.to_nat i).

(** [scheduleNextLine()] *)
Definition scheduleNextLine (rs : list Q) (c : canvas) : progress canvas :=
  match rs with
  | r :: rest =>
      let randomDelay := (r * (1000 - 200) + 200)%Q in
      Returned (mkCanvas (width c) (height c) (maxDots c) (dotRadius c)
                  (dots c) (lines c) (dotCount c) (Some randomDelay)) rest
  | [] => Starved
  end.

Definition with_lines (ls : list line) (c : canvas) : canvas :=
  mkCanvas (width c) (height c) (maxDots c) (dotRadius c)
    (dots c) ls (dotCount c) (lineTimeout c).

(** [addRandomLine()] *)
Definition addRandomLine (rs : list Q) (c : canvas) : progress canvas :=
  let kept := if (20 <? List.length (lines c))%nat then [] else lines c in
  let n := List.length (dots c) in
  match rs with
  | r1 :: r2 :: rest =>
      let randomIndex1 := random_index n r1 in
      match retry n randomIndex1 (random_index n r2) rest with
      | Returned randomIndex2 rest1 =>
          match getRandomColor rest1 with
          | Returned lineColor rest2 =>
              scheduleNextLine rest2
                (with_lines
                   (kept ++ [mkLine (dot_at (dots c) randomIndex1)
                               (dot_at (dots c) randomIndex2) lineColor])%list
                   c)
          | _ => Starved
          end
      | InLoop => InLoop
      | Starved => Starved
      end
  | _ => Starved
  end.

(** [addRandomDot()], with the timer of [startLineGeneration] set anew at
    the tenth dot. *)
Definition addRandomDot (rs : list Q) (c : canvas) : progress canvas :=
  let added :=
    if dotCount c <=? maxDots c then
      match rs with
      | rx :: ry :: rest =>
          match getRandomColor rest with
          | Returned col rest' =>
              Returned
                (mkCanvas (width c) (height c) (maxDots c) (dotRadius c)
                   (dots c ++ [mkDot (rx * width c) (ry * height c)
                                 (dotRadius c) col])%list
                   (lines c) (dotCount c + 1) (lineTimeout c)) rest'
          | _ => Starved
          end
      | _ => Starved
      end
    else Returned c rs in
  match added with
  | Returned c' rest =>
      if dotCount c' =? 10 then scheduleNextLine rest c' else Returned c' rest
  | other => other
  end.

(** [new DotCanvas(canvasElement, maxDots, dotRadius)], for a canvas
    element of the given size. *)
Definition constructor (width height : Q) (maxDots : Z) (dotRadius : Q)
  : canvas :=
  mkCanvas width height maxDots dotRadius [] [] 0 None.

(** What the [width] or the [height] of a canvas element becomes when a
    number is assigned to it.  The number is converted to an
    [unsigned long]: it loses its fraction and is reduced modulo 2^32; a
    result above 2^31 - 1 is replaced by the default of the attribute. *)
Definition integer_part (q : Q) : Z :=
  if Qle_bool 0 q then Qfloor q else Qceiling q.

Definition assigned_size (default : Z) (q : Q) : Q :=
  let n := integer_part q mod 2 ^ 32 in
  inject_Z (if n >? 2147483647 then default else n).

(** [setCanvasSize()], with [window.innerWidth] and [window.innerHeight].
    The products are rounded, [0.8] and [0.7] being read as the nearest
    numbers of binary64; the defaults of a canvas are 300 and 150. *)
Definition setCanvasSize (innerWidth innerHeight : Q) (c : canvas) : canvas :=
  mkCanvas
    (assigned_size 300 (Double.mul innerWidth (Double.round (8 # 10))))
    (assigned_size 150 (Double.mul innerHeight (Double.round (7 # 10))))
    (maxDots c) (dotRadius c) (dots c) (lines c) (dotCount c) (lineTimeout c).

(** The three methods that the constructor binds as callbacks, as the
    browser calls them: [animate] at an animation frame (of which
    [addRandomDot] is the part that changes the instance), [addRandomLine]
    at the end of the pending timer, [setCanvasSize] at a resize. *)
Inductive callback : Type :=
| Animate
| AddRandomLine
| SetCanvasSize (innerWidth innerHeight : Q).

Fixpoint run (calls : list callback) (rs : list Q) (c : canvas)
  : progress canvas :=
  match calls with
  | [] => Returned c rs
  | call :: rest =>
      match call with
      | Animate =>
          match addRandomDot rs c with
          | Returned c' rs' => run rest rs' c'
          | other => other
          end
      | AddRandomLine =>
          match addRandomLine rs c with
          | Returned c' rs' => run rest rs' c'
          | other => other
          end
      | SetCanvasSize innerWidth innerHeight =>
          run rest rs (setCanvasSize innerWidth innerHeight c)
      end
  end.

End DotCanvas.

(* ================================================================== *)
(** * Conditions used in the statements *)
(* ================================================================== *)

Module Conditions.
Import JS IDB World IndexedDBBackupRestore.

(** The items of a list all carry a key, and no two the same. *)
Definition keyed (kp : string) (items : list value) : Prop :=
  Forall (fun item => key_of kp item <> None) items /\
  NoDup (map (key_of kp) items).

(** What [restore] has written into a store that it found: each item of
    the store's list is the record under its key. *)
Definition installed (dbStoresData : value) (storeName : string)
  (s : objectStore) : Prop :=
  forall kp items item k,
    keyPath s = Some kp ->
    get dbStoresData storeName = VArr items ->
    keyed kp items ->
    In item items -> key_of kp item = Some k ->
    lookup_record k (records s) = Some (fst (restore_item item)).

(** A record that JSON carries unchanged and [restore] leaves alone: an
    object whose fields hold JSON data and no marked object. *)
Definition plain_record (r : value) : bool :=
  match r with
  | VObj fs =>
      enumeration_order (keys fs)
      && forallb (fun kv => plain (snd kv) && negb (marked (snd kv))) fs
  | _ => false
  end.

(** A value in which [JSON.stringify] meets no BigInt. *)
Fixpoint bigint_free (v : value) : bool :=
  match v with
  | VBigInt _ => false
  | VArr l => forallb bigint_free l
  | VObj fs => forallb (fun kv => bigint_free (snd kv)) fs
  | _ => true
  end.



(** The invariant of a store: its records are in ascending key order, and
    with a key path each record is under the key that the path reads from
    it. *)
Definition key_lt (a b : key * value) : Prop :=
  key_compare (fst a) (fst b) = Lt.

Definition coherent (s : objectStore) : Prop :=
  StronglySorted key_lt (records s) /\
  forall kp, keyPath s = Some kp ->
    Forall (fun kr => key_of kp (snd kr) = Some (fst kr)) (records s).

(** A coherent store with a key path whose records are plain. *)
Definition plain_store (s : objectStore) : Prop :=
  (exists kp, keyPath s = Some kp) /\
  coherent s /\
  Forall (fun kr => plain_record (snd kr) = true) (records s).

Definition plain_database (d : database) : Prop :=
  NoDup (keys (objectStores d)) /\
  Forall (fun ns => plain_store (snd ns)) (objectStores d).

(** The databases during a backup: those of the start, and empty ones
    that [_openDB] has created for names that had none. *)
Definition grown (dbs0 dbs : databases) : Prop :=
  forall n,
    assoc n dbs = assoc n dbs0 \/
    (assoc n dbs0 = None /\ assoc n dbs = Some (mkDb 1 [])).

(** A database whose stores have distinct names and no record with a Blob
    or File field, nor with a BigInt anywhere in it. *)
Definition blob_free (s : objectStore) : Prop :=
  Forall (fun kr => awaited (own_properties (snd kr)) = false /\
                    bigint_free (snd kr) = true) (records s).

Definition blob_free_database (d : database) : Prop :=
  NoDup (keys (objectStores d)) /\
  Forall (fun ns => blob_free (snd ns)) (objectStores d).

(** The records of a store as the cursor handler copies them
    ([{ ...cursor.value }]), in the order of the cursor. *)
Definition spread_records (s : objectStore) : list value :=
  map (fun kr => VObj (own_properties (snd kr))) (records s).

(** The object that [backup] builds for a database of the start: it has
    the array of every store but one named [__proto__]. *)
Definition backed_up (dbs0 : databases) (n : string)
  (stores : list (string * value)) : Prop :=
  enumeration_order (keys stores) = true /\
  assoc "__proto__" stores = None /\
  forall sn,
    sn <> "__proto__" ->
    assoc sn stores
    = match assoc n dbs0 with
      | Some d =>
          match assoc sn (objectStores d) with
          | Some s => Some (VArr (spread_records s))
          | None => None
          end
      | None => None
      end.

(** What [restore_stores] needs of the lists and of the database: every
    listed name has an array, and the store of a non-empty array is there,
    with a key path that reads a key from each item. *)
Definition storable (dbStoresData : value) (names : list string)
  (db : database) : Prop :=
  forall n, In n names ->
    exists items,
      get dbStoresData n = VArr items /\
      (items = [] \/
       exists st kp,
         assoc n (objectStores db) = Some st /\ keyPath st = Some kp /\
         Forall (fun item => key_of kp item <> None) items).

(** What [restore_dbs] needs: every named database is a member of the
    parsed object, is there at version 1 and can store the lists given for
    it. *)
Definition restorable (parsedData : value) (names : list string)
  (dbs : databases) : Prop :=
  forall n, In n names ->
    exists storeNames dt,
      hasOwnProperty parsedData n = Ok true /\
      Object_keys (get parsedData n) = Some storeNames /\
      assoc n dbs = Some dt /\ version dt = 1 /\
      storable (get parsedData n) storeNames dt.

(** [dt] has, for every store of [d], a store of that name with the same
    key path. *)
Definition receives (dt d : database) : Prop :=
  forall storeName s,
    assoc storeName (objectStores d) = Some s ->
    exists st,
      assoc storeName (objectStores dt) = Some st /\ keyPath st = keyPath s.



End Conditions.

(* ================================================================== *)
(** * Sample states *)
(* ================================================================== *)

Module Samples.
Import JS IDB World.


Definition empty_world : world := mkWorld [] [] "".

Definition picture : DroppableImageTarget.file :=
  DroppableImageTarget.mkFile "a.png" "image/png" [x01; x02; xff].

Definition noon : string := "2025-01-01T12:00:00.000Z".

(** The page after [new DroppableImageTarget(...)] has opened its database
    in a fresh browser profile. *)
Definition opened : DroppableImageTarget.target * world :=
  DroppableImageTarget.initDatabase
    (DroppableImageTarget.mkTarget false None) empty_world.

(** ... and after a picture has been dropped on it. *)
Definition dropped : DroppableImageTarget.target * world :=
  DroppableImageTarget.drop [picture] noon (fst opened) (snd opened).

(** A backup file that names the image store. *)
Definition other_image : text :=
  Doc (JObj [("windowImage",
              JObj [("images",
                     JArr [JObj [("id", JStr "current-image");
                                 ("name", JStr "b.png");
                                 ("data", JStr "data:image/png;base64,AA==")]])])]).



(** A backup file whose second store holds an item that has no valid key. *)
Definition half_good : text :=
  Doc (JObj [("shelf",
              JObj [("books", JArr [JObj [("id", JNum 1);
                                          ("title", JStr "Emma")]]);
                    ("loans", JArr [JObj [("id", JNull)]])])]).

(** A database with one store that holds one record with a Blob field. *)
Definition album : world :=
  mkWorld
    [("album",
      mkDb 1
        [("photos",
          mkStore (Some "id") true 2
            [(KNum 1,
              VObj [("id", VNum 1);
                    ("photo", VBlob [x01; x02; xff] "image/png" None)])])])]
    [] "".

(** A database of plain records, and the same database with its store
    emptied. *)
Definition library : world :=
  mkWorld
    [("shelf",
      mkDb 1
        [("books",
          mkStore (Some "id") true 3
            [(KNum 1, VObj [("id", VNum 1); ("title", VStr "Emma")]);
             (KNum 2, VObj [("id", VNum 2); ("title", VStr "Persuasion");
                            ("tags", VArr [VStr "novel"; VNull])])])])]
    [] "".

(** The same database after an upgrade of its schema to version 2. *)
Definition library_v2 : world :=
  mkWorld [("shelf", mkDb 2 [("books", mkStore (Some "id") true 3 [])])]
    [] "".

(** A store with out-of-line keys and no key generator. *)
Definition ledger : world :=
  mkWorld
    [("ledger",
      mkDb 1 [("entries",
               mkStore None false 1
                 [(KStr "a", VObj [("amount", VNum 5)])])])]
    [] "".

Definition library_emptied : world :=
  mkWorld [("shelf", mkDb 1 [("books", mkStore (Some "id") true 3 [])])]
    [] "".

End Samples.

(* ================================================================== *)
(** * RotatingDate *)
(* ================================================================== *)

Unset Implicit Arguments.

Module RotatingDate.

(** The numbers that occur in the date array: integers and [NaN]. *)
Inductive number : Type :=
| NaN
| Int (z : Z).

(** A [Date] by what [getFullYear()], [getMonth()] and [getDate()] return:
    three integers, or [NaN] three times for an invalid date. *)
Inductive date : Type :=
| InvalidDate
| LocalDate (fullYear month day : Z).

Definition getDate (d : date) : number :=
  match d with
  | InvalidDate => NaN
  | LocalDate _ _ day => Int day
  end.

Definition getMonth (d : date) : number :=
  match d with
  | InvalidDate => NaN
  | LocalDate _ month _ => Int month
  end.

Definition getFullYear (d : date) : number :=
  match d with
  | InvalidDate => NaN
  | LocalDate fullYear _ _ => Int fullYear
  end.

(** [n + 1] *)
Definition plus_one (n : number) : number :=
  match n with
  | NaN => NaN
  | Int z => Int (z + 1)
  end.

(** [String(n)] *)
Definition String_of (n : number) : string :=
  match n with
  | NaN => "NaN"
  | Int z => NilZero.string_of_int (Z.to_int z)
  end.

(** [s.padStart(n, c)] with a pad string of one character. *)
Definition padStart (n : nat) (c : ascii) (s : string) : string :=
  string_of_list_ascii (repeat c (n - String.length s)) ++ s.

(** [Number(c)] of a string of one character: the value of a decimal
    digit, 0 for white space, [NaN] otherwise. *)
Definition Number_of (c : ascii) : number :=
  let n := N_of_ascii c in
  if ((48 <=? n) && (n <=? 57))%N then Int (Z.of_N n - 48)
  else if ((9 <=? n) && (n <=? 13) || (n =? 32))%N then Int 0
  else NaN.

(** The instance.  An element of the array is a number, or [undefined]
    ([None]).  [divElement] is the text of the element [rotating-date], when
    the page has one.  [timers] are the interval timers of the window that
    run the callback of [startRotation], by their ids. *)
Record instance : Type := mkInstance {
  dateArray : list (option number);
  divElement : option string;
  intervalId : option nat;
  timers : list nat;
  nextTimer : nat
}.

(** [constructor(date)], on a page whose element has the given text. *)
Definition constructor (d : date) (element : option string) : instance :=
  let day := getDate d in
  let month := plus_one (getMonth d) in
  let year := getFullYear d in
  mkInstance
    (map (fun c => Some (Number_of c))
       (list_ascii_of_string (padStart 2 "0" (String_of day))
        ++ list_ascii_of_string (padStart 2 "0" (String_of month))
        ++ list_ascii_of_string (String_of year))%list)
    element None [] 0.

(** [rotateNumbers()]: [shift()] on an empty array returns [undefined], which
    is then pushed. *)
Definition rotateNumbers (r : instance) : instance :=
  mkInstance
    (match dateArray r with
     | [] => [None]
     | firstElement :: rest => (rest ++ [firstElement])%list
     end)
    (divElement r) (intervalId r) (timers r) (nextTimer r).

(** [getCurrentDateString()]: [join] writes [undefined] as the empty
    string. *)
Definition getCurrentDateString (r : instance) : string :=
  String.concat " "
    (map (fun e => match e with
                   | Some n => String_of n
                   | None => ""
                   end) (dateArray r)).

(** [updateDisplay()] *)
Definition updateDisplay (r : instance) : instance :=
  match divElement r with
  | Some _ =>
      mkInstance (dateArray r) (Some (getCurrentDateString r))
        (intervalId r) (timers r) (nextTimer r)
  | None => r
  end.

(** [startRotation()] *)
Definition startRotation (r : instance) : instance :=
  let r1 := updateDisplay r in
  mkInstance (dateArray r1) (divElement r1) (Some (nextTimer r1))
    (nextTimer r1 :: timers r1) (S (nextTimer r1)).

(** [stopRotation()]: [clearInterval] of an id that is not set does
    nothing. *)
Definition stopRotation (r : instance) : instance :=
  mkInstance (dateArray r) (divElement r) (intervalId r)
    (match intervalId r with
     | Some id => filter (fun t => negb (Nat.eqb t id)) (timers r)
     | None => timers r
     end)
    (nextTimer r).

(** The callback of the interval. *)
Definition callback (r : instance) : instance :=
  updateDisplay (rotateNumbers r).

(** One second passes: every running timer fires once. *)
Definition second (r : instance) : instance :=
  Nat.iter (List.length (timers r)) callback r.

End RotatingDate.

(* ================================================================== *)
(** * SunAzimuthCalculator: the Julian date *)
(* ================================================================== *)

Module SunAzimuthCalculator.

(** A valid [Date] by its UTC fields. *)
Record utc : Type := mkUtc {
  getUTCFullYear : Z;
  getUTCMonth : Z;          (* 0 .. 11 *)
  getUTCDate : Z;
  getUTCHours : Z;
  getUTCMinutes : Z;
  getUTCSeconds : Z
}.

(** The value of [JD] before the time of day is added, for the year, the
    month (1 .. 12) and the day read from the date.  The operands are
    integers, so [Math.floor(p / q)] is the quotient rounded down; for the
    years of a [Date] they stay far below 2^53, where the engine computes
    with integers exactly. *)
Definition day_number (year month day : Z) : Z :=
  let a := (14 - month) / 12 in
  let y := year + 4800 - a in
  let m := month + 12 * a - 3 in
  day + (153 * m + 2) / 5 + 365 * y + y / 4 - y / 100 + y / 400 - 32045.

(** [calculateJulianDate(date)].  The time of day is added as the engine
    adds it: the three quotients are rounded, then their sums from left to
    right, then the sum with the day number. *)
Definition calculateJulianDate (date : utc) : Q :=
  let year := getUTCFullYear date in
  let month := getUTCMonth date + 1 in
  let day := getUTCDate date in
  let hour := getUTCHours date in
  let minute := getUTCMinutes date in
  let second := getUTCSeconds date in
  let JD := inject_Z (day_number year month day) in
  Double.add JD
    (Double.add
       (Double.add (Double.div (inject_Z hour) 24)
          (Double.div (inject_Z minute) 1440))
       (Double.div (inject_Z second) 86400)).

End SunAzimuthCalculator.

(* ================================================================== *)
(** * The page script: getRandomInt, Clock, getSupportedMimeTypeOptions *)
(* ================================================================== *)

Module Script.
Import JS World.

(** [getRandomInt(min, max)], with the value that [Math.random()]
    returns, in exact arithmetic. *)
Definition getRandomInt (min max : Q) (random : Q) : Z :=
  let min := Qceiling min in
  let max := Qfloor max in
  Qfloor (random * inject_Z (max - min + 1) + inject_Z min).

(** [getRandomInt(min, max)] as the engine computes it, every operation
    rounded. *)
Definition getRandomInt_binary64 (min max : Q) (random : Q) : Z :=
  let min := inject_Z (Qceiling min) in
  let max := inject_Z (Qfloor max) in
  Qfloor
    (Double.add (Double.mul random (Double.add (Double.sub max min) 1)) min).

(** The clock: the text of its element, its three fields and the delay in
    milliseconds of the pending [setTimeout].  (The interval that calls
    [startCurrentPst], whose body is empty, is left out.)  The character
    before the first number is written in UTF-8. *)
Record clock : Type := mkClock {
  innerHTML : string;
  currentInterval : Z;
  lastMarker : value;
  previousMarker : value;
  timeout : Z
}.

(** [new Clock(clock)], for an element with the given text. *)
Definition new_Clock (text : string) : clock :=
  mkClock text 1 (VStr " - o") (VStr "") (1 * 1000).

(** [start()], with the value that [Math.random()] returns. *)
Definition start (random : Q) (c : clock) : clock :=
  let rendered :=
    "⧋ " ++ Blob.to_string (VNum (currentInterval c)) ++ "::"
    ++ Blob.to_string (lastMarker c) ++ "::"
    ++ Blob.to_string (previousMarker c) in
  let next := getRandomInt 1 60 random in
  mkClock rendered next (VNum (currentInterval c)) (lastMarker c)
    (next * 1000).

(** The types that [getSupportedMimeTypeOptions] tests, in its order. *)
Definition typesToTest : list string :=
  ["video/webm;codecs=vp9,opus";
   "video/webm;codecs=vp8,opus";
   "video/mp4;codecs=h264,aac";
   "video/webm";
   "video/mp4"].

(** [for (const typeInfo of typesToTest)] with its [return]. *)
Fixpoint first_supported (isTypeSupported : string -> bool)
  (types : list string) : option string :=
  match types with
  | [] => None
  | mimeType :: rest =>
      if isTypeSupported mimeType then Some mimeType
      else first_supported isTypeSupported rest
  end.

(** [getSupportedMimeTypeOptions()]: the [mimeType] of the object returned,
    or [null], and the line written to the console. *)
Definition getSupportedMimeTypeOptions (isTypeSupported : string -> bool)
  : option string * (level * string) :=
  match first_supported isTypeSupported typesToTest with
  | Some mimeType =>
      (Some mimeType,
       (LogLine, "Found supported specific mimeType: " ++ mimeType))
  | None =>
      (None,
       (WarnLine,
        "No specific mimeType found. Will let browser choose default."))
  end.

End Script.

(* ================================================================== *)
(** * SnowflakeRenderer *)
(* ================================================================== *)

Module SnowflakeRenderer.

(** Numbers are exact rationals here.  [a < b] and [a > b] as tests: *)
Definition lt (a b : Q) : bool := negb (Qle_bool b a).
Definition gt (a b : Q) : bool := negb (Qle_bool a b).

Inductive transform : Type :=
| Scale (s : Q)
| Translate (tx ty : Q).

(** The [div] of a flake, by the properties of its style that the code
    writes: [font-size] (also [width] and [height]) and [top] in pixels,
    [left] in percent. *)
Record element : Type := mkElement {
  style_color : string;
  style_fontSize : Q;
  style_top : Q;
  style_left : Q;
  style_opacity : Q;
  style_transform : transform
}.

Record flake : Type := mkFlake {
  flake_element : element;
  x : Q;
  y : Q;
  speed : Q;
  wind : Q;
  size : Q;
  initialOffset : Q
}.

(** The size of the iframe when the code reads it. *)
Record layout : Type := mkLayout {
  offsetWidth : Z;
  offsetHeight : Z
}.

(** The instance, followed by the parts of the window it acts on: the
    number of its iframes attached to the body, the animation frames
    requested and neither run nor cancelled, the next frame id, the number
    of calls of [Math.random] so far, and the console. *)
Record renderer : Type := mkRenderer {
  snowflakeCount : Q;
  color : string;
  iframe : bool;
  flakes : list flake;
  animationFrameId : option nat;
  isRunning : bool;
  attached : nat;
  frames : list nat;
  nextFrame : nat;
  drawn : nat;
  console : list string
}.

(** [new SnowflakeRenderer(count, color)] *)
Definition constructor (count : Q) (color : string) : renderer :=
  mkRenderer count color false [] None false 0 [] 1 0 [].

(** The size, the speed, the wind and the offset of [_createSnowflake] as
    the engine computes them from what [Math.random()] returns.  The numbers
    written 15, 22, 0.5, 0.25 and 100 are numbers of binary64; 0.1 is read
    as the nearest one. *)
Definition size_binary64 (random : Q) : Q :=
  Double.add (Double.mul random 15) 22.
Definition speed_binary64 (random : Q) : Q :=
  Double.add (Double.mul random (1 # 2)) (Double.round (1 # 10)).
Definition wind_binary64 (random : Q) : Q :=
  Double.sub (Double.mul random (1 # 2)) (1 # 4).
Definition initialOffset_binary64 (random : Q) : Q :=
  Double.mul random 100.

Section Browser.

(** [Math.random()] at its n-th call, the number that [parseFloat] reads
    back from the [left] of a style, and [Math.sin]. *)
Variable random : nat -> Q.
Variable parseFloat_left : Q -> Q.
Variable sin : Q -> Q.

(** [_createSnowflake()], from the n-th call of [Math.random] on. *)
Definition _createSnowflake (color : string) (n : nat) : flake * nat :=
  let size := (random n * 15 + 22)%Q in
  let speed := (random (n + 1)%nat * (1 # 2) + (1 # 10))%Q in
  let wind := (random (n + 2)%nat * (1 # 2) - (1 # 4))%Q in
  let flakeEl :=
    mkElement color size (- size)%Q
      (random (n + 3)%nat * 100)%Q
      (random (n + 4)%nat * (7 # 10) + (3 # 10))%Q
      (Scale (random (n + 5)%nat * (1 # 2) + (1 # 2))%Q) in
  (mkFlake flakeEl (parseFloat_left (style_left flakeEl)) (- size)%Q
     speed wind size (random (n + 6)%nat * 100)%Q,
   (n + 7)%nat).

Definition set_top (top : Q) (e : element) : element :=
  mkElement (style_color e) (style_fontSize e) top (style_left e)
    (style_opacity e) (style_transform e).

Definition set_transform (t : transform) (e : element) : element :=
  mkElement (style_color e) (style_fontSize e) (style_top e) (style_left e)
    (style_opacity e) t.

(** The loop of [_generateSnowflakes()], with the passes that are left. *)
Fixpoint generate (passes : nat) (color : string) (l : layout)
  (flakes : list flake) (n : nat) : list flake * nat :=
  match passes with
  | O => (flakes, n)
  | S rest =>
      let (flake, n1) := _createSnowflake color n in
      let y' := (random n1 * inject_Z (offsetHeight l))%Q in
      let flake' :=
        mkFlake (set_top y' (flake_element flake)) (x flake) y'
          (speed flake) (wind flake) (size flake) (initialOffset flake) in
      generate rest color l (flakes ++ [flake'])%list (S n1)
  end.

(** [for (let i = 0; i < this.snowflakeCount; i++)] runs once for every
    natural number below the count. *)
Definition passes_of (count : Q) : nat := Z.to_nat (Qceiling count).

Definition _generateSnowflakes (l : layout) (r : renderer) : renderer :=
  let (fl, n) :=
    generate (passes_of (snowflakeCount r)) (color r) l (flakes r) (drawn r) in
  mkRenderer (snowflakeCount r) (color r) (iframe r) fl (animationFrameId r)
    (isRunning r) (attached r) (frames r) (nextFrame r) n (console r).

(** [_createIframe()]: the new iframe is appended to the body. *)
Definition _createIframe (l : layout) (r : renderer) : renderer :=
  if iframe r then r
  else
    _generateSnowflakes l
      (mkRenderer (snowflakeCount r) (color r) true (flakes r)
         (animationFrameId r) (isRunning r) (S (attached r)) (frames r)
         (nextFrame r) (drawn r) (console r)).

(** [this.animationFrameId = requestAnimationFrame(this.update)] *)
Definition requestAnimationFrame (r : renderer) : renderer :=
  mkRenderer (snowflakeCount r) (color r) (iframe r) (flakes r)
    (Some (nextFrame r)) (isRunning r) (attached r)
    (frames r ++ [nextFrame r])%list (S (nextFrame r)) (drawn r) (console r).

Definition console_log (line : string) (r : renderer) : renderer :=
  mkRenderer (snowflakeCount r) (color r) (iframe r) (flakes r)
    (animationFrameId r) (isRunning r) (attached r) (frames r) (nextFrame r)
    (drawn r) (console r ++ [line])%list.

(** The body of the [forEach] in [update()]. *)
Definition move (time : Q) (l : layout) (f : flake) (n : nat) : flake * nat :=
  let windowHeight := inject_Z (offsetHeight l) in
  let windowWidth := inject_Z (offsetWidth l) in
  let y1 := (y f + speed f)%Q in
  let x1 := (x f + (wind f + sin (time + initialOffset f) * (1 # 10)))%Q in
  let '(x2, y2, n2) :=
    if gt y1 windowHeight
    then ((random n * windowWidth)%Q, (- size f)%Q, S n)
    else (x1, y1, n) in
  let '(x3, n3) :=
    if lt x2 (- size f)%Q || gt x2 windowWidth
    then ((random n2 * windowWidth)%Q, S n2)
    else (x2, n2) in
  (mkFlake (set_transform (Translate x3 y2) (flake_element f)) x3 y2
     (speed f) (wind f) (size f) (initialOffset f),
   n3).

Fixpoint move_all (time : Q) (l : layout) (fs : list flake) (n : nat)
  : list flake * nat :=
  match fs with
  | [] => ([], n)
  | f :: rest =>
      let (f', n1) := move time l f n in
      let (rest', n2) := move_all time l rest n1 in
      (f' :: rest', n2)
  end.

(** [update()], with the value of [Date.now()]. *)
Definition update (now : Z) (l : layout) (r : renderer) : renderer :=
  if negb (isRunning r) || negb (iframe r) then r
  else
    let time := (inject_Z now / 1000)%Q in
    let (fl, n) := move_all time l (flakes r) (drawn r) in
    requestAnimationFrame
      (mkRenderer (snowflakeCount r) (color r) (iframe r) fl
         (animationFrameId r) (isRunning r) (attached r) (frames r)
         (nextFrame r) n (console r)).

(** [start()] *)
Definition start (l : layout) (r : renderer) : renderer :=
  if isRunning r then r
  else
    let r1 :=
      mkRenderer (snowflakeCount r) (color r) (iframe r) (flakes r)
        (animationFrameId r) true (attached r) (frames r) (nextFrame r)
        (drawn r) (console r) in
    console_log "Snowflake animation started."
      (requestAnimationFrame (_createIframe l r1)).

(** [stop()]: [cancelAnimationFrame] takes the frame out of those
    requested; the iframe, which has a parent since [_createIframe], is
    taken out of the body. *)
Definition stop (r : renderer) : renderer :=
  if negb (isRunning r) then r
  else
    let pending :=
      match animationFrameId r with
      | Some id => filter (fun f => negb (Nat.eqb f id)) (frames r)
      | None => frames r
      end in
    console_log "Snowflake animation stopped."
      (mkRenderer (snowflakeCount r) (color r) false []
         (animationFrameId r) false
         (if iframe r then Nat.pred (attached r) else attached r)
         pending (nextFrame r) (drawn r) (console r)).

(** The browser runs the oldest requested frame. *)
Definition animation_frame (now : Z) (l : layout) (r : renderer) : renderer :=
  match frames r with
  | [] => r
  | _ :: rest =>
      update now l
        (mkRenderer (snowflakeCount r) (color r) (iframe r) (flakes r)
           (animationFrameId r) (isRunning r) (attached r) rest
           (nextFrame r) (drawn r) (console r))
  end.

(** What can happen to a renderer. *)
Inductive event : Type :=
| Start (l : layout)
| Stop
| Frame (now : Z) (l : layout).

Definition step (r : renderer) (e : event) : renderer :=
  match e with
  | Start l => start l r
  | Stop => stop r
  | Frame now l => animation_frame now l r
  end.

Definition run (events : list event) (r : renderer) : renderer :=
  fold_left step events r.

End Browser.

End SnowflakeRenderer.

(* ================================================================== *)
(** * DrawingApp *)
(* ================================================================== *)

Module DrawingApp.

(** [{ x, y }] *)
Definition position : Type := (Q * Q)%type.

(** The instance with what it has made of the page: whether [this.draw]
    listens to [pointermove] on the canvas, the pointer the canvas has
    captured, and the lines stroked on the canvas, each from a position to a
    position, in the order of the strokes. *)
Record app : Type := mkApp {
  previousPosition : position;
  listening : bool;
  captured : option Z;
  strokes : list (position * position)
}.

(** [new DrawingApp(canvas)], on a blank canvas that has a 2D context. *)
Definition constructor : app := mkApp (0, 0)%Q false None [].

(** [drawLine(from, to)] *)
Definition drawLine (from to : position) (a : app) : app :=
  mkApp (previousPosition a) (listening a) (captured a)
    (strokes a ++ [(from, to)])%list.

(** [draw(event)], with [event.offsetX] and [event.offsetY]. *)
Definition draw (offset : position) (a : app) : app :=
  let a1 := drawLine (previousPosition a) offset a in
  mkApp offset (listening a1) (captured a1) (strokes a1).

(** [startDrawing(event)]: a listener that is already there is not added a
    second time. *)
Definition startDrawing (offset : position) (pointerId : Z) (a : app) : app :=
  mkApp offset true (Some pointerId) (strokes a).

(** [stopDrawing()], with the [pointerId] of the event being handled, which
    the method reads from the global [event].  The listener is removed
    before the capture is released. *)
Definition stopDrawing (pointerId : Z) (a : app) : app :=
  mkApp (previousPosition a) false
    (match captured a with
     | Some id => if id =? pointerId then None else Some id
     | None => None
     end)
    (strokes a).

(** The pointer events that the browser dispatches to the canvas. *)
Inductive event : Type :=
| Pointerdown (offset : position) (pointerId : Z)
| Pointermove (offset : position)
| Pointerup (pointerId : Z).

Definition dispatch (a : app) (e : event) : app :=
  match e with
  | Pointerdown offset pointerId => startDrawing offset pointerId a
  | Pointermove offset => if listening a then draw offset a else a
  | Pointerup pointerId => stopDrawing pointerId a
  end.

(** The lines that join a position to those that follow it, in turn. *)
Fixpoint joined (from : position) (offsets : list position)
  : list (position * position) :=
  match offsets with
  | [] => []
  | to :: rest => (from, to) :: joined to rest
  end.

End DrawingApp.

(* ================================================================== *)
(** * The sun line: where the location comes from *)
(* ================================================================== *)

Module SunLine.
Import World.

(** [pos.coords], by latitude and longitude. *)
Definition coords : Type := (Q * Q)%type.

(** [currentLocation], with what the script has asked of the window: the
    calls of [getCurrentPosition] that are not answered yet, the intervals
    set, the calls of [drawSunLine] by their arguments, and the console. *)
Record script : Type := mkScript {
  currentLocation : option coords;
  requests : nat;
  intervals : nat;
  drawSunLine_calls : list coords;
  console : list (level * string)
}.

Section Drawing.

(** [drawSunLine] reads the page and calls a library, and may throw:
    [returns n] tells whether its call number [n] (from 0) returns. *)
Variable returns : nat -> bool.

(** [fetchLocationAndDraw()], in a browser that has [navigator.geolocation]
    or not; with the state, whether the call returns. *)
Definition fetchLocationAndDraw (geolocation : bool) (s : script)
  : script * bool :=
  match currentLocation s with
  | None =>
      if geolocation
      then (mkScript None (S (requests s)) (intervals s) (drawSunLine_calls s)
              (console s), true)
      else (mkScript None (requests s) (intervals s) (drawSunLine_calls s)
              (List.app (console s)
                 [(ErrorLine,
                   "Geolocation is not supported by this browser.")]), true)
  | Some (latitude, longitude) =>
      (mkScript (currentLocation s) (requests s) (intervals s)
         (drawSunLine_calls s ++ [(latitude, longitude)])%list (console s),
       returns (List.length (drawSunLine_calls s)))
  end.

(** [startUpdateLoop()]: the interval is set when the first call has
    returned. *)
Definition startUpdateLoop (geolocation : bool) (s : script) : script * bool :=
  let (s1, returned) := fetchLocationAndDraw geolocation s in
  if returned
  then (mkScript (currentLocation s1) (requests s1) (S (intervals s1))
          (drawSunLine_calls s1) (console s1), true)
  else (s1, false).

(** [success(pos)] *)
Definition success (geolocation : bool) (pos : coords) (s : script)
  : script * bool :=
  match currentLocation s with
  | None =>
      startUpdateLoop geolocation
        (mkScript (Some pos) (requests s) (intervals s) (drawSunLine_calls s)
           (console s))
  | Some _ => (s, true)
  end.

(** [error(err)] *)
Definition error (code : Z) (message : string) (s : script) : script :=
  mkScript (currentLocation s) (requests s) (intervals s)
    (drawSunLine_calls s)
    (List.app (console s)
       [(WarnLine,
         "ERROR(" ++ Blob.to_string (JS.VNum code) ++ "): " ++ message)]).

(** The script when it has been loaded: it has called
    [fetchLocationAndDraw()] once. *)
Definition loaded (geolocation : bool) : script :=
  fst (fetchLocationAndDraw geolocation (mkScript None 0 0 [] [])).

(** What the window does next: it answers a call of [getCurrentPosition]
    with a position or with an error, or five seconds pass and every
    interval calls [fetchLocationAndDraw].  What a callback throws ends that
    callback and nothing else. *)
Inductive event : Type :=
| Position (pos : coords)
| PositionError (code : Z) (message : string)
| FiveSeconds.

Definition step (geolocation : bool) (s : script) (e : event) : script :=
  match e with
  | Position pos =>
      match requests s with
      | O => s
      | S n =>
          fst (success geolocation pos
                 (mkScript (currentLocation s) n (intervals s)
                    (drawSunLine_calls s) (console s)))
      end
  | PositionError code message =>
      match requests s with
      | O => s
      | S n =>
          error code message
            (mkScript (currentLocation s) n (intervals s)
               (drawSunLine_calls s) (console s))
      end
  | FiveSeconds =>
      Nat.iter (intervals s)
        (fun s' => fst (fetchLocationAndDraw geolocation s')) s
  end.

(** The states in which the location is known and no call of
    [getCurrentPosition] is open. *)
Definition located (pos : coords) (s : script) : Prop :=
  currentLocation s = Some pos /\ requests s = 0%nat /\
  if returns 0
  then intervals s = 1%nat /\ exists k, drawSunLine_calls s = repeat pos (S k)
  else intervals s = 0%nat /\ drawSunLine_calls s = [pos].

End Drawing.

End SunLine.

(* ================================================================== *)
(** * The Gregorian calendar, for the statements on the Julian date *)
(* ================================================================== *)

Module Calendar.

Definition leap (year : Z) : bool :=
  (year mod 4 =? 0) && (negb (year mod 100 =? 0) || (year mod 400 =? 0)).

(** The days of a month, the months counted from 1. *)
Definition days_in_month (year month : Z) : Z :=
  if month =? 2 then (if leap year then 29 else 28)
  else if (month =? 4) || (month =? 6) || (month =? 9) || (month =? 11)
       then 30
       else 31.

(** The day after a day of the calendar. *)
Definition tomorrow (year month day : Z) : Z * Z * Z :=
  if day <? days_in_month year month then (year, month, day + 1)
  else if month <? 12 then (year, month + 1, 1)
       else (year + 1, 1, 1).

End Calendar.

(* ================================================================== *)
(** * Conditions on the snowflakes *)
(* ================================================================== *)

Module Snow.
Import SnowflakeRenderer.

(** The two states of a renderer made with [count]: running, with its
    iframe in the body, a flake for every pass of the loop and one frame
    requested, the one it remembers; or stopped, with nothing left. *)
Definition settled (count : Q) (r : renderer) : Prop :=
  snowflakeCount r = count /\
  if isRunning r
  then iframe r = true /\ attached r = 1%nat /\
       List.length (flakes r) = passes_of count /\
       exists id, animationFrameId r = Some id /\ frames r = [id]
  else iframe r = false /\ attached r = 0%nat /\ flakes r = [] /\
       frames r = [].

(** The ranges in which [_createSnowflake] draws, ends included: the sum
    of a product below 15 and of 22 is 37 when it is rounded up. *)
Definition as_created (f : flake) : Prop :=
  (22 <= size f)%Q /\ (size f <= 37)%Q /\
  ((1 # 10) <= speed f)%Q /\ (speed f <= (6 # 10))%Q /\
  (- (1 # 4) <= wind f)%Q /\ (wind f <= (1 # 4))%Q /\
  (0 <= initialOffset f)%Q /\ (initialOffset f <= 100)%Q.

(** A flake that [update] has placed in an iframe of the given size. *)
Definition on_screen (l : layout) (f : flake) : Prop :=
  (- size f <= x f)%Q /\ (x f <= inject_Z (offsetWidth l))%Q /\
  (y f <= inject_Z (offsetHeight l))%Q /\
  style_transform (flake_element f) = Translate (x f) (y f).

End Snow.

(* ================================================================== *)
(** * Conditions on the dot canvas *)
(* ================================================================== *)

Module Canvas.
Import DotCanvas.

(** A dot as [addRandomDot] makes it on a canvas of the given size. *)
Definition placed (width height dotRadius : Q) (d : dot) : Prop :=
  (0 <= x d)%Q /\ (x d <= width)%Q /\ (0 <= y d)%Q /\ (y d <= height)%Q /\
  radius d = dotRadius /\ color d = "#ffffff".

(** The delay of the pending line timer, when there is one, is from 200
    up to 1000 milliseconds. *)
Definition timer_in_range (c : canvas) : Prop :=
  match lineTimeout c with
  | Some delay => (200 <= delay)%Q /\ (delay < 1000)%Q
  | None => True
  end.

Definition keeps_size (call : callback) : bool :=
  match call with
  | SetCanvasSize _ _ => false
  | _ => true
  end.

End Canvas.

(* ================================================================== *)
(** * More sample states *)
(* ================================================================== *)

Module States.
Import JS IDB World.

(** The notes database with a note that carries a file. *)
Definition notes_with_file : world :=
  mkWorld
    [("kalvNotesDB",
      mkDb 1 [("notes",
               mkStore (Some "id") true 2
                 [(KNum 1,
                   VObj [("id", VNum 1);
                         ("file", VBlob [x01] "text/plain" None)])])])]
    [] "".

(** A browser profile in which the image database has been upgraded. *)
Definition newer_image_database : world :=
  mkWorld [("windowImage", mkDb 2 [])] [] "".

(** Databases with names that JavaScript treats in its own way: one named
    as the accessor of the prototype, one named as a method of
    [Object.prototype], and one whose name is an array index. *)
Definition odd_names : world :=
  mkWorld
    [("__proto__",
      mkDb 1 [("notes", mkStore (Some "id") true 2
                          [(KNum 1, VObj [("id", VNum 1)])])]);
     ("hasOwnProperty",
      mkDb 1 [("notes", mkStore (Some "id") true 2
                          [(KNum 1, VObj [("id", VNum 1)])])]);
     ("b", mkDb 1 [("__proto__", mkStore (Some "id") true 2
                                   [(KNum 1, VObj [("id", VNum 1)])])]);
     ("7", mkDb 1 [])]
    [] "".

(** A record that holds a BigInt. *)
Definition big_count : world :=
  mkWorld
    [("counts",
      mkDb 1 [("totals", mkStore (Some "id") true 2
                           [(KNum 1, VObj [("id", VNum 1);
                                           ("total", VBigInt 5)])])])]
    [] "".

(** A backup file for the shelf of [Samples.library]. *)
Definition one_book : text :=
  Doc (JObj [("shelf", JObj [("books", JArr [JObj [("id", JNum 1)]])])]).

(** A backup file whose only record has no [id]. *)
Definition unkeyed_note : text :=
  Doc (JObj [("pad", JObj [("notes", JArr [JObj [("text", JStr "a")]])])]).

End States.

(* ================================================================== *)
(** * How restore changes the stores *)
(* ================================================================== *)

Module Changes.
Import JS IDB World Conditions.

(** [s'] is reached from [s] by calls of [store.put] that succeed. *)
Inductive puts : objectStore -> objectStore -> Prop :=
| puts_none (s : objectStore) : puts s s
| puts_more (s s1 s2 : objectStore) (v : value) :
    put v s = Ok s1 -> puts s1 s2 -> puts s s2.

(** The object store that [_openDB] creates in an upgrade. *)
Definition created : objectStore := mkStore (Some "id") true 1 [].

(** The stores of a database before and after: each store of before is
    still there, changed by puts only; any other store has been created by
    [_openDB] and then put into. *)
Definition stores_put (before after : list (string * objectStore)) : Prop :=
  forall n,
    match assoc n before, assoc n after with
    | Some s, Some s' => puts s s'
    | None, Some s' => puts created s'
    | None, None => True
    | Some _, None => False
    end.

(** The same for the databases of the origin. *)
Definition databases_put (before after : databases) : Prop :=
  forall n,
    match assoc n before, assoc n after with
    | Some d, Some d' => stores_put (objectStores d) (objectStores d')
    | None, Some d' => stores_put [] (objectStores d')
    | None, None => True
    | Some _, None => False
    end.


End Changes.

(* ================================================================== *)
(** * Backups whose records carry their keys *)
(* ================================================================== *)

Module Keyed.
Import JS IDB World IndexedDBBackupRestore Conditions.



End Keyed.

(* ================================================================== *)
(** * Properties and records by name *)
(* ================================================================== *)

Unset Implicit Arguments.

Section AssocFacts.
Import JS.
Context {A : Type}.

Lemma assoc_set_same (k : string) (v : A) (l : list (string * A)) :
  assoc k (assoc_set k v l) = Some v.
Proof.
  induction l as [|[k' v'] l IH]; simpl.
  - rewrite String.eqb_refl. reflexivity.
  - destruct (String.eqb_spec k k') as [->|Hne]; simpl.
    + rewrite String.eqb_refl. reflexivity.
    + destruct (String.eqb_spec k k'); [contradiction|]. exact IH.
Qed.

Lemma assoc_set_other (k k' : string) (v : A) (l : list (string * A)) :
  k <> k' -> assoc k (assoc_set k' v l) = assoc k l.
Proof.
  intros Hne. induction l as [|[k1 v1] l IH]; simpl.
  - destruct (String.eqb_spec k k'); [contradiction|reflexivity].
  - destruct (String.eqb_spec k' k1) as [->|Hne1]; simpl.
    + destruct (String.eqb_spec k k1); [contradiction|reflexivity].
    + destruct (String.eqb_spec k k1); [reflexivity|exact IH].
Qed.

Lemma assoc_In (k : string) (v : A) (l : list (string * A)) :
  assoc k l = Some v -> In (k, v) l.
Proof.
  induction l as [|[k' v'] l IH]; simpl; [discriminate|].
  destruct (String.eqb_spec k k') as [->|Hne].
  - intros [= ->]. left. reflexivity.
  - intros H. right. exact (IH H).
Qed.

Lemma assoc_None (k : string) (l : list (string * A)) :
  assoc k l = None <-> ~ In k (keys l).
Proof.
  induction l as [|[k' v'] l IH]; simpl.
  - tauto.
  - destruct (String.eqb_spec k k') as [->|Hne].
    + split; [discriminate|]. intros H. exfalso. apply H. left. reflexivity.
    + rewrite IH. split.
      * intros H [E|E]; [congruence|contradiction].
      * intros H E. apply H. right. exact E.
Qed.

End AssocFacts.

(* ================================================================== *)
(** * The order of the properties of an object *)
(* ================================================================== *)

Section PropertyOrder.
Import JS.

Lemma precedes_irrefl (k : string) : precedes k k = false.
Proof.
  unfold precedes. destruct (array_index k) as [i|]; [|reflexivity].
  apply N.ltb_irrefl.
Qed.

Lemma precedes_asym (a b : string) :
  precedes a b = true -> precedes b a = false.
Proof.
  unfold precedes.
  destruct (array_index a) as [i|], (array_index b) as [j|];
    try discriminate; try reflexivity.
  intros H. apply N.ltb_lt in H. apply N.ltb_ge. lia.
Qed.

Lemma precedes_trans (a b c : string) :
  precedes a b = true -> precedes b c = true -> precedes a c = true.
Proof.
  unfold precedes.
  destruct (array_index a) as [i|], (array_index b) as [j|],
    (array_index c) as [k|]; try discriminate; try reflexivity.
  intros H1 H2. apply N.ltb_lt in H1, H2. apply N.ltb_lt. lia.
Qed.

Context {A : Type}.

Lemma keys_assoc_set_present (k : string) (v : A) (l : list (string * A)) :
  assoc k l <> None -> keys (assoc_set k v l) = keys l.
Proof.
  unfold keys. induction l as [|[k' v'] l IH]; cbn [assoc assoc_set map fst].
  - intros H. contradiction.
  - destruct (String.eqb_spec k k') as [->|Hne]; [reflexivity|].
    intros H. cbn [map fst]. rewrite (IH H). reflexivity.
Qed.

Lemma assoc_insert_same (k : string) (v : A) (l : list (string * A)) :
  assoc k l = None -> assoc k (insert_property k v l) = Some v.
Proof.
  induction l as [|[k' v'] l IH]; cbn [assoc insert_property].
  - intros _. rewrite String.eqb_refl. reflexivity.
  - destruct (String.eqb_spec k k') as [->|Hne]; [discriminate|].
    intros H. destruct (precedes k k'); cbn [assoc].
    + rewrite String.eqb_refl. reflexivity.
    + destruct (String.eqb_spec k k'); [contradiction|]. exact (IH H).
Qed.

Lemma assoc_insert_other (k k' : string) (v : A) (l : list (string * A)) :
  k <> k' -> assoc k (insert_property k' v l) = assoc k l.
Proof.
  intros Hne. induction l as [|[k1 v1] l IH]; cbn [assoc insert_property].
  - destruct (String.eqb_spec k k'); [contradiction|reflexivity].
  - destruct (precedes k' k1); cbn [assoc].
    + destruct (String.eqb_spec k k'); [contradiction|reflexivity].
    + destruct (String.eqb k k1); [reflexivity|exact IH].
Qed.

Lemma keys_insert (k n : string) (v : A) (l : list (string * A)) :
  In n (keys (insert_property k v l)) <-> n = k \/ In n (keys l).
Proof.
  unfold keys. induction l as [|[k' v'] l IH]; cbn [insert_property map fst In].
  - split; [intros [H|[]]; left; congruence|intros [H|[]]; left; congruence].
  - destruct (precedes k k'); cbn [map fst In].
    + split; [intros [H|H]; [left; congruence|right; exact H]|].
      intros [H|H]; [left; congruence|right; exact H].
    + rewrite IH. split.
      * intros [H|[H|H]];
          [right; left; exact H|left; exact H|right; right; exact H].
      * intros [H|[H|H]];
          [right; left; exact H|left; exact H|right; right; exact H].
Qed.

Lemma assoc_present (k : string) (l : list (string * A)) :
  assoc k l <> None <-> In k (keys l).
Proof.
  pose proof (assoc_None k l) as H. destruct (assoc k l) as [x|].
  - split; [|discriminate]. intros _.
    destruct (in_dec string_dec k (keys l)) as [Hin|Hnot]; [exact Hin|].
    apply (proj2 H) in Hnot. discriminate.
  - split; [contradiction|]. intros Hin Hn. exact (proj1 H eq_refl Hin).
Qed.

Lemma assoc_define_same (k : string) (v : A) (l : list (string * A)) :
  assoc k (define k v l) = Some v.
Proof.
  unfold define. destruct (assoc k l) eqn:E.
  - apply assoc_set_same.
  - apply assoc_insert_same. exact E.
Qed.

Lemma assoc_define_other (k k' : string) (v : A) (l : list (string * A)) :
  k <> k' -> assoc k (define k' v l) = assoc k l.
Proof.
  intros Hne. unfold define. destruct (assoc k' l).
  - apply assoc_set_other. exact Hne.
  - apply assoc_insert_other. exact Hne.
Qed.

Lemma keys_define (k n : string) (v : A) (l : list (string * A)) :
  In n (keys (define k v l)) <-> n = k \/ In n (keys l).
Proof.
  unfold define. destruct (assoc k l) eqn:E.
  - rewrite keys_assoc_set_present by congruence.
    split; [intros H; right; exact H|].
    intros [->|H]; [|exact H]. apply assoc_present. congruence.
  - apply keys_insert.
Qed.

Lemma forallb_insert (P : A -> bool) (k : string) (v : A)
  (l : list (string * A)) :
  forallb (fun kv => P (snd kv)) l = true -> P v = true ->
  forallb (fun kv => P (snd kv)) (insert_property k v l) = true.
Proof.
  intros Hl Hv.
  induction l as [|[k' v'] l IH]; cbn [insert_property forallb snd].
  - rewrite Hv. reflexivity.
  - cbn [forallb snd] in Hl. apply andb_prop in Hl. destruct Hl as [H1 H2].
    destruct (precedes k k'); cbn [forallb snd].
    + rewrite Hv, H1. exact H2.
    + rewrite H1. exact (IH H2).
Qed.

Lemma forallb_set (P : A -> bool) (k : string) (v : A)
  (l : list (string * A)) :
  forallb (fun kv => P (snd kv)) l = true -> P v = true ->
  forallb (fun kv => P (snd kv)) (assoc_set k v l) = true.
Proof.
  intros Hl Hv. induction l as [|[k' v'] l IH]; cbn [assoc_set forallb snd].
  - rewrite Hv. reflexivity.
  - cbn [forallb snd] in Hl. apply andb_prop in Hl. destruct Hl as [H1 H2].
    destruct (String.eqb k k'); cbn [forallb snd].
    + rewrite Hv. exact H2.
    + rewrite H1. exact (IH H2).
Qed.

Lemma forallb_define (P : A -> bool) (k : string) (v : A)
  (l : list (string * A)) :
  forallb (fun kv => P (snd kv)) l = true -> P v = true ->
  forallb (fun kv => P (snd kv)) (define k v l) = true.
Proof.
  intros Hl Hv. unfold define. destruct (assoc k l).
  - apply forallb_set; assumption.
  - apply forallb_insert; assumption.
Qed.

Lemma order_insert (k : string) (v : A) (l : list (string * A)) :
  assoc k l = None ->
  enumeration_order (keys l) = true ->
  enumeration_order (keys (insert_property k v l)) = true /\
  forall x, forallb (after x) (keys l) = true -> x <> k ->
            precedes k x = false ->
            forallb (after x) (keys (insert_property k v l)) = true.
Proof.
  unfold keys.
  induction l as [|[k' v'] l IH];
    cbn [assoc insert_property map fst enumeration_order forallb].
  - intros _ _. split; [reflexivity|].
    intros x _ Hx Hp. unfold after. rewrite Hp.
    destruct (String.eqb_spec x k); [contradiction|reflexivity].
  - destruct (String.eqb_spec k k') as [->|Hne]; [discriminate|].
    intros Hk Ho. apply andb_prop in Ho. destruct Ho as [Hall Ho].
    destruct (precedes k k') eqn:Ep;
      cbn [map fst enumeration_order forallb].
    + split.
      * rewrite Hall, Ho.
        rewrite !andb_true_r.
        assert (H1 : after k k' = true).
        { unfold after. rewrite (precedes_asym _ _ Ep).
          destruct (String.eqb_spec k k'); [contradiction|reflexivity]. }
        rewrite H1. cbn [andb].
        apply forallb_forall. intros y Hy.
        rewrite forallb_forall in Hall. specialize (Hall y Hy).
        unfold after in *. apply andb_prop in Hall. destruct Hall as [Hn Hp].
        assert (Hyk : y <> k).
        { intros ->. apply assoc_None in Hk. apply Hk. exact Hy. }
        destruct (String.eqb_spec k y) as [E|_]; [congruence|]. cbn [negb andb].
        destruct (precedes y k) eqn:Eyk; [|reflexivity].
        rewrite (precedes_trans _ _ _ Eyk Ep) in Hp. discriminate.
      * intros x Hx Hxk Hp. apply andb_prop in Hx. destruct Hx as [Hx1 Hx2].
        rewrite Hx1, Hx2. unfold after at 1. rewrite Hp.
        destruct (String.eqb_spec x k); [contradiction|reflexivity].
    + destruct (IH Hk Ho) as [IH1 IH2]. split.
      * rewrite IH1, andb_true_r.
        apply IH2; [exact Hall|congruence|exact Ep].
      * intros x Hx Hxk Hp. apply andb_prop in Hx. destruct Hx as [Hx1 Hx2].
        rewrite Hx1. cbn [andb]. apply IH2; assumption.
Qed.

Lemma order_define (k : string) (v : A) (l : list (string * A)) :
  enumeration_order (keys l) = true ->
  enumeration_order (keys (define k v l)) = true.
Proof.
  intros H. unfold define. destruct (assoc k l) eqn:E.
  - rewrite keys_assoc_set_present by congruence. exact H.
  - exact (proj1 (order_insert k v l E H)).
Qed.

Lemma order_NoDup (ks : list string) :
  enumeration_order ks = true -> NoDup ks.
Proof.
  induction ks as [|k r IH]; cbn [enumeration_order]; [constructor|].
  intros H. apply andb_prop in H. destruct H as [Hall Ho].
  constructor; [|exact (IH Ho)].
  intros Hin. rewrite forallb_forall in Hall. specialize (Hall k Hin).
  unfold after in Hall. rewrite String.eqb_refl in Hall. discriminate.
Qed.

(** A new name that nothing has to follow goes to the end. *)
Lemma insert_last (k : string) (v : A) (l : list (string * A)) :
  forallb (fun x => negb (precedes k x)) (keys l) = true ->
  insert_property k v l = (l ++ [(k, v)])%list.
Proof.
  unfold keys. induction l as [|[k' v'] l IH];
    cbn [map fst forallb insert_property app]; [reflexivity|].
  intros H. apply andb_prop in H. destruct H as [H1 H2].
  destruct (precedes k k'); [discriminate|]. rewrite (IH H2). reflexivity.
Qed.

Lemma order_app_last (acc : list string) (k : string) (r : list string) :
  enumeration_order (acc ++ k :: r) = true ->
  ~ In k acc /\ forallb (fun x => negb (precedes k x)) acc = true.
Proof.
  induction acc as [|a acc IH]; cbn [app enumeration_order forallb In].
  - intros _. split; [tauto|reflexivity].
  - intros H. apply andb_prop in H. destruct H as [Hall Ho].
    destruct (IH Ho) as [IH1 IH2].
    rewrite forallb_app in Hall. apply andb_prop in Hall.
    destruct Hall as [_ Hk]. cbn [forallb] in Hk.
    apply andb_prop in Hk. destruct Hk as [Hk _].
    unfold after in Hk. apply andb_prop in Hk. destruct Hk as [Hne Hp].
    split.
    + intros [->|Hin]; [|contradiction].
      rewrite String.eqb_refl in Hne. discriminate.
    + rewrite Hp. exact IH2.
Qed.

End PropertyOrder.

Section ObjectOf.
Import JS.

Lemma object_of_from (l : list (string * value)) :
  forall acc,
  enumeration_order (keys (acc ++ l)) = true ->
  fold_left (fun o kv => define (fst kv) (snd kv) o) l acc = (acc ++ l)%list.
Proof.
  induction l as [|[k v] l IH]; intros acc H; cbn [fold_left fst snd].
  - rewrite app_nil_r. reflexivity.
  - unfold keys in H. rewrite map_app in H. cbn [map fst] in H.
    destruct (order_app_last _ _ _ H) as [Hnot Hlast].
    assert (E : define k v acc = (acc ++ [(k, v)])%list).
    { unfold define.
      rewrite (proj2 (assoc_None k acc) Hnot).
      apply insert_last. exact Hlast. }
    rewrite E, IH.
    + rewrite <- app_assoc. reflexivity.
    + unfold keys. rewrite <- app_assoc, map_app. exact H.
Qed.

(** An object whose names are in the order of enumeration is the object
    that [JSON.parse] builds from them. *)
Lemma object_of_ordered (l : list (string * value)) :
  enumeration_order (keys l) = true -> object_of l = l.
Proof. intros H. exact (object_of_from l [] H). Qed.

Lemma assoc_assign_same (k : string) (v : value) (l : list (string * value)) :
  k <> "__proto__" -> assoc k (assign k v l) = Some v.
Proof.
  intros H. unfold assign. destruct (String.eqb_spec k "__proto__");
    [contradiction|]. apply assoc_define_same.
Qed.

Lemma assoc_assign_other (k k' : string) (v : value)
  (l : list (string * value)) :
  k <> k' -> assoc k (assign k' v l) = assoc k l.
Proof.
  intros H. unfold assign. destruct (String.eqb k' "__proto__");
    [reflexivity|]. apply assoc_define_other. exact H.
Qed.

Lemma assoc_assign_proto (k : string) (v : value) (l : list (string * value)) :
  assoc "__proto__" (assign k v l) = assoc "__proto__" l.
Proof.
  unfold assign. destruct (String.eqb_spec k "__proto__") as [->|Hne];
    [reflexivity|]. apply assoc_define_other. congruence.
Qed.

Lemma keys_assign (k n : string) (v : value) (l : list (string * value)) :
  In n (keys (assign k v l)) -> n = k \/ In n (keys l).
Proof.
  unfold assign. destruct (String.eqb k "__proto__").
  - intros H. right. exact H.
  - apply keys_define.
Qed.

Lemma forallb_assign (P : value -> bool) (k : string) (v : value)
  (l : list (string * value)) :
  forallb (fun kv => P (snd kv)) l = true -> P v = true ->
  forallb (fun kv => P (snd kv)) (assign k v l) = true.
Proof.
  intros Hl Hv. unfold assign. destruct (String.eqb k "__proto__");
    [exact Hl|]. apply forallb_define; assumption.
Qed.

Lemma order_assign (k : string) (v : value) (l : list (string * value)) :
  enumeration_order (keys l) = true ->
  enumeration_order (keys (assign k v l)) = true.
Proof.
  intros H. unfold assign. destruct (String.eqb k "__proto__");
    [exact H|]. apply order_define. exact H.
Qed.

End ObjectOf.

(* ================================================================== *)
(** * DotCanvas: the retry loop of addRandomLine *)
(* ================================================================== *)

Section DotCanvasFacts.
Import DotCanvas Conditions.






Lemma retry_InLoop (n : nat) (i1 : Z) (rs : list Q) : forall i2,
  retry n i1 i2 rs = InLoop ->
  i2 = i1 /\ Forall (fun r => random_index n r = i1) rs.
Proof.
  induction rs as [|r rs IH]; intros i2; simpl.
  - destruct (Z.eqb_spec i1 i2); [intros _; split; [congruence|constructor] | discriminate].
  - destruct (Z.eqb_spec i1 i2); [|discriminate].
    intros H. apply IH in H. destruct H as [H1 H2]. split; [congruence|].
    constructor; assumption.
Qed.













End DotCanvasFacts.

(* ================================================================== *)
(** * The image store *)
(* ================================================================== *)

Section ImageStore.
Import JS IDB World DroppableImageTarget.

Lemma key_for_keeps_id (fs : list (string * value)) (s : objectStore)
  (k : key) (v' : value) (g : Z) (i : value) :
  assoc "id" fs = Some i ->
  key_for (VObj fs) s = Some (k, v', g) ->
  get v' "id" = i.
Proof.
  intros Hid. unfold key_for.
  destruct (keyPath s) as [kp|].
  - destruct (assoc kp fs) as [kv|] eqn:Ekp.
    + destruct (valid_key kv); [|discriminate].
      intros [= <- <- <-]. unfold get. simpl. rewrite Hid. reflexivity.
    + destruct (autoIncrement s); [|discriminate].
      intros [= <- <- <-]. unfold get. simpl.
      rewrite assoc_define_other; [rewrite Hid; reflexivity|].
      intros <-. congruence.
  - destruct (autoIncrement s); [|discriminate].
    intros [= <- <- <-]. unfold get. simpl. rewrite Hid. reflexivity.
Qed.

(** C9.  A [storeImage] that stores its image leaves exactly one record in
    the [images] store of [windowImage], and the [id] of that record is
    [current-image], whatever the store held before; a drop that is empty
    or whose first file is not an image changes nothing. *)
Theorem storeImage_keeps_one_image (f : file) (now : string) (t t' : target)
  (w w' : world) :
  storeImage f now t w = (true, t', w') ->
  (exists d store k r,
     assoc dbName (indexedDB w') = Some d /\
     assoc "images" (objectStores d) = Some store /\
     records store = [(k, r)] /\
     get r "id" = VStr "current-image") /\
  (forall files,
     files = [] \/ (exists g rest, files = g :: rest /\ is_image g = false) ->
     drop files now t w = (t, w)).
Proof.
  intros H. split.
  - unfold storeImage in H.
    destruct (db t); simpl in H; [|discriminate].
    destruct (assoc dbName (indexedDB w)) as [d|]; [|discriminate].
    destruct (assoc "images" (objectStores d)) as [store|]; [|discriminate].
    unfold add in H.
    match type of H with
    | context [key_for ?o ?s] => destruct (key_for o s) as [[[k v'] g]|] eqn:Ek
    end.
    2:{ discriminate. }
    simpl in H.
    injection H as _ <-.
    exists (set_store "images" (with_records (clear store) g [(k, v')]) d),
      (with_records (clear store) g [(k, v')]), k, v'.
    simpl. repeat split.
    + unfold set_db. simpl. apply assoc_set_same.
    + apply assoc_set_same.
    + eapply key_for_keeps_id; [|exact Ek]. reflexivity.
  - intros files [->|(g & rest & -> & Hg)]; simpl; [reflexivity|].
    rewrite Hg. reflexivity.
Qed.

Lemma storeImage_keeps_one_image_witness :
  exists d store k r,
    assoc dbName (indexedDB (snd Samples.dropped)) = Some d /\
    assoc "images" (objectStores d) = Some store /\
    records store = [(k, r)] /\
    get r "id" = VStr "current-image".
Proof.
  exact (proj1 (@storeImage_keeps_one_image Samples.picture Samples.noon
                  (fst Samples.opened) (fst Samples.dropped)
                  (snd Samples.opened) (snd Samples.dropped) eq_refl)).
Defined.

(** With the store that [initDatabase] creates, [storeImage] does store. *)
Lemma storeImage_stores (f : file) (now : string) (t : target) (w : world)
  (d : database) (store : objectStore) :
  db t = true ->
  assoc dbName (indexedDB w) = Some d ->
  assoc "images" (objectStores d) = Some store ->
  keyPath store = Some "id" ->
  exists t' w', storeImage f now t w = (true, t', w').
Proof.
  intros Hdb Hd Hs Hkp. unfold storeImage. rewrite Hdb, Hd, Hs. simpl.
  unfold add, key_for. simpl. rewrite Hkp. simpl.
  eexists _, _. reflexivity.
Qed.

End ImageStore.

(* ================================================================== *)
(** * Records and stores *)
(* ================================================================== *)

Section RecordFacts.
Import JS IDB.

Lemma key_compare_eq (a b : key) : key_compare a b = Eq <-> a = b.
Proof.
  destruct a as [x|x], b as [y|y]; simpl; try (split; discriminate).
  - split; intros H.
    + apply Z.compare_eq_iff in H. congruence.
    + injection H as ->. apply Z.compare_refl.
  - split; intros H.
    + apply String.compare_eq_iff in H. congruence.
    + injection H as ->. pose proof (String.compare_antisym y y) as A.
      destruct (String.compare y y); simpl in A; congruence.
Qed.

Lemma key_eqb_eq (a b : key) : key_eqb a b = true <-> a = b.
Proof.
  unfold key_eqb. rewrite <- key_compare_eq.
  destruct (key_compare a b); split; congruence.
Qed.

Lemma key_eqb_refl (a : key) : key_eqb a a = true.
Proof. apply key_eqb_eq. reflexivity. Qed.

Lemma key_eqb_neq (a b : key) : a <> b -> key_eqb a b = false.
Proof.
  intros H. destruct (key_eqb a b) eqn:E; [|reflexivity].
  apply key_eqb_eq in E. contradiction.
Qed.

Lemma lookup_insert_same (k : key) (v : value) (l : list (key * value)) :
  lookup_record k (insert_record k v l) = Some v.
Proof.
  induction l as [|[k' v'] l IH]; simpl.
  - rewrite key_eqb_refl. reflexivity.
  - destruct (key_compare k k') eqn:E; simpl.
    + rewrite key_eqb_refl. reflexivity.
    + rewrite key_eqb_refl. reflexivity.
    + unfold key_eqb at 1. rewrite E. exact IH.
Qed.

Lemma lookup_insert_other (k k2 : key) (v : value) (l : list (key * value)) :
  k2 <> k -> lookup_record k2 (insert_record k v l) = lookup_record k2 l.
Proof.
  intros Hne. induction l as [|[k' v'] l IH]; simpl.
  - rewrite (key_eqb_neq _ _ Hne). reflexivity.
  - destruct (key_compare k k') eqn:E; simpl.
    + apply key_compare_eq in E. subst k'.
      rewrite (key_eqb_neq _ _ Hne). reflexivity.
    + rewrite (key_eqb_neq _ _ Hne). reflexivity.
    + rewrite IH. reflexivity.
Qed.

Lemma valid_key_inj (a b : value) (k : key) :
  valid_key a = Some k -> valid_key b = Some k -> a = b.
Proof.
  destruct a, b; simpl; try discriminate; congruence.
Qed.

End RecordFacts.

(* ================================================================== *)
(** * restore: which databases it touches *)
(* ================================================================== *)

Section RestoreFrame.
Import JS IDB World IndexedDBBackupRestore Conditions.

Lemma openDB_frame (dbName name : string) (ver : option Z)
  (stores : list string) (w w1 : world) (r : result database) :
  _openDB dbName ver stores w = (r, w1) ->
  name <> dbName ->
  assoc name (indexedDB w1) = assoc name (indexedDB w).
Proof.
  unfold _openDB. intros H Hne.
  destruct (IDB.open dbName ver (indexedDB w)) as [[db|db]|e].
  - injection H as _ <-. reflexivity.
  - destruct (ensure_stores dbName stores db) as [db' ls].
    injection H as _ <-. simpl. apply assoc_set_other. exact Hne.
  - injection H as _ <-. reflexivity.
Qed.

Lemma restore_db_frame (parsedData : value) (dbName name : string)
  (w w' : world) (r : option thrown) :
  restore_db parsedData dbName w = (r, w') ->
  name <> dbName ->
  assoc name (indexedDB w') = assoc name (indexedDB w).
Proof.
  unfold restore_db. intros H Hne.
  destruct (Object_keys (get parsedData dbName)) as [names|].
  2:{ injection H as _ <-. reflexivity. }
  destruct (_openDB dbName (Some 1) names w) as [[db|e] w1] eqn:Eo.
  - pose proof (openDB_frame _ _ _ _ _ _ _ Eo Hne) as F1.
    destruct (restore_stores dbName (get parsedData dbName) names db)
      as [[rr db'] ls].
    destruct rr as [u|e]; injection H as _ <-; simpl;
      rewrite assoc_set_other by exact Hne; exact F1.
  - pose proof (openDB_frame _ _ _ _ _ _ _ Eo Hne) as F1.
    injection H as _ <-. simpl. exact F1.
Qed.

Lemma restore_dbs_frame (parsedData : value) (name : string)
  (dbNames : list string) : forall (w w' : world) (r : outcome unit),
  restore_dbs parsedData dbNames w = (r, w') ->
  ~ In name dbNames ->
  assoc name (indexedDB w') = assoc name (indexedDB w).
Proof.
  induction dbNames as [|dbName rest IH]; intros w w' r H Hnot;
    cbn [restore_dbs] in H.
  - injection H as _ <-. reflexivity.
  - assert (Hne : name <> dbName) by (intros ->; apply Hnot; left; reflexivity).
    assert (Hrest : ~ In name rest) by (intros Hin; apply Hnot; right; exact Hin).
    destruct (hasOwnProperty parsedData dbName) as [[|]|e].
    + destruct (restore_db parsedData dbName w) as [[e|] w1] eqn:Ed.
      * injection H as _ <-. exact (restore_db_frame _ _ _ _ _ _ Ed Hne).
      * rewrite (IH _ _ _ H Hrest).
        exact (restore_db_frame _ _ _ _ _ _ Ed Hne).
    + exact (IH _ _ _ H Hrest).
    + injection H as _ <-. reflexivity.
Qed.

End RestoreFrame.

(* ================================================================== *)
(** * The invariant of object stores *)
(* ================================================================== *)

Section StoreInvariant.
Import JS IDB World Conditions.

Lemma string_lt_trans (a b c : string) :
  String.compare a b = Lt -> String.compare b c = Lt ->
  String.compare a c = Lt.
Proof.
  intros H1 H2.
  apply String_as_OT.cmp_lt in H1. apply String_as_OT.cmp_lt in H2.
  apply String_as_OT.cmp_lt.
  exact (String_as_OT.lt_trans _ _ _ H1 H2).
Qed.

Lemma key_lt_trans (a b c : key) :
  key_compare a b = Lt -> key_compare b c = Lt -> key_compare a c = Lt.
Proof.
  destruct a as [x|x], b as [y|y], c as [z|z]; cbn [key_compare];
    try discriminate; try reflexivity.
  - intros H1 H2.
    apply (proj1 (Z.compare_lt_iff x y)) in H1.
    apply (proj1 (Z.compare_lt_iff y z)) in H2.
    apply (proj2 (Z.compare_lt_iff x z)). lia.
  - apply string_lt_trans.
Qed.

Lemma key_compare_flip (a b : key) :
  key_compare a b = Gt -> key_compare b a = Lt.
Proof.
  destruct a as [x|x], b as [y|y]; cbn [key_compare];
    try discriminate; try reflexivity.
  - intros H. apply (proj1 (Z.compare_gt_iff x y)) in H.
    apply (proj2 (Z.compare_lt_iff y x)). exact H.
  - intros H. rewrite String.compare_antisym, H. reflexivity.
Qed.

Lemma insert_record_keys (k : key) (v : value) (x : key * value) :
  forall l,
  In x (insert_record k v l) -> x = (k, v) \/ In x l.
Proof.
  induction l as [|[k' v'] l IH]; cbn [insert_record].
  - intros [H|[]]. left. congruence.
  - destruct (key_compare k k').
    + intros [H|H]; [left; congruence|right; right; exact H].
    + intros [H|H]; [left; congruence|right; exact H].
    + intros [H|H]; [right; left; exact H|].
      destruct (IH H) as [E|E]; [left; exact E|right; right; exact E].
Qed.

Lemma insert_record_sorted (k : key) (v : value) :
  forall l,
  StronglySorted key_lt l -> StronglySorted key_lt (insert_record k v l).
Proof.
  induction l as [|[k' v'] l IH]; intros H; cbn [insert_record].
  - constructor; constructor.
  - inversion H as [|? ? Hs Hall]; subst.
    destruct (key_compare k k') eqn:E.
    + apply key_compare_eq in E. subst k'. constructor; assumption.
    + constructor; [exact H|]. constructor; [exact E|].
      eapply Forall_impl; [|exact Hall]. intros [k2 v2] H2.
      unfold key_lt in *. cbn [fst] in *.
      exact (key_lt_trans _ _ _ E H2).
    + constructor; [exact (IH Hs)|].
      apply Forall_forall. intros x Hx.
      destruct (insert_record_keys _ _ _ _ Hx) as [->|Hin].
      * unfold key_lt. cbn [fst]. apply key_compare_flip. exact E.
      * rewrite Forall_forall in Hall. exact (Hall _ Hin).
Qed.

Lemma key_for_coherent (v v' : value) (s : objectStore) (k : key) (g : Z)
  (kp : string) :
  key_for v s = Some (k, v', g) -> keyPath s = Some kp ->
  key_of kp v' = Some k.
Proof.
  unfold key_for. intros H Hkp. rewrite Hkp in H.
  destruct v; try discriminate.
  destruct (assoc kp fields) as [kv|] eqn:E.
  - destruct (valid_key kv) eqn:Ev; [|discriminate].
    injection H as <- <- _. cbn [key_of]. rewrite E. exact Ev.
  - destruct (autoIncrement s); [|discriminate].
    injection H as <- <- _. cbn [key_of]. rewrite assoc_define_same.
    reflexivity.
Qed.

Lemma insert_coherent (s : objectStore) (v v' : value) (k : key) (g : Z) :
  coherent s -> key_for v s = Some (k, v', g) ->
  coherent (with_records s g (insert_record k v' (records s))).
Proof.
  intros [Hs Hk] Hf. split; cbn [with_records records keyPath].
  - apply insert_record_sorted. exact Hs.
  - intros kp Hkp. apply Forall_forall. intros x Hx.
    destruct (insert_record_keys _ _ _ _ Hx) as [->|Hin].
    + cbn [fst snd]. exact (key_for_coherent _ _ _ _ _ _ Hf Hkp).
    + specialize (Hk kp Hkp). rewrite Forall_forall in Hk. exact (Hk _ Hin).
Qed.

(** [put], [add] and [clear] keep a store coherent, and a new store is
    coherent. *)
Lemma put_coherent (v : value) (s s' : objectStore) :
  coherent s -> put v s = Ok s' -> coherent s'.
Proof.
  unfold put. intros Hc H.
  destruct (key_for v s) as [[[k v'] g]|] eqn:E; [|discriminate].
  injection H as <-. exact (insert_coherent _ _ _ _ _ Hc E).
Qed.




Lemma coherent_NoDup (s : objectStore) :
  coherent s -> NoDup (map fst (records s)).
Proof.
  intros [Hs _]. induction Hs as [|[k v] l Hs IH Hall]; [constructor|].
  cbn [map fst]. constructor; [|exact IH].
  intros Hin. apply in_map_iff in Hin. destruct Hin as ([k' v'] & E & Hin).
  cbn [fst] in E. subst k'.
  rewrite Forall_forall in Hall. specialize (Hall _ Hin).
  unfold key_lt in Hall. cbn [fst] in Hall.
  assert (Hrefl : key_compare k k = Eq) by (apply key_compare_eq; reflexivity).
  congruence.
Qed.

(** The item loop of [restore] keeps a store coherent. *)
Lemma put_items_coherent (dbName storeName : string) :
  forall (items : list value) (s s' : objectStore) r ls,
  coherent s ->
  IndexedDBBackupRestore.put_items dbName storeName items s = (r, s', ls) ->
  coherent s'.
Proof.
  induction items as [|item rest IH]; intros s s' r ls Hc H;
    cbn [IndexedDBBackupRestore.put_items] in H.
  - injection H as _ <- _. exact Hc.
  - destruct (IndexedDBBackupRestore.restore_item item) as [item' ls0].
    destruct (put item' s) as [s1|e] eqn:Ep.
    + destruct (IndexedDBBackupRestore.put_items dbName storeName rest s1)
        as [[r2 s2] ls2] eqn:E.
      injection H as _ <- _.
      exact (IH _ _ _ _ (put_coherent _ _ _ Hc Ep) E).
    + injection H as _ <- _. exact Hc.
Qed.

End StoreInvariant.

(* ================================================================== *)
(** * restore: what it writes *)
(* ================================================================== *)

Section RestoreWrites.
Import JS IDB World IndexedDBBackupRestore Conditions.

Lemma restore_field_key (key : string) (v : value) (k : IDB.key) :
  valid_key v = Some k -> restore_field key v = (v, []).
Proof.
  destruct v; simpl; try discriminate; intros _;
    unfold restore_field, marked; simpl.
  - rewrite andb_false_r. reflexivity.
  - rewrite andb_false_r. reflexivity.
Qed.

Lemma restore_fields_assoc (kp : string) (v : value) (k : IDB.key) :
  forall fs,
  assoc kp fs = Some v -> valid_key v = Some k ->
  assoc kp (fst (restore_fields fs)) = Some v.
Proof.
  induction fs as [|[k' v'] fs IH]; simpl; [discriminate|].
  intros H Hv.
  destruct (restore_field k' v') as [v2 ls] eqn:E1.
  destruct (restore_fields fs) as [fs2 ls2] eqn:E2. simpl.
  destruct (String.eqb kp k').
  - injection H as ->. rewrite (restore_field_key _ _ _ Hv) in E1.
    congruence.
  - apply IH; assumption.
Qed.

Lemma key_of_restore_item (kp : string) (item : value) (k : IDB.key) :
  key_of kp item = Some k -> key_of kp (fst (restore_item item)) = Some k.
Proof.
  destruct item; simpl; try discriminate.
  destruct (assoc kp fields) as [kv|] eqn:E; [|discriminate].
  intros Hk.
  pose proof (restore_fields_assoc kp kv k fields E Hk) as H.
  destruct (restore_fields fields) as [fs' ls]. simpl in *.
  rewrite H. exact Hk.
Qed.

Lemma put_keyed (kp : string) (v : value) (k : IDB.key) (s : objectStore) :
  keyPath s = Some kp -> key_of kp v = Some k ->
  exists g, put v s = Ok (with_records s g (insert_record k v (records s))).
Proof.
  intros Hkp Hk. unfold put, key_for. rewrite Hkp.
  destruct v; simpl in Hk; try discriminate.
  destruct (assoc kp fields); [|discriminate]. rewrite Hk.
  eexists. reflexivity.
Qed.

Lemma put_items_installs (dbName storeName kp : string) :
  forall (items : list value) (s s' : objectStore) ls,
  put_items dbName storeName items s = (Ok tt, s', ls) ->
  keyPath s = Some kp ->
  keyed kp items ->
  keyPath s' = Some kp /\
  (forall item k, In item items -> key_of kp item = Some k ->
     lookup_record k (records s') = Some (fst (restore_item item))) /\
  (forall k, ~ In (Some k) (map (key_of kp) items) ->
     lookup_record k (records s') = lookup_record k (records s)).
Proof.
  induction items as [|item rest IH]; intros s s' ls H Hkp [Hall Hnd];
    cbn [put_items] in H.
  - injection H as <- _. split; [exact Hkp|]. split.
    + intros item k [].
    + reflexivity.
  - inversion Hall as [|? ? Hitem Hrest]; subst.
    inversion Hnd as [|? ? Hfresh Hnd']; subst.
    destruct (key_of kp item) as [k0|] eqn:Ek0; [|contradiction].
    pose proof (key_of_restore_item kp item k0 Ek0) as Ek0'.
    destruct (restore_item item) as [item' ls0] eqn:Eit. simpl in Ek0'.
    destruct (put_keyed kp item' k0 s Hkp Ek0') as [g Hput].
    rewrite Hput in H.
    destruct (put_items dbName storeName rest
                (with_records s g (insert_record k0 item' (records s))))
      as [[r s2] ls2] eqn:Erest.
    injection H as -> -> _.
    destruct (IH _ _ _ Erest Hkp (conj Hrest Hnd')) as (K1 & K2 & K3).
    split; [exact K1|]. split.
    + intros it k [<-|Hin] Hk.
      * rewrite Ek0 in Hk. injection Hk as <-.
        rewrite K3 by exact Hfresh. rewrite Eit. simpl.
        apply lookup_insert_same.
      * apply K2; assumption.
    + intros k Hk. simpl in Hk.
      rewrite K3 by (intros Hin; apply Hk; right; exact Hin).
      simpl. apply lookup_insert_other.
      intros ->. apply Hk. left. exact Ek0.
Qed.

End RestoreWrites.

Section RestoreStores.
Import JS IDB World IndexedDBBackupRestore Conditions.

Lemma put_items_schema (dbName storeName : string) :
  forall (items : list value) (s s' : objectStore) r ls,
  put_items dbName storeName items s = (r, s', ls) ->
  keyPath s' = keyPath s /\ autoIncrement s' = autoIncrement s.
Proof.
  induction items as [|item rest IH]; intros s s' r ls H;
    cbn [put_items] in H.
  - injection H as _ <- _. split; reflexivity.
  - destruct (restore_item item) as [item' ls0].
    unfold put in H.
    destruct (key_for item' s) as [[[k v'] g]|].
    + destruct (put_items dbName storeName rest
                  (with_records s g (insert_record k v' (records s))))
        as [[r2 s2] ls2] eqn:E.
      injection H as _ <- _. apply IH in E. exact E.
    + injection H as _ <- _. split; reflexivity.
Qed.

Lemma restore_stores_frame (dbName : string) (dbStoresData : value) :
  forall (names : list string) (db db' : database) r ls,
  restore_stores dbName dbStoresData names db = (r, db', ls) ->
  version db' = version db /\
  (forall n, ~ In n names ->
     assoc n (objectStores db') = assoc n (objectStores db)) /\
  (forall n, option_map keyPath (assoc n (objectStores db'))
             = option_map keyPath (assoc n (objectStores db))).
Proof.
  induction names as [|storeName rest IH]; intros db db' r ls H;
    cbn [restore_stores] in H.
  - injection H as _ <- _. repeat split.
  - destruct (negb (truthy (get dbStoresData storeName))
              || length_is_zero (get dbStoresData storeName)).
    { destruct (IH _ _ _ _ H) as (V & F & S). split; [exact V|]. split.
      - intros n Hn. apply F. intros Hin. apply Hn. right. exact Hin.
      - exact S. }
    destruct (assoc storeName (objectStores db)) as [s|] eqn:Es.
    2:{ destruct (restore_stores dbName dbStoresData rest db)
          as [[r2 db2] ls2] eqn:E.
        injection H as _ <- _.
        destruct (IH _ _ _ _ E) as (V & F & S). split; [exact V|]. split.
        - intros n Hn. apply F. intros Hin. apply Hn. right. exact Hin.
        - exact S. }
    destruct (iterate (get dbStoresData storeName)) as [items|].
    2:{ injection H as _ <- _. repeat split. }
    destruct (put_items dbName storeName items s) as [[r1 s1] ls1] eqn:Ep.
    destruct (put_items_schema _ _ _ _ _ _ _ Ep) as [Hkp _].
    assert (Hone :
      (forall n, n <> storeName ->
         assoc n (objectStores (set_store storeName s1 db))
         = assoc n (objectStores db)) /\
      (forall n, option_map keyPath
                   (assoc n (objectStores (set_store storeName s1 db)))
                 = option_map keyPath (assoc n (objectStores db)))).
    { split.
      - intros n Hn. simpl. apply assoc_set_other. exact Hn.
      - intros n. simpl. destruct (String.eqb_spec n storeName) as [->|Hn].
        + rewrite assoc_set_same, Es. simpl. rewrite Hkp. reflexivity.
        + rewrite assoc_set_other by exact Hn. reflexivity. }
    destruct Hone as [F1 S1].
    destruct r1 as [u|e].
    + destruct (restore_stores dbName dbStoresData rest
                  (set_store storeName s1 db)) as [[r2 db2] ls2] eqn:E.
      injection H as _ <- _.
      destruct (IH _ _ _ _ E) as (V & F & S). split; [exact V|]. split.
      * intros n Hn. rewrite F by (intros Hin; apply Hn; right; exact Hin).
        apply F1. intros ->. apply Hn. left. reflexivity.
      * intros n. rewrite S. apply S1.
    + injection H as _ <- _. split; [reflexivity|]. split.
      * intros n Hn. apply F1. intros ->. apply Hn. left. reflexivity.
      * exact S1.
Qed.

Lemma restore_stores_installs (dbName : string) (dbStoresData : value) :
  forall (names : list string) (db db' : database) ls,
  restore_stores dbName dbStoresData names db = (Ok tt, db', ls) ->
  forall storeName s,
    In storeName names ->
    assoc storeName (objectStores db') = Some s ->
    installed dbStoresData storeName s.
Proof.
  induction names as [|n0 rest IH]; intros db db' ls H storeName s Hin Hs;
    [destruct Hin|].
  destruct (in_dec string_dec storeName rest) as [Hrest|Hrest].
  { cbn [restore_stores] in H.
    destruct (negb (truthy (get dbStoresData n0))
              || length_is_zero (get dbStoresData n0)).
    { eapply IH; eassumption. }
    destruct (assoc n0 (objectStores db)) as [s0|].
    2:{ destruct (restore_stores dbName dbStoresData rest db)
          as [[r2 db2] ls2] eqn:E.
        injection H as -> <- _. eapply IH; eassumption. }
    destruct (iterate (get dbStoresData n0)) as [items|]; [|discriminate].
    destruct (put_items dbName n0 items s0) as [[r1 s1] ls1].
    destruct r1 as [u|e]; [|discriminate].
    destruct (restore_stores dbName dbStoresData rest (set_store n0 s1 db))
      as [[r2 db2] ls2] eqn:E.
    injection H as -> <- _. eapply IH; eassumption. }
  destruct Hin as [->|Hin]; [|contradiction].
  intros kp items item k Hkp Hget Hkeyed Hitem Hk.
  cbn [restore_stores] in H. rewrite Hget in H.
  destruct items as [|i0 items']; [destruct Hitem|].
  cbn [truthy negb orb length_is_zero List.length Nat.eqb] in H.
  destruct (assoc storeName (objectStores db)) as [s0|] eqn:Es0.
  2:{ destruct (restore_stores dbName dbStoresData rest db)
        as [[r2 db2] ls2] eqn:E.
      injection H as -> <- _.
      destruct (restore_stores_frame _ _ _ _ _ _ _ E) as (_ & F & _).
      rewrite (F _ Hrest), Es0 in Hs. discriminate. }
  cbn [iterate] in H.
  destruct (put_items dbName storeName (i0 :: items') s0)
    as [[r1 s1] ls1] eqn:Ep.
  destruct r1 as [[]|e]; [|discriminate].
  destruct (restore_stores dbName dbStoresData rest (set_store storeName s1 db))
    as [[r2 db2] ls2] eqn:E.
  injection H as -> <- _.
  destruct (restore_stores_frame _ _ _ _ _ _ _ E) as (_ & F & _).
  rewrite (F _ Hrest) in Hs. simpl in Hs. rewrite assoc_set_same in Hs.
  injection Hs as <-.
  destruct (put_items_schema _ _ _ _ _ _ _ Ep) as [Hkp1 _].
  rewrite Hkp1 in Hkp.
  destruct (put_items_installs _ _ _ _ _ _ _ Ep Hkp Hkeyed) as (_ & K & _).
  apply K; assumption.
Qed.

End RestoreStores.

Section RestoreDatabases.
Import JS IDB World IndexedDBBackupRestore Conditions.

Lemma get_defined (v : value) (k : string) :
  get v k <> VUndefined -> In k (keys (own_properties v)).
Proof.
  unfold get. intros H.
  destruct (assoc k (own_properties v)) as [x|] eqn:E.
  - apply assoc_In in E. unfold keys. apply (in_map fst) in E. exact E.
  - contradiction.
Qed.

Lemma hasOwnProperty_own (v : value) (n : string) :
  In n (keys (own_properties v)) ->
  hasOwnProperty v n = Ok true \/ exists e, hasOwnProperty v n = Throw e.
Proof.
  intros Hin.
  assert (E : existsb (String.eqb n) (keys (own_properties v)) = true).
  { apply existsb_exists. exists n. split; [exact Hin|apply String.eqb_refl]. }
  destruct v as [| |b|z|z|s|iso|bs m f|l|fs];
    try (cbn [own_properties keys map] in Hin; destruct Hin).
  - left. cbn [hasOwnProperty]. rewrite E. reflexivity.
  - left. cbn [hasOwnProperty]. rewrite E. reflexivity.
  - cbn [hasOwnProperty]. destruct (assoc "hasOwnProperty" fs).
    + right. eexists. reflexivity.
    + left. cbn [own_properties] in E. rewrite E. reflexivity.
Qed.


(** The last time that [restore_dbs] comes to a name of the parsed value,
    it runs the body of the loop, and the database of that name is
    afterwards as that run left it. *)
Lemma restore_dbs_last (parsedData : value) (dbName : string) :
  forall (names : list string) (w w' : world),
  restore_dbs parsedData names w = (Resolved tt, w') ->
  In dbName names ->
  In dbName (keys (own_properties parsedData)) ->
  exists w0 w1,
    restore_db parsedData dbName w0 = (None, w1) /\
    assoc dbName (indexedDB w') = assoc dbName (indexedDB w1) /\
    (forall line, In line (console w1) -> In line (console w')) /\
    (forall line, In line (console w) -> In line (console w0)).
Proof.
  induction names as [|n0 rest IH]; intros w w' H Hin Hown; [destruct Hin|].
  cbn [restore_dbs] in H.
  destruct (in_dec string_dec dbName rest) as [Hrest|Hrest].
  - destruct (hasOwnProperty parsedData n0) as [[|]|e]; [| |discriminate].
    + destruct (restore_db parsedData n0 w) as [[e|] w2] eqn:Ed;
        [discriminate|].
      destruct (IH _ _ H Hrest Hown) as (w0 & w1 & A & B & C & D).
      exists w0, w1. split; [exact A|]. split; [exact B|]. split; [exact C|].
      intros line Hl. apply D.
      unfold restore_db in Ed.
      destruct (Object_keys (get parsedData n0)) as [names|]; [|discriminate].
      unfold _openDB in Ed.
      destruct (IDB.open n0 (Some 1) (indexedDB w)) as [[db|db]|e];
        [| |discriminate].
      * destruct (restore_stores n0 (get parsedData n0) names db)
          as [[rr db'] ls].
        destruct rr; [|discriminate]. injection Ed as <-.
        cbn [set_db with_dbs logs console]. apply in_or_app. left. exact Hl.
      * destruct (ensure_stores n0 names db) as [db1 ls1].
        destruct (restore_stores n0 (get parsedData n0) names db1)
          as [[rr db'] ls].
        destruct rr; [|discriminate]. injection Ed as <-.
        cbn [set_db with_dbs logs console]. apply in_or_app. left.
        apply in_or_app. left. exact Hl.
    + exact (IH _ _ H Hrest Hown).
  - destruct Hin as [->|Hin]; [|contradiction].
    destruct (hasOwnProperty_own parsedData dbName Hown) as [E|[e E]];
      rewrite E in H; [|discriminate].
    destruct (restore_db parsedData dbName w) as [[e|] w2] eqn:Ed;
      [discriminate|].
    exists w, w2. split; [exact Ed|]. split.
    + exact (restore_dbs_frame _ _ _ _ _ _ H Hrest).
    + split; [|intros line Hl; exact Hl].
      clear - H. revert w2 w' H.
      induction rest as [|n1 rest IH]; intros w2 w' H line Hl;
        cbn [restore_dbs] in H.
      * injection H as <-. exact Hl.
      * destruct (hasOwnProperty parsedData n1) as [[|]|e]; [| |discriminate].
        -- destruct (restore_db parsedData n1 w2) as [[e|] w3] eqn:Ed;
             [discriminate|].
           apply (IH _ _ H). unfold restore_db in Ed.
           destruct (Object_keys (get parsedData n1)) as [names|];
             [|discriminate].
           unfold _openDB in Ed.
           destruct (IDB.open n1 (Some 1) (indexedDB w2)) as [[db|db]|e];
             [| |discriminate].
           ++ destruct (restore_stores n1 (get parsedData n1) names db)
                as [[rr db'] ls].
              destruct rr; [|discriminate]. injection Ed as <-.
              cbn [set_db with_dbs logs console]. apply in_or_app. left.
              exact Hl.
           ++ destruct (ensure_stores n1 names db) as [db1 ls1].
              destruct (restore_stores n1 (get parsedData n1) names db1)
                as [[rr db'] ls].
              destruct rr; [|discriminate]. injection Ed as <-.
              cbn [set_db with_dbs logs console]. apply in_or_app. left.
              apply in_or_app. left. exact Hl.
        -- exact (IH _ _ H line Hl).
Qed.

(** What a run of the body of the loop that goes through has done. *)
Lemma restore_db_done (parsedData : value) (dbName : string) (w0 w1 : world) :
  restore_db parsedData dbName w0 = (None, w1) ->
  exists names db w2 db' ls,
    Object_keys (get parsedData dbName) = Some names /\
    _openDB dbName (Some 1) names w0 = (Ok db, w2) /\
    restore_stores dbName (get parsedData dbName) names db = (Ok tt, db', ls) /\
    assoc dbName (indexedDB w1) = Some db' /\
    forall line, In line ls -> In line (console w1).
Proof.
  unfold restore_db. intros H.
  destruct (Object_keys (get parsedData dbName)) as [names|]; [|discriminate].
  destruct (_openDB dbName (Some 1) names w0) as [[db|e] w2] eqn:Eo;
    [|discriminate].
  destruct (restore_stores dbName (get parsedData dbName) names db)
    as [[rr db'] ls] eqn:Es.
  destruct rr as [[]|e]; [|discriminate]. injection H as <-.
  exists names, db, w2, db', ls. split; [reflexivity|]. split; [exact Eo|].
  split; [exact Es|]. split.
  - cbn [set_db with_dbs logs indexedDB]. apply assoc_set_same.
  - intros line Hl. cbn [set_db with_dbs logs console].
    apply in_or_app. right. exact Hl.
Qed.


Lemma Object_keys_own (v : value) (names : list string) (n : string) :
  Object_keys v = Some names ->
  In n (keys (own_properties v)) -> In n names.
Proof.
  unfold Object_keys. intros H Hin.
  destruct v; cbn [own_properties keys map] in Hin; try destruct Hin;
    injection H as <-; exact Hin.
Qed.

Lemma restore_dbs_installs (parsedData : value) :
  forall (names : list string) (w w' : world),
  restore_dbs parsedData names w = (Resolved tt, w') ->
  forall dbName d storeName s,
    In dbName names ->
    In dbName (keys (own_properties parsedData)) ->
    assoc dbName (indexedDB w') = Some d ->
    assoc storeName (objectStores d) = Some s ->
    installed (get parsedData dbName) storeName s.
Proof.
  intros names w w' H dbName d storeName s Hin Hown Hd Hs.
  destruct (restore_dbs_last parsedData dbName names w w' H Hin Hown)
    as (w0 & w1 & Hrun & Hsame & _ & _).
  destruct (restore_db_done _ _ _ _ Hrun)
    as (sn & db & w2 & db' & ls & Ek & _ & Es & Edb & _).
  rewrite Hsame, Edb in Hd. injection Hd as <-.
  intros kp items item k Hkp Hget Hkeyed Hitem Hk.
  assert (Hname : In storeName sn).
  { apply (Object_keys_own _ _ _ Ek). apply get_defined.
    rewrite Hget. discriminate. }
  exact (restore_stores_installs _ _ _ _ _ _ Es storeName s Hname Hs
           kp items item k Hkp Hget Hkeyed Hitem Hk).
Qed.






End RestoreDatabases.

Section SharedState.
Import JS IDB World.

Lemma storeImage_frame (f : DroppableImageTarget.file) (now : string)
  (t : DroppableImageTarget.target) (w : world) (name : string) :
  name <> DroppableImageTarget.dbName ->
  assoc name (indexedDB (snd (DroppableImageTarget.storeImage f now t w)))
  = assoc name (indexedDB w).
Proof.
  intros Hne. unfold DroppableImageTarget.storeImage.
  destruct (negb (DroppableImageTarget.db t)); [reflexivity|].
  destruct (assoc DroppableImageTarget.dbName (indexedDB w)) as [d|];
    [|reflexivity].
  destruct (assoc "images" (objectStores d)) as [store|]; [|reflexivity].
  match goal with
  | |- context [add ?o ?s] => destruct (add o s) as [stored|e]
  end.
  - simpl. apply assoc_set_other. exact Hne.
  - destruct e as [m|m|[]|m]; simpl;
      try reflexivity; apply assoc_set_other; exact Hne.
Qed.
End SharedState.

Section SharedState2.
Import JS IDB World IndexedDBBackupRestore Conditions.

Lemma backup_dbs_frame (name : string) :
  forall (dbNames : list string) data (w w' : world) r,
  backup_dbs dbNames data w = (r, w') ->
  ~ In name dbNames ->
  assoc name (indexedDB w') = assoc name (indexedDB w).
Proof.
  induction dbNames as [|dbName rest IH]; intros data w w' r H Hnot;
    cbn [backup_dbs] in H.
  - injection H as _ <-. reflexivity.
  - assert (Hne : name <> dbName) by (intros ->; apply Hnot; left; reflexivity).
    assert (Hrest : ~ In name rest) by (intros Hin; apply Hnot; right; exact Hin).
    destruct (_openDB dbName None [] w) as [[db|e] w1] eqn:Eo.
    + pose proof (openDB_frame _ _ _ _ _ _ _ Eo Hne) as F1.
      destruct (backup_stores (objectStores db) []) as [stores|].
      * rewrite (IH _ _ _ _ H Hrest). exact F1.
      * injection H as _ <-. exact F1.
    + pose proof (openDB_frame _ _ _ _ _ _ _ Eo Hne) as F1.
      injection H as _ <-. exact F1.
Qed.

Lemma backup_world (dbNames : list string) (w : world) :
  snd (backup dbNames w) = snd (backup_dbs dbNames [] w).
Proof.
  unfold backup. destruct (backup_dbs dbNames [] w) as [[data|e|] w'];
    try reflexivity.
  destruct (JSON_stringify (VObj data)); reflexivity.
Qed.

(** C6, as amended.  The page gives the database of the image store to
    the backup helper ([windowImage] is in [DB_NAMES]), so the two widgets
    do share persistent state.  What holds is a frame: [storeImage] changes
    no database but [windowImage], [backup] changes none outside its
    [dbNames] (it may create those), and [restore] changes none that the
    top level of its JSON does not name. *)
Theorem widgets_touch_named_databases (name : string) :
  In DroppableImageTarget.dbName Page.DB_NAMES /\
  (forall f now t w,
     name <> DroppableImageTarget.dbName ->
     assoc name (indexedDB (snd (DroppableImageTarget.storeImage f now t w)))
     = assoc name (indexedDB w)) /\
  (forall dbNames w,
     ~ In name dbNames ->
     assoc name (indexedDB (snd (backup dbNames w)))
     = assoc name (indexedDB w)) /\
  (forall jsonString parsedData w,
     JSON_parse jsonString = Some parsedData ->
     ~ In name (keys (own_properties parsedData)) ->
     assoc name (indexedDB (snd (restore jsonString w)))
     = assoc name (indexedDB w)).
Proof.
  split; [right; left; reflexivity|]. split; [|split].
  - intros f now t w Hne. apply storeImage_frame. exact Hne.
  - intros dbNames w Hnot. rewrite backup_world.
    destruct (backup_dbs dbNames [] w) as [r w'] eqn:E.
    exact (backup_dbs_frame name _ _ _ _ _ E Hnot).
  - intros jsonString parsedData w Hparse Hnot. unfold restore.
    rewrite Hparse.
    destruct (restore_dbs parsedData (keys (own_properties parsedData)) w)
      as [r w'] eqn:E.
    exact (restore_dbs_frame _ _ _ _ _ _ E Hnot).
Qed.

Lemma widgets_touch_named_databases_witness :
  assoc "kalvNotesDB"
    (indexedDB (snd (restore Samples.other_image (snd Samples.dropped))))
  = assoc "kalvNotesDB" (indexedDB (snd Samples.dropped)).
Proof.
  refine (proj2 (proj2 (proj2
            (widgets_touch_named_databases "kalvNotesDB")))
            Samples.other_image _ (snd Samples.dropped) eq_refl _).
  simpl. intros [H|[]]. discriminate H.
Defined.

(** C6 as stated fails: [restore] rewrites the record that [storeImage]
    wrote. *)
Lemma restore_overwrites_image_store :
  ~ (forall f now t w jsonString,
       let w1 := snd (DroppableImageTarget.storeImage f now t w) in
       assoc DroppableImageTarget.dbName
         (indexedDB (snd (restore jsonString w1)))
       = assoc DroppableImageTarget.dbName (indexedDB w1)).
Proof.
  intros H.
  specialize (H Samples.picture Samples.noon (fst Samples.opened)
                (snd Samples.opened) Samples.other_image).
  vm_compute in H. discriminate H.
Qed.

(** C5.  [restore] is not atomic: on this file it rejects after the item
    of the first store has been written, and the database it created and
    the record stay. *)
Theorem restore_is_not_atomic :
  exists jsonString w e w',
    restore jsonString w = (Rejected e, w') /\
    assoc "shelf" (indexedDB w) = None /\
    exists d s r,
      assoc "shelf" (indexedDB w') = Some d /\
      assoc "books" (objectStores d) = Some s /\
      lookup_record (KNum 1) (records s) = Some r.
Proof.
  exists Samples.half_good, Samples.empty_world.
  eexists _, _. split; [reflexivity|]. split; [reflexivity|].
  eexists _, _, _. repeat split.
Qed.

End SharedState2.

(* ================================================================== *)
(** * Base64: decoding gives the bytes back *)
(* ================================================================== *)

Section Base64Facts.
Import Base64.
Local Open Scope N_scope.

Lemma digits_ok : forallb Base64.digit_ok (map N.of_nat (seq 0 64)) = true.
Proof. vm_compute. reflexivity. Qed.

Lemma digit_sextet (n : N) :
  n < 64 ->
  sextet (digit n) = Some n /\ is_space (digit n) = false /\
  Ascii.eqb (digit n) "=" = false /\ Ascii.eqb (digit n) "," = false.
Proof.
  intros Hn.
  assert (Hin : In n (map N.of_nat (seq 0 64))).
  { rewrite <- (N2Nat.id n). apply in_map. apply in_seq. lia. }
  pose proof (proj1 (forallb_forall _ _) digits_ok n Hin) as H.
  unfold Base64.digit_ok in H.
  destruct (sextet (digit n)) as [m|]; [|discriminate].
  apply andb_prop in H. destruct H as [H H4].
  apply andb_prop in H. destruct H as [H H3].
  apply andb_prop in H. destruct H as [H1 H2].
  apply N.eqb_eq in H1. subst m.
  split; [reflexivity|]. split; [|split].
  - destruct (is_space (digit n)); [discriminate|reflexivity].
  - destruct (Ascii.eqb (digit n) "="); [discriminate|reflexivity].
  - destruct (Ascii.eqb (digit n) ","); [discriminate|reflexivity].
Qed.

Lemma byte_of_to_N (b : byte) : byte_of (Byte.to_N b) = b.
Proof. unfold byte_of. rewrite Byte.of_to_N. reflexivity. Qed.


Lemma div_mod_pair (b c m : N) :
  c < m -> (b * m + c) / m = b /\ (b * m + c) mod m = c.
Proof.
  intros H. split.
  - symmetry. apply (N.div_unique _ _ _ c); lia.
  - symmetry. apply (N.mod_unique _ _ b); lia.
Qed.

Lemma split_byte (x m : N) :
  m <> 0 -> x = (x / m) * m + x mod m /\ x mod m < m.
Proof.
  intros H. split.
  - rewrite N.mul_comm. apply N.div_mod. exact H.
  - apply N.mod_lt. exact H.
Qed.

Lemma quotient_bound (x m k : N) : m <> 0 -> x < m * k -> x / m < k.
Proof. intros H Hx. apply N.Div0.div_lt_upper_bound. exact Hx. Qed.

Lemma regroup (x y z : N) :
  x <= 255 -> y <= 255 -> z <= 255 ->
  (x / 4) * 4 + ((x mod 4) * 16 + y / 16) / 16 = x /\
  (((x mod 4) * 16 + y / 16) mod 16) * 16 + ((y mod 16) * 4 + z / 64) / 4 = y /\
  (((y mod 16) * 4 + z / 64) mod 4) * 64 + z mod 64 = z.
Proof.
  intros Hx Hy Hz.
  destruct (split_byte x 4 ltac:(lia)) as [Ex Bx].
  destruct (split_byte y 16 ltac:(lia)) as [Ey By].
  destruct (split_byte z 64 ltac:(lia)) as [Ez Bz].
  assert (Hc : y / 16 < 16) by (apply quotient_bound; lia).
  assert (He : z / 64 < 4) by (apply quotient_bound; lia).
  destruct (div_mod_pair (x mod 4) (y / 16) 16 Hc) as [-> ->].
  destruct (div_mod_pair (y mod 16) (z / 64) 4 He) as [-> ->].
  lia.
Qed.

Lemma regroup_pad (x y : N) :
  x <= 255 -> y <= 255 ->
  (x / 4) * 4 + ((x mod 4) * 16) / 16 = x /\
  (((x mod 4) * 16 + y / 16) mod 16) * 16 + ((y mod 16) * 4) / 4 = y.
Proof.
  intros Hx Hy.
  destruct (split_byte x 4 ltac:(lia)) as [Ex Bx].
  destruct (split_byte y 16 ltac:(lia)) as [Ey By].
  assert (Hc : y / 16 < 16) by (apply quotient_bound; lia).
  destruct (div_mod_pair (x mod 4) (y / 16) 16 Hc) as [_ ->].
  rewrite !N.div_mul by lia. lia.
Qed.

Lemma group_bounds (x y z : N) :
  x <= 255 -> y <= 255 -> z <= 255 ->
  x / 4 < 64 /\ (x mod 4) * 16 + y / 16 < 64 /\
  (y mod 16) * 4 + z / 64 < 64 /\ z mod 64 < 64 /\
  (x mod 4) * 16 < 64 /\ (y mod 16) * 4 < 64.
Proof.
  intros Hx Hy Hz.
  destruct (split_byte x 4 ltac:(lia)) as [Ex Bx].
  destruct (split_byte y 16 ltac:(lia)) as [Ey By].
  destruct (split_byte z 64 ltac:(lia)) as [Ez Bz].
  assert (x / 4 < 64) by (apply quotient_bound; lia).
  assert (y / 16 < 16) by (apply quotient_bound; lia).
  assert (z / 64 < 4) by (apply quotient_bound; lia).
  lia.
Qed.

Lemma list_ind3 (A : Type) (P : list A -> Prop) :
  P [] -> (forall a, P [a]) -> (forall a b, P [a; b]) ->
  (forall a b c r, P r -> P (a :: b :: c :: r)) ->
  forall l, P l.
Proof.
  intros H0 H1 H2 H3.
  fix IH 1. intros [|a [|b [|c r]]].
  - exact H0.
  - apply H1.
  - apply H2.
  - apply H3. apply IH.
Qed.

Lemma one_byte_digits (x : N) :
  x <= 255 ->
  one_byte (digit (x / 4)) (digit ((x mod 4) * 16)) = Some [byte_of x].
Proof.
  intros Hx.
  destruct (group_bounds x 0 0 Hx ltac:(lia) ltac:(lia))
    as (B1 & _ & _ & _ & B2 & _).
  unfold one_byte.
  rewrite (proj1 (digit_sextet _ B1)), (proj1 (digit_sextet _ B2)).
  rewrite (proj1 (regroup_pad x 0 Hx ltac:(lia))). reflexivity.
Qed.

Lemma two_bytes_digits (x y : N) :
  x <= 255 -> y <= 255 ->
  two_bytes (digit (x / 4)) (digit ((x mod 4) * 16 + y / 16))
    (digit ((y mod 16) * 4))
  = Some [byte_of x; byte_of y].
Proof.
  intros Hx Hy.
  destruct (group_bounds x y 0 Hx Hy ltac:(lia))
    as (B1 & B2 & _ & _ & _ & B3).
  unfold two_bytes.
  rewrite (proj1 (digit_sextet _ B1)), (proj1 (digit_sextet _ B2)),
    (proj1 (digit_sextet _ B3)).
  destruct (regroup x y 0 Hx Hy ltac:(lia)) as (E1 & _ & _).
  destruct (regroup_pad x y Hx Hy) as (_ & E2).
  rewrite E1, E2. reflexivity.
Qed.

Lemma three_bytes_digits (x y z : N) :
  x <= 255 -> y <= 255 -> z <= 255 ->
  three_bytes (digit (x / 4)) (digit ((x mod 4) * 16 + y / 16))
    (digit ((y mod 16) * 4 + z / 64)) (digit (z mod 64))
  = Some [byte_of x; byte_of y; byte_of z].
Proof.
  intros Hx Hy Hz.
  destruct (group_bounds x y z Hx Hy Hz) as (B1 & B2 & B3 & B4 & _ & _).
  unfold three_bytes.
  rewrite (proj1 (digit_sextet _ B1)), (proj1 (digit_sextet _ B2)),
    (proj1 (digit_sextet _ B3)), (proj1 (digit_sextet _ B4)).
  destruct (regroup x y z Hx Hy Hz) as (E1 & E2 & E3).
  rewrite E1, E2, E3. reflexivity.
Qed.

(** The characters of an encoding are digits of the alphabet or [=]. *)
Lemma encode_no_space (bs : list byte) :
  filter (fun c => negb (is_space c)) (list_ascii_of_string (encode bs))
  = list_ascii_of_string (encode bs).
Proof.
  induction bs as [|a|a b|a b c r IH] using list_ind3.
  - reflexivity.
  - pose proof (Byte.to_N_bounded a) as Ha.
    destruct (group_bounds _ 0 0 Ha ltac:(lia) ltac:(lia))
      as (B1 & _ & _ & _ & B2 & _).
    cbn [encode list_ascii_of_string filter].
    rewrite (proj1 (proj2 (digit_sextet _ B1))),
      (proj1 (proj2 (digit_sextet _ B2))).
    reflexivity.
  - pose proof (Byte.to_N_bounded a) as Ha.
    pose proof (Byte.to_N_bounded b) as Hb.
    destruct (group_bounds _ _ 0 Ha Hb ltac:(lia))
      as (B1 & B2 & _ & _ & _ & B3).
    cbn [encode list_ascii_of_string filter].
    rewrite (proj1 (proj2 (digit_sextet _ B1))),
      (proj1 (proj2 (digit_sextet _ B2))),
      (proj1 (proj2 (digit_sextet _ B3))).
    reflexivity.
  - pose proof (Byte.to_N_bounded a) as Ha.
    pose proof (Byte.to_N_bounded b) as Hb.
    pose proof (Byte.to_N_bounded c) as Hc.
    destruct (group_bounds _ _ _ Ha Hb Hc) as (B1 & B2 & B3 & B4 & _ & _).
    cbn [encode list_ascii_of_string filter].
    rewrite (proj1 (proj2 (digit_sextet _ B1))),
      (proj1 (proj2 (digit_sextet _ B2))),
      (proj1 (proj2 (digit_sextet _ B3))),
      (proj1 (proj2 (digit_sextet _ B4))).
    cbn [negb]. rewrite IH. reflexivity.
Qed.

Lemma decode_encode (bs : list byte) :
  decode (list_ascii_of_string (encode bs)) = Some bs.
Proof.
  induction bs as [|a|a b|a b c r IH] using list_ind3.
  - reflexivity.
  - pose proof (Byte.to_N_bounded a) as Ha.
    cbn [encode list_ascii_of_string decode].
    change (Ascii.eqb "=" "=") with true. cbn iota.
    rewrite (one_byte_digits _ Ha), byte_of_to_N. reflexivity.
  - pose proof (Byte.to_N_bounded a) as Ha.
    pose proof (Byte.to_N_bounded b) as Hb.
    destruct (group_bounds _ _ 0 Ha Hb ltac:(lia))
      as (_ & _ & _ & _ & _ & B3).
    cbn [encode list_ascii_of_string decode].
    change (Ascii.eqb "=" "=") with true. cbn iota.
    rewrite (proj1 (proj2 (proj2 (digit_sextet _ B3)))).
    rewrite (two_bytes_digits _ _ Ha Hb), !byte_of_to_N. reflexivity.
  - pose proof (Byte.to_N_bounded a) as Ha.
    pose proof (Byte.to_N_bounded b) as Hb.
    pose proof (Byte.to_N_bounded c) as Hc.
    destruct (group_bounds _ _ _ Ha Hb Hc) as (_ & _ & _ & B4 & _ & _).
    cbn [encode list_ascii_of_string].
    set (rest := list_ascii_of_string (encode r)) in *.
    cbn [decode].
    rewrite (three_bytes_digits _ _ _ Ha Hb Hc), !byte_of_to_N.
    rewrite (proj1 (proj2 (proj2 (digit_sextet _ B4)))).
    destruct rest as [|c0 rest'] eqn:Erest.
    + destruct r as [|r1 [|r2 [|r3 r']]]; try discriminate Erest.
      reflexivity.
    + fold decode. rewrite IH. reflexivity.
Qed.

(** [atob] gives back the bytes that were encoded. *)
Lemma atob_encode (bs : list byte) :
  atob (encode bs) = Some (string_of_list_byte bs).
Proof.
  unfold atob. rewrite encode_no_space, decode_encode. reflexivity.
Qed.

End Base64Facts.

(* ================================================================== *)
(** * The framing of Blob and File fields *)
(* ================================================================== *)

Section Framing.
Import JS IDB World IndexedDBBackupRestore Conditions.

Lemma split_comma_free (s : string) :
  Blob.comma_free s = true -> Blob.split_comma s = [s].
Proof.
  unfold Blob.comma_free. induction s as [|c s IH]; [reflexivity|].
  cbn [list_ascii_of_string forallb Blob.split_comma]. intros H.
  apply andb_prop in H. destruct H as [Hc Hs].
  destruct (Ascii.eqb c ","); [discriminate|].
  rewrite (IH Hs). reflexivity.
Qed.

Lemma split_comma_prefix (a b : string) :
  Blob.comma_free a = true ->
  Blob.split_comma (a ++ String "," b) = a :: Blob.split_comma b.
Proof.
  unfold Blob.comma_free. induction a as [|c a IH].
  - intros _. reflexivity.
  - cbn [list_ascii_of_string forallb String.append Blob.split_comma].
    intros H. apply andb_prop in H. destruct H as [Hc Ha].
    destruct (Ascii.eqb c ","); [discriminate|].
    rewrite (IH Ha). reflexivity.
Qed.

Lemma comma_free_app (a b : string) :
  Blob.comma_free a = true -> Blob.comma_free b = true ->
  Blob.comma_free (a ++ b) = true.
Proof.
  unfold Blob.comma_free. induction a as [|c a IH]; intros Ha Hb.
  - exact Hb.
  - cbn [String.append list_ascii_of_string forallb] in *.
    apply andb_prop in Ha. destruct Ha as [Hc Ha].
    rewrite Hc. exact (IH Ha Hb).
Qed.

Lemma encode_comma_free (bs : list byte) :
  Blob.comma_free (Base64.encode bs) = true.
Proof.
  unfold Blob.comma_free.
  induction bs as [|a|a b|a b c r IH] using list_ind3.
  - reflexivity.
  - pose proof (Byte.to_N_bounded a) as Ha.
    destruct (group_bounds _ 0 0 Ha ltac:(lia) ltac:(lia))
      as (B1 & _ & _ & _ & B2 & _).
    cbn [Base64.encode list_ascii_of_string forallb].
    rewrite (proj2 (proj2 (proj2 (digit_sextet _ B1)))),
      (proj2 (proj2 (proj2 (digit_sextet _ B2)))).
    reflexivity.
  - pose proof (Byte.to_N_bounded a) as Ha.
    pose proof (Byte.to_N_bounded b) as Hb.
    destruct (group_bounds _ _ 0 Ha Hb ltac:(lia))
      as (B1 & B2 & _ & _ & _ & B3).
    cbn [Base64.encode list_ascii_of_string forallb].
    rewrite (proj2 (proj2 (proj2 (digit_sextet _ B1)))),
      (proj2 (proj2 (proj2 (digit_sextet _ B2)))),
      (proj2 (proj2 (proj2 (digit_sextet _ B3)))).
    reflexivity.
  - pose proof (Byte.to_N_bounded a) as Ha.
    pose proof (Byte.to_N_bounded b) as Hb.
    pose proof (Byte.to_N_bounded c) as Hc.
    destruct (group_bounds _ _ _ Ha Hb Hc) as (B1 & B2 & B3 & B4 & _ & _).
    cbn [Base64.encode list_ascii_of_string forallb].
    rewrite (proj2 (proj2 (proj2 (digit_sextet _ B1)))),
      (proj2 (proj2 (proj2 (digit_sextet _ B2)))),
      (proj2 (proj2 (proj2 (digit_sextet _ B3)))),
      (proj2 (proj2 (proj2 (digit_sextet _ B4)))).
    cbn [negb andb]. exact IH.
Qed.

Lemma append_assoc (a b c : string) : (a ++ b) ++ c = a ++ (b ++ c).
Proof.
  induction a as [|x a IH]; [reflexivity|].
  cbn [String.append]. rewrite IH. reflexivity.
Qed.

(** The second piece of a data URL is its base64 text. *)
Lemma data_url_payload (bytes : list byte) (mime : string) :
  Blob.comma_free mime = true ->
  nth 1 (Blob.split_comma (Blob.readAsDataURL bytes mime)) "undefined"
  = Base64.encode bytes.
Proof.
  intros Hm. unfold Blob.readAsDataURL.
  set (media := if String.eqb mime "" then "application/octet-stream"
                else mime).
  assert (Hmedia : Blob.comma_free media = true)
    by (subst media; destruct (String.eqb mime ""); [reflexivity|exact Hm]).
  replace ("data:" ++ media ++ ";base64," ++ Base64.encode bytes)
    with (("data:" ++ media ++ ";base64") ++ String "," (Base64.encode bytes)).
  - rewrite split_comma_prefix.
    + rewrite (split_comma_free _ (encode_comma_free bytes)). reflexivity.
    + apply (comma_free_app "data:"); [reflexivity|].
      apply comma_free_app; [exact Hmedia|reflexivity].
  - rewrite !append_assoc. reflexivity.
Qed.

Lemma backup_item_assoc (key : string) (item : list (string * value)) :
  assoc key (backup_item item) = option_map backup_field (assoc key item).
Proof.
  induction item as [|[k v] item IH]; [reflexivity|].
  cbn [backup_item map assoc fst snd].
  destruct (String.eqb key k); [reflexivity|exact IH].
Qed.

Lemma restore_fields_lookup (key : string) :
  forall fs v,
  assoc key fs = Some v ->
  exists k, assoc key (fst (restore_fields fs)) = Some (fst (restore_field k v)).
Proof.
  induction fs as [|[k' v'] fs IH]; intros v H; [discriminate|].
  cbn [restore_fields assoc] in *.
  destruct (restore_field k' v') as [v2 ls] eqn:E1.
  destruct (restore_fields fs) as [fs2 ls2] eqn:E2.
  cbn [fst assoc].
  destruct (String.eqb key k').
  - injection H as <-. exists k'. rewrite E1. reflexivity.
  - exact (IH v H).
Qed.


Lemma restore_field_value (key : string) (v : value) :
  fst (restore_field key v)
  = if marked v then fst (_base64ToBlob (get v "data") (get v "type")) else v.
Proof.
  unfold restore_field. destruct (marked v); [|reflexivity].
  destruct (_base64ToBlob (get v "data") (get v "type")) as [b ls].
  reflexivity.
Qed.

(** C2, as amended.  In the cursor handler of [backup] a Blob or File field
    is replaced by the object
    [{_indexedDB_file_data: true, data, type, name}] whose [data] is the
    base64 data URL of the bytes, and other fields are left as they are.
    In [restore] a field that carries the marker is replaced: by a Blob of
    the bytes that the piece of [data] after its first comma decodes to,
    with the recorded type as the Blob constructor normalises it, when
    [data] is a string and that piece is base64; by [null] otherwise.
    Fields without the marker are left as they are.  A field written by
    [backup] comes back as a Blob of the same bytes and type (for a type
    without comma, in the normal form every Blob type has). *)
Theorem blob_fields_are_framed_in_base64 (key : string) :
  (forall item bytes mime fname,
     assoc key item = Some (VBlob bytes mime fname) ->
     exists name,
       assoc key (backup_item item)
       = Some (VObj [("_indexedDB_file_data", VBool true);
                     ("data", VStr (Blob.readAsDataURL bytes mime));
                     ("type", VStr mime);
                     ("name", VStr name)])) /\
  (forall item v,
     assoc key item = Some v -> is_blob v = false ->
     assoc key (backup_item item) = Some v) /\
  (forall fs v s byteString t,
     assoc key fs = Some v -> marked v = true ->
     get v "data" = VStr s ->
     Base64.atob (nth 1 (Blob.split_comma s) "undefined") = Some byteString ->
     get v "type" = VStr t ->
     assoc key (fst (restore_fields fs))
     = Some (VBlob (list_byte_of_string byteString)
               (Blob.normalize_type t) None)) /\
  (forall fs v,
     assoc key fs = Some v -> marked v = true ->
     (forall s, get v "data" = VStr s ->
        Base64.atob (nth 1 (Blob.split_comma s) "undefined") = None) ->
     assoc key (fst (restore_fields fs)) = Some VNull) /\
  (forall fs v,
     assoc key fs = Some v -> marked v = false ->
     assoc key (fst (restore_fields fs)) = Some v) /\
  (forall bytes mime fname,
     Blob.comma_free mime = true -> Blob.normalize_type mime = mime ->
     restore_field key (backup_field (VBlob bytes mime fname))
     = (VBlob bytes mime None, [])).
Proof.
  repeat apply conj.
  - intros item bytes mime fname H. rewrite backup_item_assoc, H.
    eexists. reflexivity.
  - intros item v H Hv. rewrite backup_item_assoc, H.
    destruct v; try reflexivity. discriminate Hv.
  - intros fs v s byteString t H Hm Hd Ha Ht.
    destruct (restore_fields_lookup key fs v H) as [k ->].
    rewrite restore_field_value, Hm, Hd, Ht. unfold _base64ToBlob.
    rewrite Ha. reflexivity.
  - intros fs v H Hm Hd.
    destruct (restore_fields_lookup key fs v H) as [k ->].
    rewrite restore_field_value, Hm. unfold _base64ToBlob.
    destruct (get v "data"); try reflexivity.
    rewrite (Hd _ eq_refl). reflexivity.
  - intros fs v H Hm.
    destruct (restore_fields_lookup key fs v H) as [k ->].
    rewrite restore_field_value, Hm. reflexivity.
  - intros bytes mime fname Hc Hn.
    unfold restore_field, backup_field, file_data.
    change (marked _) with true. cbv iota.
    change (get _ "data") with (VStr (_fileToBase64 bytes mime)).
    change (get _ "type") with (VStr mime).
    unfold _base64ToBlob, _fileToBase64.
    rewrite (data_url_payload bytes mime Hc), atob_encode.
    rewrite list_byte_of_string_of_list_byte.
    unfold Blob.new_Blob. cbn [Blob.to_string]. rewrite Hn. reflexivity.
Qed.

Lemma blob_fields_are_framed_in_base64_witness :
  restore_field "photo" (backup_field (VBlob [x01; x02; xff] "image/png" None))
  = (VBlob [x01; x02; xff] "image/png" None, []).
Proof.
  exact (proj2 (proj2 (proj2 (proj2 (proj2
           (blob_fields_are_framed_in_base64 "photo")))))
           [x01; x02; xff] "image/png" None eq_refl eq_refl).
Defined.

(** C2 as stated fails: a field that carries the marker is not always
    converted into a Blob; with a [data] that is no data URL it becomes
    [null]. *)
Lemma marked_field_may_become_null :
  fst (restore_field "photo"
         (VObj [("_indexedDB_file_data", VBool true);
                ("data", VStr "AQL/");
                ("type", VStr "image/png")]))
  = VNull.
Proof. reflexivity. Qed.


(** A comma in the type of a Blob breaks the framing: the piece after the
    first comma of the data URL is then not the base64 text. *)
Example comma_in_type_gives_null :
  fst (restore_field "photo"
         (backup_field (VBlob [x01; x02; xff] "text/x-a,b" None)))
  = VNull.
Proof. reflexivity. Qed.

End Framing.

(* ================================================================== *)
(** * backup *)
(* ================================================================== *)

Section Backup.
Import JS IDB World IndexedDBBackupRestore Conditions.

Lemma cursor_loop_blob (k : key) (v : value) :
  forall recs pushed,
  In (k, v) recs -> awaited (own_properties v) = true ->
  cursor_loop recs pushed = None.
Proof.
  induction recs as [|[k' v'] recs IH]; intros pushed Hin Hb; [destruct Hin|].
  cbn [cursor_loop].
  destruct (awaited (own_properties v')) eqn:E; [reflexivity|].
  destruct Hin as [Heq|Hin].
  - injection Heq as <- <-. congruence.
  - apply IH; assumption.
Qed.

Lemma backup_stores_blob (storeName : string) (s : objectStore) (k : key)
  (v : value) :
  forall stores data,
  In (storeName, s) stores -> In (k, v) (records s) ->
  awaited (own_properties v) = true ->
  backup_stores stores data = None.
Proof.
  induction stores as [|[n s'] stores IH]; intros data Hin Hk Hb;
    [destruct Hin|].
  cbn [backup_stores].
  destruct Hin as [Heq|Hin].
  - injection Heq as <- <-.
    rewrite (cursor_loop_blob k v _ _ Hk Hb). reflexivity.
  - destruct (cursor_loop (records s') []); [|reflexivity].
    apply IH; assumption.
Qed.

Lemma openDB_existing (dbName : string) (names : list string) (w : world)
  (d : database) :
  assoc dbName (indexedDB w) = Some d ->
  _openDB dbName None names w = (Ok d, w).
Proof. intros H. unfold _openDB, IDB.open. rewrite H. reflexivity. Qed.

Lemma openDB_any (dbName : string) (names : list string) (w : world) :
  exists db w1, _openDB dbName None names w = (Ok db, w1).
Proof.
  unfold _openDB, IDB.open.
  destruct (assoc dbName (indexedDB w)) as [d|].
  - eexists _, _. reflexivity.
  - destruct (ensure_stores dbName names (mkDb 1 [])) as [db' ls].
    eexists _, _. reflexivity.
Qed.

Lemma backup_dbs_blob (dbName storeName : string) (d : database)
  (s : objectStore) (k : key) (v : value) :
  In (storeName, s) (objectStores d) -> In (k, v) (records s) ->
  awaited (own_properties v) = true ->
  forall dbNames data w,
  In dbName dbNames ->
  assoc dbName (indexedDB w) = Some d ->
  fst (backup_dbs dbNames data w) = Pending.
Proof.
  intros Hs Hk Hb.
  induction dbNames as [|n rest IH]; intros data w Hin Hd; [destruct Hin|].
  cbn [backup_dbs].
  destruct (String.eqb_spec n dbName) as [->|Hne].
  - rewrite (openDB_existing _ _ _ _ Hd).
    rewrite (backup_stores_blob storeName s k v _ _ Hs Hk Hb). reflexivity.
  - destruct Hin as [Heq|Hin]; [contradiction|].
    destruct (openDB_any n [] w) as (db & w1 & Eo). rewrite Eo.
    destruct (backup_stores (objectStores db) []) as [stores|];
      [|reflexivity].
    apply IH; [exact Hin|].
    rewrite (openDB_frame _ _ _ _ _ _ _ Eo (not_eq_sym Hne)). exact Hd.
Qed.

(** C3 (the code falls short of it).  When a store of a configured
    database holds a record with a Blob or File field, [backup] is never
    settled: the cursor handler awaits the FileReader and
    [cursor.continue()] then finds the transaction inactive. *)
Theorem backup_never_settles_with_blob (dbNames : list string) (w : world)
  (dbName storeName key : string) (d : database) (s : objectStore)
  (k : IDB.key) (v : value) (bytes : list byte) (mime : string)
  (fname : option string) :
  In dbName dbNames ->
  assoc dbName (indexedDB w) = Some d ->
  In (storeName, s) (objectStores d) ->
  In (k, v) (records s) ->
  In (key, VBlob bytes mime fname) (own_properties v) ->
  fst (backup dbNames w) = Pending.
Proof.
  intros Hin Hd Hs Hk Hf.
  assert (Hb : awaited (own_properties v) = true).
  { unfold awaited. apply existsb_exists. eexists. split; [exact Hf|].
    reflexivity. }
  pose proof (backup_dbs_blob dbName storeName d s k v Hs Hk Hb
                dbNames [] w Hin Hd) as H.
  unfold backup. destruct (backup_dbs dbNames [] w) as [[x|e|] w'];
    simpl in H; try discriminate. reflexivity.
Qed.

Lemma backup_never_settles_with_blob_witness :
  fst (backup ["album"] Samples.album) = Pending.
Proof.
  refine (backup_never_settles_with_blob ["album"] Samples.album
            "album" "photos" "photo" _ _ (KNum 1) _ [x01; x02; xff]
            "image/png" None (or_introl eq_refl) eq_refl
            (or_introl eq_refl) (or_introl eq_refl) _).
  right. left. reflexivity.
Defined.

End Backup.

(* ================================================================== *)
(** * backup followed by restore *)
(* ================================================================== *)

Section PlainData.
Import JS IDB World IndexedDBBackupRestore Conditions.

Lemma plain_to_json (v : value) :
  plain v = true -> exists j, to_json v = Some (Some j) /\ of_json j = v.
Proof.
  induction v as [| |b|n|n|s|s|bs m f|l IH|fs IH] using value_ind;
    cbn [plain]; intros Hp; try discriminate;
    try (eexists; split; reflexivity).
  - assert (H : exists js,
              all_written (map (fun x => element (to_json x)) l) = Some js /\
              map of_json js = l).
    { induction l as [|x l IHl]; [exists []; split; reflexivity|].
      cbn [forallb] in Hp. apply andb_prop in Hp. destruct Hp as [Hx Hl].
      inversion IH as [|? ? Px Pl]; subst.
      destruct (Px Hx) as (j & Ej & Ev).
      destruct (IHl Pl Hl) as (js & Ejs & Evs).
      exists (j :: js). cbn [map all_written]. rewrite Ej. cbn [element].
      rewrite Ejs. split; [reflexivity|]. cbn [map]. rewrite Ev, Evs.
      reflexivity. }
    destruct H as (js & Ejs & Evs). cbn [to_json]. rewrite Ejs.
    eexists. split; [reflexivity|]. cbn [of_json]. rewrite Evs. reflexivity.
  - apply andb_prop in Hp. destruct Hp as [Ho Hp].
    assert (H : exists ms,
              all_written
                (map (fun kv => member (fst kv) (to_json (snd kv))) fs)
              = Some ms /\
              map (fun kv => (fst kv, of_json (snd kv))) (List.concat ms)
              = fs).
    { clear Ho. induction fs as [|[k x] fs IHl]; [exists []; split; reflexivity|].
      cbn [forallb snd] in Hp. apply andb_prop in Hp. destruct Hp as [Hx Hl].
      inversion IH as [|? ? Px Pl]; subst. cbn [snd] in Px.
      destruct (Px Hx) as (j & Ej & Ev).
      destruct (IHl Pl Hl) as (ms & Ems & Evs).
      exists ([(k, j)] :: ms). cbn [map all_written fst snd]. rewrite Ej.
      cbn [member]. rewrite Ems. split; [reflexivity|].
      cbn [List.concat app map fst snd]. rewrite Ev, Evs. reflexivity. }
    destruct H as (ms & Ems & Evs). cbn [to_json]. rewrite Ems.
    eexists. split; [reflexivity|]. cbn [of_json]. rewrite Evs.
    rewrite (object_of_ordered fs Ho). reflexivity.
Qed.

Lemma plain_parse (v : value) :
  plain v = true ->
  exists t, JSON_stringify v = Some t /\ JSON_parse t = Some v.
Proof.
  intros H. destruct (plain_to_json v H) as (j & Ej & Ev).
  unfold JSON_stringify. rewrite Ej. eexists. split; [reflexivity|].
  cbn [JSON_parse]. rewrite Ev. reflexivity.
Qed.

Lemma plain_fields (fs : list (string * value)) :
  forallb (fun kv => plain (snd kv) && negb (marked (snd kv))) fs = true ->
  awaited fs = false /\ backup_item fs = fs /\ restore_fields fs = (fs, []) /\
  forallb (fun kv => plain (snd kv)) fs = true.
Proof.
  induction fs as [|[k v] fs IH]; [intros _; repeat split|].
  cbn [forallb snd]. intros H.
  apply andb_prop in H. destruct H as [Hv Hfs].
  apply andb_prop in Hv. destruct Hv as [Hp Hm].
  destruct (IH Hfs) as (A & B & C & D).
  assert (Hb : is_blob v = false) by (destruct v; try reflexivity; discriminate).
  repeat split.
  - unfold awaited in *. cbn [existsb snd]. rewrite Hb. exact A.
  - unfold backup_item in *. cbn [map fst snd]. rewrite B.
    destruct v; try reflexivity. discriminate.
  - cbn [restore_fields]. unfold restore_field.
    destruct (marked v); [discriminate|]. rewrite C. reflexivity.
  - cbn [forallb snd]. rewrite Hp. exact D.
Qed.

Lemma plain_record_facts (r : value) :
  plain_record r = true ->
  exists fs, r = VObj fs /\ awaited fs = false /\ backup_item fs = fs /\
             restore_item r = (r, []) /\ plain r = true.
Proof.
  destruct r; cbn [plain_record]; try discriminate. intros H.
  apply andb_prop in H. destruct H as [Ho H].
  destruct (plain_fields _ H) as (A & B & C & D).
  exists fields. repeat split; try assumption.
  - cbn [restore_item]. rewrite C. reflexivity.
  - cbn [plain]. rewrite Ho, D. reflexivity.
Qed.

Lemma plain_bigint_free (v : value) : plain v = true -> bigint_free v = true.
Proof.
  induction v as [| |b|n|n|s|s|bs m f|l IH|fs IH] using value_ind;
    cbn [plain bigint_free]; intros Hp; try discriminate; try reflexivity.
  - induction l as [|x l IHl]; [reflexivity|].
    cbn [forallb] in *. apply andb_prop in Hp. destruct Hp as [Hx Hl].
    inversion IH as [|? ? Px Pl]; subst.
    rewrite (Px Hx). exact (IHl Pl Hl).
  - apply andb_prop in Hp. destruct Hp as [_ Hp].
    induction fs as [|[k x] fs IHl]; [reflexivity|].
    cbn [forallb snd] in *. apply andb_prop in Hp. destruct Hp as [Hx Hl].
    inversion IH as [|? ? Px Pl]; subst. cbn [snd] in Px.
    rewrite (Px Hx). exact (IHl Pl Hl).
Qed.



End PlainData.

Section BackupOutput.
Import JS IDB World IndexedDBBackupRestore Conditions.

Lemma backup_item_blob_free (fs : list (string * value)) :
  awaited fs = false -> backup_item fs = fs.
Proof.
  unfold awaited, backup_item. induction fs as [|[k v] fs IH]; [reflexivity|].
  cbn [existsb map fst snd]. intros H.
  apply orb_false_elim in H. destruct H as [Hv Hfs].
  rewrite (IH Hfs). destruct v; try reflexivity. discriminate Hv.
Qed.

Lemma cursor_loop_blob_free (recs : list (key * value)) :
  forall pushed,
  Forall (fun kr => awaited (own_properties (snd kr)) = false /\
                    bigint_free (snd kr) = true) recs ->
  cursor_loop recs pushed
  = Some (pushed ++ map (fun kr => VObj (own_properties (snd kr))) recs)%list.
Proof.
  induction recs as [|[k r] recs IH]; intros pushed H; cbn [cursor_loop map snd].
  - rewrite app_nil_r. reflexivity.
  - inversion H as [|? ? Hr Hrest]; subst. cbn [snd] in Hr.
    destruct Hr as [Hr _].
    rewrite Hr, (backup_item_blob_free _ Hr), (IH _ Hrest), <- app_assoc.
    reflexivity.
Qed.

Lemma indexed_bigint_free (l : list value) :
  forall i,
  forallb bigint_free l = true ->
  forallb (fun kv => bigint_free (snd kv)) (indexed i l) = true.
Proof.
  induction l as [|x l IH]; intros i H; [reflexivity|].
  cbn [forallb indexed snd] in *. apply andb_prop in H. destruct H as [Hx Hl].
  rewrite Hx. exact (IH _ Hl).
Qed.

Lemma spread_bigint_free (r : value) :
  bigint_free r = true -> bigint_free (VObj (own_properties r)) = true.
Proof.
  destruct r; cbn [own_properties bigint_free]; try reflexivity;
    try (intros H; exact H).
  - intros _. apply indexed_bigint_free. unfold chars.
    induction (list_ascii_of_string s) as [|c cs IH]; [reflexivity|].
    exact IH.
  - apply indexed_bigint_free.
Qed.

Lemma blob_free_spread (s : objectStore) :
  blob_free s -> bigint_free (VArr (spread_records s)) = true.
Proof.
  unfold blob_free, spread_records. cbn [bigint_free].
  induction 1 as [|[k r] recs [_ Hr] _ IH]; [reflexivity|].
  cbn [map forallb snd] in *. rewrite (spread_bigint_free r Hr). exact IH.
Qed.

Lemma plain_store_blob_free (s : objectStore) :
  plain_store s -> blob_free s /\ spread_records s = map snd (records s).
Proof.
  intros (_ & _ & H). unfold blob_free, spread_records.
  induction H as [|[k r] recs Hr _ [IH1 IH2]]; [split; [constructor|reflexivity]|].
  cbn [snd] in Hr.
  destruct (plain_record_facts r Hr) as (fs & -> & A & _ & _ & Hp).
  split.
  - constructor; [|exact IH1]. split; [exact A|].
    exact (plain_bigint_free _ Hp).
  - cbn [map snd own_properties]. rewrite IH2. reflexivity.
Qed.

Lemma plain_database_blob_free (d : database) :
  plain_database d -> blob_free_database d.
Proof.
  intros [Hnd Hall]. split; [exact Hnd|].
  eapply Forall_impl; [|exact Hall].
  intros ns H. exact (proj1 (plain_store_blob_free _ H)).
Qed.

Lemma plain_spread (s : objectStore) :
  plain_store s -> forallb plain (spread_records s) = true.
Proof.
  intros H. rewrite (proj2 (plain_store_blob_free s H)).
  destruct H as (_ & _ & H).
  induction H as [|[k r] recs Hr _ IH]; [reflexivity|].
  cbn [map snd forallb]. cbn [snd] in Hr.
  destruct (plain_record_facts r Hr) as (fs & _ & _ & _ & _ & Hp).
  rewrite Hp. exact IH.
Qed.

(** What [backup] collects for the stores of one database. *)
Lemma backup_stores_blob_free :
  forall (stores : list (string * objectStore)) data,
  NoDup (keys stores) ->
  Forall (fun ns => blob_free (snd ns)) stores ->
  exists data',
    backup_stores stores data = Some data' /\
    (forall n, n <> "__proto__" ->
       assoc n data'
       = match assoc n stores with
         | Some s => Some (VArr (spread_records s))
         | None => assoc n data
         end) /\
    assoc "__proto__" data' = assoc "__proto__" data /\
    (enumeration_order (keys data) = true ->
     enumeration_order (keys data') = true) /\
    (forallb (fun kv => bigint_free (snd kv)) data = true ->
     forallb (fun kv => bigint_free (snd kv)) data' = true) /\
    (Forall (fun ns => plain_store (snd ns)) stores ->
     forallb (fun kv => plain (snd kv)) data = true ->
     forallb (fun kv => plain (snd kv)) data' = true).
Proof.
  induction stores as [|[n0 s0] stores IH]; intros data Hnd Hall;
    cbn [backup_stores].
  - exists data. split; [reflexivity|]. split; [reflexivity|].
    split; [reflexivity|]. split; [intros H; exact H|].
    split; [intros H; exact H|intros _ H; exact H].
  - inversion Hnd as [|? ? Hfresh Hnd']; subst.
    inversion Hall as [|? ? H0 Hall']; subst. cbn [snd] in H0.
    rewrite (cursor_loop_blob_free _ [] H0).
    cbn [app]. fold (spread_records s0).
    destruct (IH (assign n0 (VArr (spread_records s0)) data) Hnd' Hall')
      as (data' & E & Ha & Hproto & Ho & Hb & Hp).
    exists data'. split; [exact E|]. split; [|split; [|split; [|split]]].
    + intros n Hn. rewrite (Ha n Hn). cbn [assoc].
      destruct (String.eqb_spec n n0) as [->|Hne].
      * destruct (assoc n0 stores) eqn:Es.
        { exfalso. apply Hfresh. apply assoc_In in Es.
          apply (in_map fst) in Es. exact Es. }
        apply assoc_assign_same. exact Hn.
      * destruct (assoc n stores); [reflexivity|].
        apply assoc_assign_other. exact Hne.
    + rewrite Hproto. apply assoc_assign_proto.
    + intros H. apply Ho. apply order_assign. exact H.
    + intros H. apply Hb. apply forallb_assign; [exact H|].
      apply blob_free_spread. exact H0.
    + intros Hplain H. inversion Hplain as [|? ? P0 Pall]; subst.
      cbn [snd] in P0. apply (Hp Pall).
      apply forallb_assign; [exact H|].
      cbn [plain]. apply plain_spread. exact P0.
Qed.

Lemma backup_dbs_blob_free (dbs0 : databases) :
  forall (dbNames : list string) data (w : world),
  grown dbs0 (indexedDB w) ->
  (forall n d, In n dbNames -> assoc n dbs0 = Some d -> blob_free_database d) ->
  exists data' w',
    backup_dbs dbNames data w = (Resolved data', w') /\
    (forall n, In n dbNames -> n <> "__proto__" ->
       exists stores, assoc n data' = Some (VObj stores) /\
                      backed_up dbs0 n stores) /\
    (forall n, ~ In n dbNames -> assoc n data' = assoc n data) /\
    assoc "__proto__" data' = assoc "__proto__" data /\
    (forall n, In n (keys data') -> In n (keys data) \/ In n dbNames) /\
    (enumeration_order (keys data) = true ->
     enumeration_order (keys data') = true) /\
    (forallb (fun kv => bigint_free (snd kv)) data = true ->
     forallb (fun kv => bigint_free (snd kv)) data' = true) /\
    ((forall n d, In n dbNames -> assoc n dbs0 = Some d -> plain_database d) ->
     forallb (fun kv => plain (snd kv)) data = true ->
     forallb (fun kv => plain (snd kv)) data' = true).
Proof.
  induction dbNames as [|n0 rest IH]; intros data w Hg Hfree;
    cbn [backup_dbs].
  - exists data, w. split; [reflexivity|]. split; [intros n []|].
    split; [reflexivity|]. split; [reflexivity|].
    split; [intros n H; left; exact H|].
    split; [intros H; exact H|]. split; [intros H; exact H|].
    intros _ H; exact H.
  - assert (Hopen : exists db w1,
              _openDB n0 None [] w = (Ok db, w1) /\
              grown dbs0 (indexedDB w1) /\
              (assoc n0 dbs0 = Some db \/
               (assoc n0 dbs0 = None /\ db = mkDb 1 []))).
    { unfold _openDB, IDB.open.
      destruct (assoc n0 (indexedDB w)) as [d|] eqn:Ed.
      - exists d, w. split; [reflexivity|]. split; [exact Hg|].
        destruct (Hg n0) as [E|[E1 E2]].
        + left. congruence.
        + right. split; [exact E1|congruence].
      - cbn [ensure_stores]. eexists _, _. split; [reflexivity|]. split.
        + intros n. cbn [set_db with_dbs logs indexedDB].
          destruct (String.eqb_spec n n0) as [->|Hne].
          * right. split; [|apply assoc_set_same].
            destruct (Hg n0) as [E|[E1 E2]]; congruence.
          * rewrite assoc_set_other by exact Hne. apply Hg.
        + right. split; [|reflexivity].
          destruct (Hg n0) as [E|[E1 E2]]; congruence. }
    destruct Hopen as (db & w1 & Eo & Hg1 & Hdb). rewrite Eo.
    assert (Hstores : exists stores,
              backup_stores (objectStores db) [] = Some stores /\
              backed_up dbs0 n0 stores /\
              forallb (fun kv => bigint_free (snd kv)) stores = true /\
              ((forall n d, In n (n0 :: rest) -> assoc n dbs0 = Some d ->
                  plain_database d) ->
               enumeration_order (keys stores) = true /\
               forallb (fun kv => plain (snd kv)) stores = true)).
    { destruct Hdb as [Ed|[Ed ->]].
      - destruct (Hfree n0 db (or_introl eq_refl) Ed) as [Hnd Hall].
        destruct (backup_stores_blob_free _ [] Hnd Hall)
          as (stores & E & Ha & Hproto & Ho & Hb & Hp).
        exists stores. split; [exact E|]. split; [|split].
        + split; [exact (Ho eq_refl)|]. split; [exact Hproto|].
          intros sn Hsn. rewrite (Ha sn Hsn), Ed.
          destruct (assoc sn (objectStores db)); reflexivity.
        + exact (Hb eq_refl).
        + intros Hplain. split; [exact (Ho eq_refl)|].
          exact (Hp (proj2 (Hplain n0 db (or_introl eq_refl) Ed)) eq_refl).
      - exists []. split; [reflexivity|]. split; [|split; [reflexivity|]].
        + split; [reflexivity|]. split; [reflexivity|].
          intros sn _. rewrite Ed. reflexivity.
        + intros _. split; reflexivity. }
    destruct Hstores as (stores & Es & Hb & Hbig & Hp0). rewrite Es.
    destruct (IH (assign n0 (VObj stores) data) w1 Hg1
                (fun n d Hin => Hfree n d (or_intror Hin)))
      as (data' & w' & E & Hin & Hout & Hproto & Hk & Ho & Hbf & Hp).
    exists data', w'. split; [exact E|].
    split; [|split; [|split; [|split; [|split; [|split]]]]].
    + intros n [<-|Hn] Hnp.
      * destruct (in_dec string_dec n0 rest) as [Hr|Hr];
          [exact (Hin _ Hr Hnp)|].
        exists stores. split; [|exact Hb].
        rewrite (Hout _ Hr). apply assoc_assign_same. exact Hnp.
      * exact (Hin _ Hn Hnp).
    + intros n Hn. rewrite Hout by (intros H; apply Hn; right; exact H).
      apply assoc_assign_other. intros ->. apply Hn. left. reflexivity.
    + rewrite Hproto. apply assoc_assign_proto.
    + intros n Hn. destruct (Hk n Hn) as [H|H].
      * apply keys_assign in H. destruct H as [->|H].
        { right. left. reflexivity. }
        { left. exact H. }
      * right. right. exact H.
    + intros H. apply Ho. apply order_assign. exact H.
    + intros H. apply Hbf. apply forallb_assign; [exact H|].
      cbn [bigint_free]. exact Hbig.
    + intros Hplain H.
      apply (Hp (fun n d Hin => Hplain n d (or_intror Hin))).
      apply forallb_assign; [exact H|].
      destruct (Hp0 Hplain) as [Q1 Q2]. cbn [plain]. rewrite Q1, Q2.
      reflexivity.
Qed.


End BackupOutput.

Section RestoreSucceeds.
Import JS IDB World IndexedDBBackupRestore Conditions.

Lemma put_items_ok (dbName storeName kp : string) :
  forall (items : list value) (s : objectStore),
  keyPath s = Some kp ->
  Forall (fun item => key_of kp item <> None) items ->
  exists s' ls, put_items dbName storeName items s = (Ok tt, s', ls).
Proof.
  induction items as [|item rest IH]; intros s Hkp Hall; cbn [put_items].
  - eexists _, _. reflexivity.
  - inversion Hall as [|? ? Hitem Hrest]; subst.
    destruct (key_of kp item) as [k0|] eqn:Ek0; [|contradiction].
    pose proof (key_of_restore_item kp item k0 Ek0) as Ek0'.
    destruct (restore_item item) as [item' ls0]. cbn [fst] in Ek0'.
    destruct (put_keyed kp item' k0 s Hkp Ek0') as [g ->].
    destruct (IH (with_records s g (insert_record k0 item' (records s)))
                Hkp Hrest) as (s' & ls & ->).
    eexists _, _. reflexivity.
Qed.

Lemma storable_transfer (dbStoresData : value) (names : list string)
  (db db1 : database) :
  storable dbStoresData names db ->
  (forall n, option_map keyPath (assoc n (objectStores db1))
             = option_map keyPath (assoc n (objectStores db))) ->
  storable dbStoresData names db1.
Proof.
  intros H Hs n Hn. destruct (H n Hn) as (items & Hget & Hcase).
  exists items. split; [exact Hget|].
  destruct Hcase as [->|(st & kp & Hst & Hkp & Hall)]; [left; reflexivity|].
  right. specialize (Hs n). rewrite Hst in Hs. cbn [option_map] in Hs.
  destruct (assoc n (objectStores db1)) as [st1|]; [|discriminate].
  cbn [option_map] in Hs. injection Hs as Hs.
  exists st1, kp. split; [reflexivity|]. split; [congruence|exact Hall].
Qed.

Lemma restore_stores_ok (dbName : string) (dbStoresData : value) :
  forall (names : list string) (db : database),
  storable dbStoresData names db ->
  exists db' ls, restore_stores dbName dbStoresData names db = (Ok tt, db', ls).
Proof.
  induction names as [|n0 rest IH]; intros db H; cbn [restore_stores].
  - eexists _, _. reflexivity.
  - assert (Hrest : storable dbStoresData rest db)
      by (intros n Hn; apply H; right; exact Hn).
    destruct (H n0 (or_introl eq_refl)) as (items & Hget & Hcase).
    rewrite Hget.
    destruct Hcase as [->|(st & kp & Hst & Hkp & Hall)].
    { cbn [truthy negb orb length_is_zero List.length Nat.eqb].
      exact (IH db Hrest). }
    destruct items as [|i0 items'].
    { cbn [truthy negb orb length_is_zero List.length Nat.eqb].
      exact (IH db Hrest). }
    cbn [truthy negb orb length_is_zero List.length Nat.eqb].
    rewrite Hst. cbn [iterate].
    destruct (put_items_ok dbName n0 kp _ st Hkp Hall) as (s1 & ls1 & Ep).
    rewrite Ep.
    destruct (put_items_schema _ _ _ _ _ _ _ Ep) as [Hkp1 _].
    assert (Hrest1 : storable dbStoresData rest (set_store n0 s1 db)).
    { apply (storable_transfer _ _ db); [exact Hrest|].
      intros n. cbn [set_store objectStores].
      destruct (String.eqb_spec n n0) as [->|Hne].
      - rewrite assoc_set_same, Hst. cbn [option_map]. congruence.
      - rewrite assoc_set_other by exact Hne. reflexivity. }
    destruct (IH _ Hrest1) as (db' & ls & ->).
    eexists _, _. reflexivity.
Qed.

Lemma restore_dbs_ok (parsedData : value) :
  forall (names : list string) (w : world),
  NoDup names ->
  restorable parsedData names (indexedDB w) ->
  exists w2,
    restore_dbs parsedData names w = (Resolved tt, w2) /\
    forall n dt,
      In n names -> assoc n (indexedDB w) = Some dt ->
      exists d2,
        assoc n (indexedDB w2) = Some d2 /\
        forall sn, option_map keyPath (assoc sn (objectStores d2))
                   = option_map keyPath (assoc sn (objectStores dt)).
Proof.
  induction names as [|n0 rest IH]; intros w Hnd H; cbn [restore_dbs].
  - exists w. split; [reflexivity|]. intros n dt [].
  - inversion Hnd as [|? ? Hfresh Hnd']; subst.
    destruct (H n0 (or_introl eq_refl))
      as (storeNames & dt0 & Eh & Ek & Ed & Ev & Hs).
    rewrite Eh. unfold restore_db.
    rewrite Ek. unfold _openDB, IDB.open. rewrite Ed, Ev.
    cbn [Z.ltb Z.eqb Z.compare Pos.compare Pos.compare_cont Pos.eqb].
    destruct (restore_stores_ok n0 (get parsedData n0) storeNames dt0 Hs)
      as (db' & ls & Es).
    rewrite Es.
    destruct (restore_stores_frame _ _ _ _ _ _ _ Es) as (_ & _ & Hschema).
    set (w2 := set_db n0 db' (logs ls w)).
    assert (Hrest : restorable parsedData rest (indexedDB w2)).
    { intros n Hn.
      destruct (H n (or_intror Hn)) as (sn & dt & A0 & A & B & C & D).
      exists sn, dt. split; [exact A0|]. split; [exact A|].
      split; [|split; [exact C|exact D]].
      subst w2. cbn [set_db with_dbs logs indexedDB].
      rewrite assoc_set_other; [exact B|].
      intros ->. contradiction. }
    destruct (IH w2 Hnd' Hrest) as (w3 & E3 & Hfin).
    exists w3. split; [exact E3|].
    intros n dt [<-|Hn] Hdt.
    + rewrite Ed in Hdt. injection Hdt as <-.
      exists db'. split; [|exact Hschema].
      rewrite (restore_dbs_frame _ _ _ _ _ _ E3 Hfresh).
      subst w2. cbn [set_db with_dbs logs indexedDB]. apply assoc_set_same.
    + apply (Hfin n dt Hn). subst w2. cbn [set_db with_dbs logs indexedDB].
      rewrite assoc_set_other; [exact Hdt|].
      intros ->. contradiction.
Qed.

End RestoreSucceeds.

Section RoundTrip.
Import JS IDB World IndexedDBBackupRestore Conditions.

Lemma lookup_record_In (k : key) (r : value) (l : list (key * value)) :
  lookup_record k l = Some r -> In (k, r) l.
Proof.
  induction l as [|[k' v] l IH]; cbn [lookup_record]; [discriminate|].
  destruct (key_eqb k k') eqn:E.
  - apply key_eqb_eq in E. subst k'. intros [= ->]. left. reflexivity.
  - intros H. right. exact (IH H).
Qed.

Lemma plain_store_keyed (s : objectStore) (kp : string) :
  keyPath s = Some kp -> plain_store s ->
  keyed kp (map snd (records s)) /\
  forall k r, In (k, r) (records s) ->
    plain_record r = true /\ key_of kp r = Some k.
Proof.
  intros Hkp (_ & Hc & Hplain).
  pose proof (coherent_NoDup s Hc) as Hnd.
  pose proof (proj2 Hc kp Hkp) as Hall.
  rewrite Forall_forall in Hall, Hplain. split; [split|].
  - apply Forall_forall. intros item Hin.
    apply in_map_iff in Hin. destruct Hin as ([k r] & <- & Hin).
    pose proof (Hall _ Hin) as Hk. cbn [snd fst] in *. congruence.
  - assert (E : map (key_of kp) (map snd (records s))
                = map Some (map fst (records s))).
    { rewrite !map_map. apply map_ext_in. intros [k r] Hin.
      exact (Hall _ Hin). }
    rewrite E. clear E Hall Hplain Hc.
    induction Hnd as [|k l Hnot Hnd IH]; [constructor|].
    cbn [map]. constructor; [|exact IH].
    intros Hin. apply in_map_iff in Hin.
    destruct Hin as (k' & [= ->] & Hin). contradiction.
  - intros k r Hin. split; [exact (Hplain _ Hin)|exact (Hall _ Hin)].
Qed.

Lemma plain_database_store (d : database) (sn : string) (s : objectStore) :
  plain_database d -> assoc sn (objectStores d) = Some s -> plain_store s.
Proof.
  intros [_ Hall] Hs. rewrite Forall_forall in Hall.
  exact (Hall _ (assoc_In _ _ _ Hs)).
Qed.

(** C1, as amended.  Take databases whose stores have a key path, are
    coherent (records in key order, each under the key its key path reads:
    the invariant that put, add and clear keep) and hold plain records
    (JSON data only, no marked object), none of the configured names being
    [hasOwnProperty], and a target that has each configured database at
    version 1 with stores of the same names and key paths.  Then [backup]
    resolves, [restore] of its JSON resolves on the target, and every record
    of the configured databases is then in the store of its name, under its
    key, with equal fields; but for a database or a store named
    [__proto__], which [backup] leaves out. *)
Theorem backup_then_restore_reinstates (dbNames : list string)
  (w target : world) :
  ~ In "hasOwnProperty" dbNames ->
  (forall n d, In n dbNames -> assoc n (indexedDB w) = Some d ->
     plain_database d) ->
  (forall n, In n dbNames ->
     exists dt,
       assoc n (indexedDB target) = Some dt /\ version dt = 1 /\
       forall d, assoc n (indexedDB w) = Some d -> receives dt d) ->
  exists t w1 w2,
    backup dbNames w = (Resolved t, w1) /\
    restore t target = (Resolved tt, w2) /\
    forall n d sn s k r,
      In n dbNames -> n <> "__proto__" ->
      assoc n (indexedDB w) = Some d ->
      sn <> "__proto__" ->
      assoc sn (objectStores d) = Some s ->
      lookup_record k (records s) = Some r ->
      exists d2 s2,
        assoc n (indexedDB w2) = Some d2 /\
        assoc sn (objectStores d2) = Some s2 /\
        lookup_record k (records s2) = Some r.
Proof.
  intros Hhop Hplain Htarget.
  destruct (backup_dbs_blob_free (indexedDB w) dbNames [] w
              (fun n => or_introl eq_refl)
              (fun n d Hn Hd => plain_database_blob_free d (Hplain n d Hn Hd)))
    as (data & w' & E & Hin & _ & Hproto & Hk & Ho & _ & Hp0).
  pose proof (Hp0 Hplain eq_refl) as Hp.
  pose proof (Ho eq_refl) as Hord.
  assert (Hpl : plain (VObj data) = true)
    by (cbn [plain]; rewrite Hord, Hp; reflexivity).
  destruct (plain_parse (VObj data) Hpl) as (t & Et & Hparse).
  assert (Hnames : forall n, In n (keys data) -> In n dbNames).
  { intros n Hn. destruct (Hk n Hn) as [[]|H]. exact H. }
  assert (Hnp : forall n, In n (keys data) -> n <> "__proto__").
  { intros n Hn ->. apply (proj1 (assoc_None "__proto__" data)); [|exact Hn].
    exact Hproto. }
  assert (Hown : forall n, In n (keys data) ->
            hasOwnProperty (VObj data) n = Ok true).
  { intros n Hn. cbn [hasOwnProperty].
    destruct (assoc "hasOwnProperty" data) eqn:Eh.
    - exfalso. apply Hhop, Hnames.
      apply assoc_In in Eh. apply (in_map fst) in Eh. exact Eh.
    - f_equal. apply existsb_exists. exists n.
      split; [exact Hn|apply String.eqb_refl]. }
  assert (Hres : restorable (VObj data) (keys data) (indexedDB target)).
  { intros n Hn. pose proof (Hnames n Hn) as Hn'.
    destruct (Hin n Hn' (Hnp n Hn)) as (stores & Es & Hord' & Hsp & Hsn).
    destruct (Htarget n Hn') as (dt & Edt & Ev & Hrec).
    exists (keys stores), dt.
    assert (Eget : get (VObj data) n = VObj stores)
      by (unfold get; cbn [own_properties]; rewrite Es; reflexivity).
    rewrite Eget. split; [exact (Hown n Hn)|]. split; [reflexivity|].
    split; [exact Edt|]. split; [exact Ev|].
    intros sn Hsn_in.
    assert (Hsnp : sn <> "__proto__").
    { intros ->. apply (proj1 (assoc_None "__proto__" stores)); [|exact Hsn_in].
      exact Hsp. }
    destruct (assoc sn stores) as [x|] eqn:Ex.
    2:{ exfalso. apply assoc_None in Ex. contradiction. }
    rewrite (Hsn sn Hsnp) in Ex.
    destruct (assoc n (indexedDB w)) as [d|] eqn:Ed; [|discriminate].
    destruct (assoc sn (objectStores d)) as [s|] eqn:Es0; [|discriminate].
    injection Ex as <-.
    pose proof (plain_database_store d sn s (Hplain n d Hn' Ed) Es0) as Hps.
    exists (map snd (records s)). split.
    - unfold get. cbn [own_properties]. rewrite (Hsn sn Hsnp), Es0.
      rewrite (proj2 (plain_store_blob_free s Hps)). reflexivity.
    - right. destruct (Hrec d eq_refl sn s Es0) as (st & Est & Ekp).
      destruct (proj1 Hps) as (kp & Hkp).
      exists st, kp. split; [exact Est|]. split; [congruence|].
      exact (proj1 (proj1 (plain_store_keyed s kp Hkp Hps))). }
  destruct (restore_dbs_ok (VObj data) (keys data) target
              (order_NoDup _ Hord) Hres)
    as (w2 & E2 & Hfin).
  exists t, w', w2.
  split; [unfold backup; rewrite E, Et; reflexivity|]. split.
  { unfold restore. rewrite Hparse. exact E2. }
  intros n d sn s k r Hn Hnproto Ed Hsnproto Es Hlook.
  destruct (Hin n Hn Hnproto) as (stores & Estores & Hord' & Hsp & Hsn).
  assert (Hn_key : In n (keys data)).
  { apply assoc_In in Estores. apply (in_map fst) in Estores. exact Estores. }
  destruct (Htarget n Hn) as (dt & Edt & Ev & Hrec).
  destruct (Hfin n dt Hn_key Edt) as (d2 & Ed2 & Hschema).
  destruct (Hrec d Ed sn s Es) as (st & Est & Ekp).
  pose proof (Hschema sn) as Hsch. rewrite Est in Hsch. cbn [option_map] in Hsch.
  destruct (assoc sn (objectStores d2)) as [s2|] eqn:Es2; [|discriminate].
  cbn [option_map] in Hsch. injection Hsch as Hkp2.
  exists d2, s2. split; [exact Ed2|]. split; [exact Es2|].
  pose proof (plain_database_store d sn s (Hplain n d Hn Ed) Es) as Hps.
  destruct (proj1 Hps) as (kp & Hkp).
  destruct (plain_store_keyed s kp Hkp Hps) as [Hkeyed Hrecs].
  destruct (Hrecs k r (lookup_record_In _ _ _ Hlook)) as [Hpr Hkr].
  pose proof (restore_dbs_installs (VObj data) (keys data) target w2 E2
                n d2 sn s2 Hn_key Hn_key Ed2 Es2) as Hinst.
  assert (Eget : get (get (VObj data) n) sn = VArr (map snd (records s))).
  { unfold get. cbn [own_properties]. rewrite Estores. cbn [own_properties].
    rewrite (Hsn sn Hsnproto), Ed, Es.
    rewrite (proj2 (plain_store_blob_free s Hps)). reflexivity. }
  rewrite (Hinst kp (map snd (records s)) r k
             ltac:(congruence) Eget Hkeyed
             (in_map snd _ _ (lookup_record_In _ _ _ Hlook)) Hkr).
  destruct (plain_record_facts r Hpr) as (fs & _ & _ & _ & -> & _).
  reflexivity.
Qed.


Lemma backup_then_restore_reinstates_witness :
  exists t w1 w2,
    backup ["shelf"] Samples.library = (Resolved t, w1) /\
    restore t Samples.library_emptied = (Resolved tt, w2) /\
    exists d2 s2,
      assoc "shelf" (indexedDB w2) = Some d2 /\
      assoc "books" (objectStores d2) = Some s2 /\
      lookup_record (KNum 2) (records s2)
      = Some (VObj [("id", VNum 2); ("title", VStr "Persuasion");
                    ("tags", VArr [VStr "novel"; VNull])]).
Proof.
  destruct (backup_then_restore_reinstates ["shelf"] Samples.library
              Samples.library_emptied)
    as (t & w1 & w2 & Hbackup & Hrun & Hrec).
  - intros [H|[]]. discriminate H.
  - intros n d [<-|[]] E. injection E as <-. split.
    + repeat constructor; intros [].
    + constructor; [|constructor]. cbn [snd].
      split; [exists "id"; reflexivity|]. split; [split|].
      * repeat constructor.
      * intros kp0 Hkp0. injection Hkp0 as <-. repeat constructor.
      * repeat constructor.
  - intros n [<-|[]]. eexists. split; [reflexivity|]. split; [reflexivity|].
    intros d E. injection E as <-. intros sn s Hs.
    cbn [Samples.library objectStores assoc] in Hs.
    destruct (String.eqb sn "books") eqn:Esn; [|discriminate].
    injection Hs as <-. eexists. cbn [Samples.library_emptied objectStores assoc].
    rewrite Esn. split; reflexivity.
  - exists t, w1, w2. split; [exact Hbackup|]. split; [exact Hrun|].
    refine (Hrec "shelf" _ "books" _ (KNum 2) _ (or_introl eq_refl)
              _ eq_refl _ eq_refl eq_refl); discriminate.
Defined.

(** C1 as stated fails: the record that [storeImage] writes has a Date in
    [timestamp], and after [backup] and [restore] the field holds the
    string that JSON wrote for it. *)
Lemma timestamp_comes_back_as_string :
  let w := snd Samples.dropped in
  exists t w1 w2 d s r,
    backup Page.DB_NAMES w = (Resolved t, w1) /\
    restore t w1 = (Resolved tt, w2) /\
    assoc "windowImage" (indexedDB w2) = Some d /\
    assoc "images" (objectStores d) = Some s /\
    lookup_record (KStr "current-image") (records s) = Some r /\
    get r "timestamp" = VStr Samples.noon /\
    (exists d0 s0 r0,
       assoc "windowImage" (indexedDB w) = Some d0 /\
       assoc "images" (objectStores d0) = Some s0 /\
       lookup_record (KStr "current-image") (records s0) = Some r0 /\
       get r0 "timestamp" = VDate Samples.noon).
Proof.
  cbv zeta. eexists _, _, _, _, _, _.
  split; [reflexivity|]. split; [reflexivity|]. split; [reflexivity|].
  split; [reflexivity|]. split; [reflexivity|]. split; [reflexivity|].
  eexists _, _, _. repeat split.
Qed.


(** The conditions of the round trip are needed.  [restore] opens every
    database with version 1, so a database that has been upgraded refuses
    it; and a record of a store without key path cannot be put back without
    its key. *)
Example restore_refuses_upgraded_database :
  exists t w1 e w2,
    backup ["shelf"] Samples.library = (Resolved t, w1) /\
    restore t Samples.library_v2 = (Rejected e, w2) /\
    indexedDB w2 = indexedDB Samples.library_v2.
Proof. eexists _, _, _, _. repeat split. Qed.

Example restore_cannot_put_without_key :
  exists t w1 e w2,
    backup ["ledger"] Samples.ledger = (Resolved t, w1) /\
    restore t w1 = (Rejected e, w2).
Proof. eexists _, _, _, _. repeat split. Qed.

(** In a profile without the database, [restore] creates it, with stores
    of key path [id], and fills them. *)
Example restore_into_fresh_profile :
  exists t w1 w2 d s,
    backup ["shelf"] Samples.library = (Resolved t, w1) /\
    restore t Samples.empty_world = (Resolved tt, w2) /\
    assoc "shelf" (indexedDB w2) = Some d /\
    assoc "books" (objectStores d) = Some s /\
    records s = records
                  (mkStore (Some "id") true 3
                     [(KNum 1, VObj [("id", VNum 1); ("title", VStr "Emma")]);
                      (KNum 2, VObj [("id", VNum 2);
                                     ("title", VStr "Persuasion");
                                     ("tags", VArr [VStr "novel"; VNull])])]).
Proof. eexists _, _, _, _, _. repeat split. Qed.

(** The names that the round trip leaves aside.  [backup] writes no
    member for a database or a store named [__proto__]; a member named
    [hasOwnProperty] makes [restore] fail before it opens a database; and a
    name that is an array index comes first in the JSON. *)
Example proto_is_left_out :
  exists w1,
    backup ["b"; "__proto__"; "7"] States.odd_names
    = (Resolved (Doc (JObj [("7", JObj []); ("b", JObj [])])), w1).
Proof. eexists. reflexivity. Qed.

Example hasOwnProperty_is_not_restored :
  exists t w1 m,
    backup ["hasOwnProperty"] States.odd_names = (Resolved t, w1) /\
    restore t w1 = (Rejected (TypeError m), w1).
Proof. eexists _, _, _. split; reflexivity. Qed.

(** A record with a BigInt has no JSON: [backup] rejects. *)
Example backup_rejects_bigint :
  exists m w1,
    backup ["counts"] States.big_count = (Rejected (TypeError m), w1).
Proof. eexists _, _. reflexivity. Qed.

End RoundTrip.

(* ================================================================== *)
(** * RotatingDate: the digits and their rotation *)
(* ================================================================== *)

Section RotatingDateFacts.
Import RotatingDate.

Lemma number_eq_dec (a b : number) : {a = b} + {a <> b}.
Proof. decide equality. apply Z.eq_dec. Defined.

Lemma split_at (A : Type) (a : list A) :
  forall j, (j < List.length a)%nat ->
  exists x, skipn j a = x :: skipn (S j) a /\
            firstn (S j) a = (firstn j a ++ [x])%list.
Proof.
  induction a as [|h a IH]; intros j Hj; [simpl in Hj; lia|].
  destruct j as [|j].
  - exists h. split; reflexivity.
  - cbn [List.length] in Hj. destruct (IH j ltac:(lia)) as (x & E1 & E2).
    exists x. split; [exact E1|].
    change (firstn (S (S j)) (h :: a)) with (h :: firstn (S j) a).
    rewrite E2. reflexivity.
Qed.

Lemma rotate_once (A : Type) (a : list A) (j : nat) :
  (j < List.length a)%nat ->
  match (skipn j a ++ firstn j a)%list with
  | [] => []
  | firstElement :: rest => (rest ++ [firstElement])%list
  end
  = (skipn (S j) a ++ firstn (S j) a)%list.
Proof.
  intros Hj. destruct (split_at A a j Hj) as (x & E1 & E2).
  rewrite E1, E2. cbn [app]. rewrite <- app_assoc. reflexivity.
Qed.

Lemma succ_mod (k n : nat) :
  (0 < n)%nat ->
  (S k mod n = if Nat.eqb (S (k mod n)) n then 0 else S (k mod n))%nat.
Proof.
  intros Hn.
  pose proof (Nat.mod_upper_bound k n ltac:(lia)) as Hb.
  pose proof (Nat.div_mod_eq k n) as Hk.
  destruct (Nat.eqb_spec (S (k mod n)) n) as [E|E].
  - symmetry. apply (Nat.mod_unique _ _ (S (k / n))); [lia|]. nia.
  - symmetry. apply (Nat.mod_unique _ _ (k / n)); [lia|]. nia.
Qed.

Lemma rotateNumbers_iter (r : instance) (k : nat) :
  dateArray r <> [] ->
  dateArray (Nat.iter k callback r)
  = (skipn (k mod List.length (dateArray r)) (dateArray r)
     ++ firstn (k mod List.length (dateArray r)) (dateArray r))%list.
Proof.
  intros Hne.
  assert (Hn : (0 < List.length (dateArray r))%nat).
  { destruct (dateArray r); [congruence|simpl; lia]. }
  induction k as [|k IH].
  - rewrite Nat.Div0.mod_0_l. change (Nat.iter 0 callback r) with r.
    cbn [skipn firstn].
    rewrite app_nil_r. reflexivity.
  - rewrite Nat.iter_succ. unfold callback at 1.
    assert (Hu : forall q, dateArray (updateDisplay q) = dateArray q).
    { intros q. unfold updateDisplay. destruct (divElement q); reflexivity. }
    rewrite Hu. unfold rotateNumbers. cbn [dateArray]. rewrite IH.
    pose proof (Nat.mod_upper_bound k (List.length (dateArray r)) ltac:(lia))
      as Hb.
    assert (Hrot := rotate_once _ (dateArray r) _ Hb).
    destruct (skipn (k mod List.length (dateArray r)) (dateArray r)
                ++ firstn (k mod List.length (dateArray r)) (dateArray r))%list
      as [|x rest] eqn:E.
    + exfalso. apply (f_equal (@List.length _)) in E.
      rewrite length_app, length_skipn, length_firstn in E. simpl in E. lia.
    + rewrite (succ_mod k _ Hn).
      etransitivity; [exact Hrot|].
      destruct (Nat.eqb_spec (S (k mod List.length (dateArray r)))
                  (List.length (dateArray r))) as [E1|E1].
      * rewrite E1, skipn_all, firstn_all. cbn [skipn firstn app].
        rewrite app_nil_r. reflexivity.
      * reflexivity.
Qed.

Lemma callback_keeps (r : instance) :
  timers (callback r) = timers r /\
  divElement (callback r)
  = option_map (fun _ => getCurrentDateString (callback r)) (divElement r).
Proof.
  destruct r as [a [e|] i t n]; split; reflexivity.
Qed.

Lemma callback_iter_keeps (r : instance) (k : nat) :
  timers (Nat.iter k callback r) = timers r /\
  (divElement (Nat.iter k callback r) = None <-> divElement r = None).
Proof.
  induction k as [|k [IH1 IH2]]; [split; reflexivity|].
  rewrite Nat.iter_succ.
  destruct (callback_keeps (Nat.iter k callback r)) as [H1 H2].
  split; [congruence|]. rewrite H2.
  destruct (divElement (Nat.iter k callback r)); cbn [option_map].
  - split; intros H; [discriminate|]. apply (proj2 IH2) in H. discriminate.
  - split; intros _; [apply (proj1 IH2)|]; reflexivity.
Qed.

Lemma callback_iter_display (r : instance) (k : nat) :
  divElement (Nat.iter (S k) callback r)
  = option_map (fun _ => getCurrentDateString (Nat.iter (S k) callback r))
      (divElement r).
Proof.
  rewrite Nat.iter_succ.
  rewrite (proj2 (callback_keeps (Nat.iter k callback r))).
  destruct (callback_iter_keeps r k) as [_ Hiff].
  destruct (divElement (Nat.iter k callback r)), (divElement r);
    cbn [option_map]; try reflexivity.
  - pose proof (proj2 Hiff eq_refl). discriminate.
  - pose proof (proj1 Hiff eq_refl). discriminate.
Qed.

Lemma constructor_not_empty (d : date) (element : option string) :
  (5 <= List.length (dateArray (constructor d element)))%nat.
Proof.
  unfold constructor. cbn [dateArray].
  rewrite length_map, !length_app.
  assert (Hpad : forall s,
            (2 <= List.length (list_ascii_of_string (padStart 2 "0" s)))%nat).
  { intros s. unfold padStart.
    assert (Happ : forall a b,
              list_ascii_of_string (a ++ b)
              = (list_ascii_of_string a ++ list_ascii_of_string b)%list).
    { induction a as [|c a IHa]; intros b; [reflexivity|].
      cbn [append list_ascii_of_string app]. rewrite IHa. reflexivity. }
    assert (Hlen : List.length (list_ascii_of_string s) = String.length s).
    { induction s as [|c s IHs]; [reflexivity|]. simpl. rewrite IHs.
      reflexivity. }
    rewrite Happ, list_ascii_of_string_of_list_ascii, length_app,
      repeat_length, Hlen. lia. }
  pose proof (Hpad (String_of (getDate d))).
  pose proof (Hpad (String_of (plus_one (getMonth d)))).
  assert (1 <= List.length (list_ascii_of_string (String_of (getFullYear d))))%nat.
  { destruct d as [|fy m dd]; cbn [getFullYear String_of]; [simpl; lia|].
    destruct (Z.to_int fy) as [u|u]; cbn [NilZero.string_of_int].
    - destruct u; simpl; lia.
    - simpl. lia. }
  lia.
Qed.

Lemma startRotation_constructor (d : date) (element : option string) :
  let s0 := startRotation (constructor d element) in
  dateArray s0 = dateArray (constructor d element) /\
  timers s0 = [0%nat] /\
  divElement s0 = option_map (fun _ => getCurrentDateString s0) element.
Proof. destruct element; repeat split; reflexivity. Qed.

(** X2.  After [startRotation()], when [k] seconds have passed, the array
    is the one of the constructor rotated to the left by [k mod n] places,
    [n] being its length; the element, on a page that has one, shows that
    array; and whenever [k] is a multiple of [n] the digits stand as the
    constructor wrote them. *)
Theorem rotation_comes_round (d : date) (element : option string) (k : nat) :
  let r0 := constructor d element in
  let n := List.length (dateArray r0) in
  let r := Nat.iter k second (startRotation r0) in
  dateArray r
  = (skipn (k mod n) (dateArray r0) ++ firstn (k mod n) (dateArray r0))%list /\
  divElement r = option_map (fun _ => getCurrentDateString r) element /\
  ((k mod n = 0)%nat -> getCurrentDateString r = getCurrentDateString r0).
Proof.
  intros r0 n r.
  pose proof (constructor_not_empty d element) as Hlen. fold r0 in Hlen.
  fold n in Hlen.
  set (s0 := startRotation r0).
  destruct (startRotation_constructor d element) as (Ha0 & Ht0 & Hd0).
  fold r0 in Ha0, Ht0, Hd0. fold s0 in Ha0, Ht0, Hd0.
  assert (Hsec : forall j, Nat.iter j second s0 = Nat.iter j callback s0).
  { induction j as [|j IHj]; [reflexivity|].
    rewrite !Nat.iter_succ, IHj. unfold second.
    rewrite (proj1 (callback_iter_keeps s0 j)), Ht0. reflexivity. }
  assert (Hne : dateArray s0 <> []).
  { rewrite Ha0. intros E. unfold n in Hlen. rewrite E in Hlen.
    simpl in Hlen. lia. }
  assert (Harr : dateArray r
                 = (skipn (k mod n) (dateArray r0)
                    ++ firstn (k mod n) (dateArray r0))%list).
  { unfold r. fold s0. rewrite Hsec, (rotateNumbers_iter s0 k Hne), Ha0.
    reflexivity. }
  split; [exact Harr|]. split.
  - unfold r. fold s0. rewrite Hsec.
    destruct k as [|k]; [exact Hd0|].
    rewrite (callback_iter_display s0 k), Hd0.
    generalize (getCurrentDateString (Nat.iter (S k) callback s0)).
    generalize (getCurrentDateString s0).
    intros x y. clear. destruct element; reflexivity.
  - intros Hk. unfold getCurrentDateString. rewrite Harr, Hk.
    cbn [skipn firstn]. rewrite app_nil_r. reflexivity.
Qed.

Lemma startRotation_timers (r : instance) :
  Forall (fun t => (t < nextTimer r)%nat) (timers r) ->
  NoDup (timers r) ->
  let r' := startRotation r in
  Forall (fun t => (t < nextTimer r')%nat) (timers r') /\
  NoDup (timers r') /\
  timers r' = nextTimer r :: timers r /\
  intervalId r' = Some (nextTimer r).
Proof.
  intros Hall Hnd.
  assert (Hu : timers (updateDisplay r) = timers r
               /\ nextTimer (updateDisplay r) = nextTimer r).
  { unfold updateDisplay. destruct (divElement r); split; reflexivity. }
  destruct Hu as [Hu1 Hu2].
  unfold startRotation. cbn [timers nextTimer intervalId].
  rewrite Hu1, Hu2. split; [|split; [|split; reflexivity]].
  - constructor; [lia|]. eapply Forall_impl; [|exact Hall].
    intros t Ht. cbn beta in Ht. lia.
  - constructor; [|exact Hnd]. intros Hin.
    rewrite Forall_forall in Hall. specialize (Hall _ Hin). lia.
Qed.

(** X3.  [stopRotation()] stops the timer of the last [startRotation()]
    only: after [startRotation()] has been called [n + 1] times in a row,
    [n] timers are still running after [stopRotation()], so the digits go
    on rotating [n] places every second. *)
Theorem stopRotation_stops_last_timer_only (d : date)
  (element : option string) (n : nat) :
  let r := stopRotation (Nat.iter (S n) startRotation (constructor d element)) in
  List.length (timers r) = n /\
  dateArray (second r) = dateArray (Nat.iter n callback r).
Proof.
  intros r.
  assert (Hinv : forall m,
            let q := Nat.iter m startRotation (constructor d element) in
            Forall (fun t => (t < nextTimer q)%nat) (timers q) /\
            NoDup (timers q) /\ List.length (timers q) = m).
  { induction m as [|m (H1 & H2 & H3)].
    - split; [constructor|]. split; [constructor|reflexivity].
    - rewrite Nat.iter_succ.
      destruct (startRotation_timers _ H1 H2) as (A & B & C & _).
      split; [exact A|]. split; [exact B|]. rewrite C. simpl. rewrite H3.
      reflexivity. }
  destruct (Hinv n) as (H1 & H2 & H3).
  destruct (startRotation_timers _ H1 H2) as (A & B & C & D).
  assert (Hlen : List.length (timers r) = n).
  { unfold r, stopRotation. rewrite Nat.iter_succ. cbn [timers]. rewrite D, C.
    cbn [filter]. rewrite Nat.eqb_refl. cbn [negb].
    rewrite <- H3 at 2. f_equal.
    apply forallb_filter_id. apply forallb_forall. intros t Ht.
    rewrite Forall_forall in H1. specialize (H1 _ Ht).
    destruct (Nat.eqb_spec t (nextTimer
                (Nat.iter n startRotation (constructor d element))));
      [lia|reflexivity]. }
  split; [exact Hlen|]. unfold second. rewrite Hlen. reflexivity.
Qed.

Lemma two_digits (z : Z) :
  0 <= z <= 99 ->
  map Number_of (list_ascii_of_string (padStart 2 "0" (String_of (Int z))))
  = [Int (z / 10); Int (z mod 10)].
Proof.
  intros Hz.
  assert (Hall : forallb
            (fun i =>
               if list_eq_dec number_eq_dec
                    (map Number_of
                       (list_ascii_of_string
                          (padStart 2 "0" (String_of (Int (Z.of_nat i))))))
                    [Int (Z.of_nat i / 10); Int (Z.of_nat i mod 10)]
               then true else false)
            (seq 0 100) = true) by (vm_compute; reflexivity).
  rewrite forallb_forall in Hall.
  specialize (Hall (Z.to_nat z)).
  rewrite Z2Nat.id in Hall by lia.
  destruct (list_eq_dec number_eq_dec _ _) as [E|E]; [exact E|].
  assert (In (Z.to_nat z) (seq 0 100)) by (apply in_seq; lia).
  specialize (Hall H). discriminate.
Qed.

Lemma four_digits (z : Z) :
  1000 <= z <= 9999 ->
  map Number_of (list_ascii_of_string (String_of (Int z)))
  = [Int (z / 1000); Int (z / 100 mod 10); Int (z / 10 mod 10);
     Int (z mod 10)].
Proof.
  intros Hz.
  set (digits := [0; 1; 2; 3; 4; 5; 6; 7; 8; 9]).
  assert (Hall : forallb (fun a => forallb (fun b => forallb (fun c =>
            forallb (fun d =>
               if list_eq_dec number_eq_dec
                    (map Number_of
                       (list_ascii_of_string
                          (String_of (Int (1000 * a + 100 * b + 10 * c + d)))))
                    [Int a; Int b; Int c; Int d]
               then true else false)
            digits) digits) digits) (tl digits) = true)
    by (vm_compute; reflexivity).
  assert (Hdigit : forall q, 0 <= q <= 9 -> In q digits)
    by (intros q Hq; unfold digits; cbn [In]; lia).
  rewrite forallb_forall in Hall.
  specialize (Hall (z / 1000)
                ltac:(unfold digits; cbn [tl In];
                      Z.to_euclidean_division_equations; lia)).
  rewrite forallb_forall in Hall.
  specialize (Hall (z / 100 mod 10)
                ltac:(apply Hdigit; Z.to_euclidean_division_equations; lia)).
  rewrite forallb_forall in Hall.
  specialize (Hall (z / 10 mod 10)
                ltac:(apply Hdigit; Z.to_euclidean_division_equations; lia)).
  rewrite forallb_forall in Hall.
  specialize (Hall (z mod 10)
                ltac:(apply Hdigit; Z.to_euclidean_division_equations; lia)).
  replace (1000 * (z / 1000) + 100 * (z / 100 mod 10) + 10 * (z / 10 mod 10)
           + z mod 10) with z in Hall
    by (Z.to_euclidean_division_equations; lia).
  destruct (list_eq_dec number_eq_dec _ _) as [E|E]; [exact E|discriminate].
Qed.

(** X4.  For a date whose year has four digits, the constructor writes the
    eight digits of the day, of the month counted from 1 and of the year,
    each as a number, in this order. *)
Theorem constructor_writes_eight_digits (fullYear month day : Z)
  (element : option string) :
  1000 <= fullYear <= 9999 -> 0 <= month <= 11 -> 1 <= day <= 31 ->
  dateArray (constructor (LocalDate fullYear month day) element)
  = map (fun z => Some (Int z))
      [day / 10; day mod 10;
       (month + 1) / 10; (month + 1) mod 10;
       fullYear / 1000; fullYear / 100 mod 10; fullYear / 10 mod 10;
       fullYear mod 10].
Proof.
  intros Hy Hm Hd. unfold constructor.
  cbn [dateArray getDate getMonth getFullYear plus_one].
  rewrite <- (map_map Number_of (fun n => Some n)), !map_app.
  rewrite (two_digits day) by lia.
  rewrite (two_digits (month + 1)) by lia.
  rewrite (four_digits fullYear Hy). reflexivity.
Qed.

Lemma constructor_writes_eight_digits_witness :
  dateArray (constructor (LocalDate 2025 10 5) None)
  = map (fun z => Some (Int z)) [0; 5; 1; 1; 2; 0; 2; 5].
Proof.
  apply (constructor_writes_eight_digits 2025 10 5 None); lia.
Defined.

End RotatingDateFacts.

(* ================================================================== *)
(** * Rounding: it keeps the order and the numbers of binary64 *)
(* ================================================================== *)

Section DoubleFacts.
Import Double.
Local Open Scope Q_scope.

Lemma two_pos (z : Z) : 0 < 2 ^ z.
Proof. apply Qpower_0_lt. reflexivity. Qed.

Lemma two_plus (a b : Z) : 2 ^ (a + b) == 2 ^ a * 2 ^ b.
Proof. apply Qpower_plus. discriminate. Qed.

Lemma two_le (a b : Z) : (a <= b)%Z -> 2 ^ a <= 2 ^ b.
Proof. intros H. apply Qpower_le_compat_l; [exact H|discriminate]. Qed.

Lemma two_lt (a b : Z) : (a < b)%Z -> 2 ^ a < 2 ^ b.
Proof. intros H. apply Qpower_lt_compat_l; [exact H|reflexivity]. Qed.

Lemma two_lt_inv (a b : Z) : 2 ^ a < 2 ^ b -> (a < b)%Z.
Proof. intros H. apply (Qpower_lt_compat_l_inv 2); [exact H|reflexivity]. Qed.

Lemma two_Z (n : Z) : (0 <= n)%Z -> 2 ^ n == inject_Z (2 ^ n).
Proof. intros H. rewrite Zpower_Qpower by exact H. reflexivity. Qed.

Lemma two_minus (a b : Z) : 2 ^ (a - b) == 2 ^ a / 2 ^ b.
Proof.
  unfold Z.sub. rewrite two_plus, Qpower_opp. reflexivity.
Qed.

(** The binade of a positive number. *)
Lemma ilog2_spec (x : Q) :
  0 < x -> 2 ^ ilog2 x <= x /\ x < 2 ^ (ilog2 x + 1).
Proof.
  intros Hx. destruct x as [n d]. unfold ilog2. cbn [Qnum Qden].
  assert (Hn : (0 < n)%Z).
  { unfold Qlt in Hx. cbn in Hx. lia. }
  set (a := Z.log2 n). set (b := Z.log2 (Zpos d)).
  assert (Ha : (2 ^ a <= n < 2 ^ (a + 1))%Z).
  { pose proof (Z.log2_spec n Hn) as H. unfold a. rewrite <- Z.add_1_r in H.
    exact H. }
  assert (Hb : (2 ^ b <= Zpos d < 2 ^ (b + 1))%Z).
  { pose proof (Z.log2_spec (Zpos d) eq_refl) as H. unfold b.
    rewrite <- Z.add_1_r in H. exact H. }
  assert (Ha0 : (0 <= a)%Z) by apply Z.log2_nonneg.
  assert (Hb0 : (0 <= b)%Z) by apply Z.log2_nonneg.
  assert (Hx' : n # d == inject_Z n / inject_Z (Zpos d)).
  { rewrite Qmake_Qdiv. reflexivity. }
  assert (Hdpos : 0 < inject_Z (Zpos d)) by reflexivity.
  (* the two outer bounds *)
  assert (Hlow : 2 ^ (a - b - 1) < n # d).
  { rewrite Hx'. apply Qlt_shift_div_l; [exact Hdpos|].
    apply Qlt_le_trans with (2 ^ (a - b - 1) * 2 ^ (b + 1)).
    - apply Qmult_lt_l; [apply two_pos|].
      rewrite (two_Z (b + 1)) by lia. rewrite <- Zlt_Qlt. lia.
    - rewrite <- two_plus. replace (a - b - 1 + (b + 1))%Z with a by lia.
      rewrite (two_Z a) by lia. rewrite <- Zle_Qle. lia. }
  assert (Hhigh : n # d < 2 ^ (a - b + 1)).
  { rewrite Hx'. apply Qlt_shift_div_r; [exact Hdpos|].
    apply Qlt_le_trans with (2 ^ (a - b + 1) * 2 ^ b).
    - rewrite <- two_plus. replace (a - b + 1 + b)%Z with (a + 1)%Z by lia.
      rewrite (two_Z (a + 1)) by lia. rewrite <- Zlt_Qlt. lia.
    - apply Qmult_le_l; [apply two_pos|].
      rewrite (two_Z b) by lia. rewrite <- Zle_Qle. lia. }
  destruct (Qle_bool (2 ^ (a - b)) (n # d)) eqn:E.
  - apply Qle_bool_iff in E. split; [exact E|exact Hhigh].
  - split.
    + apply Qlt_le_weak. exact Hlow.
    + replace (a - b - 1 + 1)%Z with (a - b)%Z by lia.
      apply Qnot_le_lt. intros H. apply Qle_bool_iff in H. congruence.
Qed.

Lemma ilog2_unique (x : Q) (L : Z) :
  0 < x -> 2 ^ L <= x -> x < 2 ^ (L + 1) -> ilog2 x = L.
Proof.
  intros Hx H1 H2. destruct (ilog2_spec x Hx) as [S1 S2].
  assert (A : (L < ilog2 x + 1)%Z).
  { apply two_lt_inv. apply Qle_lt_trans with x; assumption. }
  assert (B : (ilog2 x < L + 1)%Z).
  { apply two_lt_inv. apply Qle_lt_trans with x; assumption. }
  lia.
Qed.

Lemma ilog2_mono (x y : Q) : 0 < x -> x <= y -> (ilog2 x <= ilog2 y)%Z.
Proof.
  intros Hx Hxy.
  assert (Hy : 0 < y) by (apply Qlt_le_trans with x; assumption).
  destruct (ilog2_spec x Hx) as [S1 _].
  destruct (ilog2_spec y Hy) as [_ T2].
  assert (A : (ilog2 x < ilog2 y + 1)%Z).
  { apply two_lt_inv. apply Qle_lt_trans with x; [exact S1|].
    apply Qle_lt_trans with y; assumption. }
  lia.
Qed.

Lemma nearest_even_floor (q : Q) :
  (Qfloor q <= nearest_even q <= Qfloor q + 1)%Z.
Proof.
  unfold nearest_even.
  destruct (Qcompare (q - inject_Z (Qfloor q)) (1 # 2)); [|lia|lia].
  destruct (Z.even (Qfloor q)); lia.
Qed.

Lemma nearest_even_Z (z : Z) : nearest_even (inject_Z z) = z.
Proof.
  unfold nearest_even. rewrite Qfloor_Z.
  assert (E : inject_Z z - inject_Z z < 1 # 2).
  { setoid_replace (inject_Z z - inject_Z z) with 0 by ring. reflexivity. }
  assert (C : Qcompare (inject_Z z - inject_Z z) (1 # 2) = Lt).
  { apply -> Qlt_alt. exact E. }
  rewrite C. reflexivity.
Qed.

Lemma nearest_even_mono (q r : Q) :
  q <= r -> (nearest_even q <= nearest_even r)%Z.
Proof.
  intros H. pose proof (Qfloor_resp_le q r H) as Hf.
  destruct (Z.eq_dec (Qfloor q) (Qfloor r)) as [E|N].
  - unfold nearest_even. rewrite <- E.
    assert (Hd : q - inject_Z (Qfloor q) <= r - inject_Z (Qfloor q)).
    { apply Qplus_le_l. exact H. }
    destruct (Qcompare (q - inject_Z (Qfloor q)) (1 # 2)) eqn:Cq;
      destruct (Qcompare (r - inject_Z (Qfloor q)) (1 # 2)) eqn:Cr;
      try lia; try (destruct (Z.even (Qfloor q)); lia); exfalso.
    + apply Qeq_alt in Cq. apply Qlt_alt in Cr. rewrite Cq in Hd.
      apply (Qlt_irrefl (1 # 2)). eapply Qle_lt_trans; eassumption.
    + apply Qgt_alt in Cq. apply Qeq_alt in Cr. rewrite Cr in Hd.
      apply (Qlt_irrefl (1 # 2)). eapply Qlt_le_trans; eassumption.
    + apply Qgt_alt in Cq. apply Qlt_alt in Cr.
      apply (Qlt_irrefl (1 # 2)). eapply Qlt_trans; [exact Cq|].
      eapply Qle_lt_trans; eassumption.
  - pose proof (nearest_even_floor q). pose proof (nearest_even_floor r). lia.
Qed.

Lemma scaled (x : Q) (e : Z) : x / 2 ^ e * 2 ^ e == x.
Proof.
  field. intros E. pose proof (two_pos e) as H. rewrite E in H. discriminate.
Qed.

Lemma scale_le (x y : Q) (e : Z) : x <= y -> x / 2 ^ e <= y / 2 ^ e.
Proof.
  intros H. unfold Qdiv. apply Qmult_le_compat_r; [exact H|].
  apply Qlt_le_weak, Qinv_lt_0_compat, two_pos.
Qed.

Lemma two_quotient (a b : Z) : 2 ^ a / 2 ^ b == 2 ^ (a - b).
Proof. symmetry. apply two_minus. Qed.

(** A rounded positive number stays in the binade of the number, ends
    included. *)
Lemma round_pos_binade (x : Q) :
  0 < x -> 2 ^ ilog2 x <= round_pos x /\ round_pos x <= 2 ^ (ilog2 x + 1).
Proof.
  intros Hx. destruct (ilog2_spec x Hx) as [H1 H2]. unfold round_pos.
  set (L := ilog2 x) in *. set (e := (L - 52)%Z).
  assert (Hlo : (2 ^ 52 <= nearest_even (x / 2 ^ e))%Z).
  { rewrite <- (nearest_even_Z (2 ^ 52)). apply nearest_even_mono.
    rewrite <- (two_Z 52) by lia.
    setoid_replace (2 ^ 52) with (2 ^ L / 2 ^ e).
    - apply scale_le. exact H1.
    - rewrite two_quotient. unfold e.
      replace (L - (L - 52))%Z with 52%Z by lia. reflexivity. }
  assert (Hhi : (nearest_even (x / 2 ^ e) <= 2 ^ 53)%Z).
  { rewrite <- (nearest_even_Z (2 ^ 53)). apply nearest_even_mono.
    rewrite <- (two_Z 53) by lia.
    setoid_replace (2 ^ 53) with (2 ^ (L + 1) / 2 ^ e).
    - apply scale_le. apply Qlt_le_weak. exact H2.
    - rewrite two_quotient. unfold e.
      replace (L + 1 - (L - 52))%Z with 53%Z by lia. reflexivity. }
  split.
  - setoid_replace (2 ^ L) with (inject_Z (2 ^ 52) * 2 ^ e).
    + apply Qmult_le_compat_r; [|apply Qlt_le_weak, two_pos].
      rewrite <- Zle_Qle. exact Hlo.
    + rewrite <- (two_Z 52) by lia. rewrite <- two_plus. unfold e.
      replace (52 + (L - 52))%Z with L by lia. reflexivity.
  - setoid_replace (2 ^ (L + 1)) with (inject_Z (2 ^ 53) * 2 ^ e).
    + apply Qmult_le_compat_r; [|apply Qlt_le_weak, two_pos].
      rewrite <- Zle_Qle. exact Hhi.
    + rewrite <- (two_Z 53) by lia. rewrite <- two_plus. unfold e.
      replace (53 + (L - 52))%Z with (L + 1)%Z by lia. reflexivity.
Qed.

Lemma round_pos_pos (x : Q) : 0 < x -> 0 < round_pos x.
Proof.
  intros Hx. destruct (round_pos_binade x Hx) as [H _].
  eapply Qlt_le_trans; [apply two_pos|exact H].
Qed.

Lemma round_pos_mono (x y : Q) :
  0 < x -> x <= y -> round_pos x <= round_pos y.
Proof.
  intros Hx Hxy.
  assert (Hy : 0 < y) by (apply Qlt_le_trans with x; assumption).
  pose proof (ilog2_mono x y Hx Hxy) as HL.
  destruct (Z.eq_dec (ilog2 x) (ilog2 y)) as [E|N].
  - unfold round_pos. rewrite E.
    apply Qmult_le_compat_r; [|apply Qlt_le_weak, two_pos].
    rewrite <- Zle_Qle. apply nearest_even_mono. apply scale_le. exact Hxy.
  - destruct (round_pos_binade x Hx) as [_ A].
    destruct (round_pos_binade y Hy) as [B _].
    eapply Qle_trans; [exact A|]. eapply Qle_trans; [|exact B].
    apply two_le. lia.
Qed.

Lemma sign_pos (x : Q) : 0 < x <-> exists p, Qnum x = Zpos p.
Proof.
  destruct x as [[|p|p] d]; unfold Qlt; cbn; split; intros H;
    try lia; try (destruct H; discriminate); eauto.
Qed.

Lemma round_of_pos (x : Q) : 0 < x -> round x = round_pos x.
Proof.
  intros H. apply sign_pos in H. destruct H as [p H]. unfold round.
  rewrite H. reflexivity.
Qed.

Lemma round_of_neg (x : Q) : x < 0 -> round x = - round_pos (- x).
Proof.
  intros H. unfold round. destruct x as [[|p|p] d]; cbn [Qnum];
    [discriminate H|discriminate H|reflexivity].
Qed.

Lemma round_of_zero (x : Q) : x == 0 -> round x = 0.
Proof.
  intros H. unfold round. destruct x as [[|p|p] d]; cbn [Qnum];
    [reflexivity|discriminate H|discriminate H].
Qed.

Lemma sign_cases (x : Q) : x < 0 \/ x == 0 \/ 0 < x.
Proof.
  destruct (Q_dec x 0) as [[H|H]|H]; auto.
Qed.

(** Rounding keeps the order. *)
Lemma round_mono (x y : Q) : x <= y -> round x <= round y.
Proof.
  intros H.
  destruct (sign_cases x) as [Hx|[Hx|Hx]], (sign_cases y) as [Hy|[Hy|Hy]].
  - rewrite (round_of_neg x Hx), (round_of_neg y Hy).
    apply Qopp_le_compat. apply round_pos_mono.
    + apply (Qopp_lt_compat y 0). exact Hy.
    + apply Qopp_le_compat. exact H.
  - rewrite (round_of_neg x Hx), (round_of_zero y Hy).
    apply (Qopp_le_compat 0). apply Qlt_le_weak, round_pos_pos.
    apply (Qopp_lt_compat x 0). exact Hx.
  - rewrite (round_of_neg x Hx), (round_of_pos y Hy).
    apply Qle_trans with 0.
    + apply (Qopp_le_compat 0). apply Qlt_le_weak, round_pos_pos.
      apply (Qopp_lt_compat x 0). exact Hx.
    + apply Qlt_le_weak, round_pos_pos. exact Hy.
  - exfalso. rewrite Hx in H. apply (Qlt_irrefl 0).
    eapply Qle_lt_trans; eassumption.
  - rewrite (round_of_zero x Hx), (round_of_zero y Hy). apply Qle_refl.
  - rewrite (round_of_zero x Hx), (round_of_pos y Hy).
    apply Qlt_le_weak, round_pos_pos. exact Hy.
  - exfalso. apply (Qlt_irrefl 0). eapply Qlt_trans; [exact Hx|].
    eapply Qle_lt_trans; eassumption.
  - exfalso. rewrite Hy in H. apply (Qlt_irrefl 0).
    eapply Qlt_le_trans; eassumption.
  - rewrite (round_of_pos x Hx), (round_of_pos y Hy).
    apply round_pos_mono; assumption.
Qed.

Lemma round_compat (x y : Q) : x == y -> round x == round y.
Proof.
  intros E. apply Qle_antisym; apply round_mono; rewrite E; apply Qle_refl.
Qed.

(** A positive number with at most 53 significant bits rounds to itself. *)
Lemma round_pos_exact (m k : Z) :
  (0 < m < 2 ^ 53)%Z -> round_pos (inject_Z m * 2 ^ k) == inject_Z m * 2 ^ k.
Proof.
  intros Hm. set (x := inject_Z m * 2 ^ k).
  assert (Hx : 0 < x).
  { unfold x. apply Qmult_lt_0_compat; [|apply two_pos].
    change 0 with (inject_Z 0). rewrite <- Zlt_Qlt. lia. }
  destruct (ilog2_spec x Hx) as [H1 _]. unfold round_pos.
  set (L := ilog2 x) in *. set (e := (L - 52)%Z).
  assert (He : (e <= k)%Z).
  { assert (A : (L < 53 + k)%Z); [|unfold e; lia].
    apply two_lt_inv. eapply Qle_lt_trans; [exact H1|].
    unfold x. rewrite two_plus. apply Qmult_lt_compat_r; [apply two_pos|].
    rewrite (two_Z 53) by lia. rewrite <- Zlt_Qlt. lia. }
  assert (E : x / 2 ^ e == inject_Z (m * 2 ^ (k - e))).
  { unfold x. rewrite inject_Z_mult. rewrite <- (two_Z (k - e)) by lia.
    rewrite two_minus. field.
    intros E0. pose proof (two_pos e) as H. rewrite E0 in H. discriminate. }
  assert (En : nearest_even (x / 2 ^ e) = (m * 2 ^ (k - e))%Z).
  { rewrite <- (nearest_even_Z (m * 2 ^ (k - e))).
    apply Z.le_antisymm; apply nearest_even_mono; rewrite E; apply Qle_refl. }
  rewrite En, <- E. apply scaled.
Qed.

(** Rounding leaves the numbers of binary64 as they are: the integers below
    2^53 in size, times a power of two. *)
Lemma round_exact (m k : Z) :
  (- 2 ^ 53 < m < 2 ^ 53)%Z -> round (inject_Z m * 2 ^ k) == inject_Z m * 2 ^ k.
Proof.
  intros Hm. destruct (Z.lt_trichotomy m 0) as [H|[H|H]].
  - assert (Hx : inject_Z m * 2 ^ k < 0).
    { setoid_replace 0 with (0 * 2 ^ k) by ring.
      apply Qmult_lt_compat_r; [apply two_pos|].
      change 0 with (inject_Z 0). rewrite <- Zlt_Qlt. exact H. }
    rewrite (round_of_neg _ Hx).
    assert (Hx' : 0 < - (inject_Z m * 2 ^ k)).
    { apply (Qopp_lt_compat _ 0). exact Hx. }
    rewrite <- (round_of_pos _ Hx').
    assert (E : - (inject_Z m * 2 ^ k) == inject_Z (- m) * 2 ^ k).
    { rewrite inject_Z_opp. ring. }
    rewrite (round_compat _ _ E).
    assert (Hx2 : 0 < inject_Z (- m) * 2 ^ k) by (rewrite <- E; exact Hx').
    rewrite (round_of_pos _ Hx2).
    rewrite round_pos_exact by lia. rewrite inject_Z_opp. ring.
  - subst m. rewrite round_of_zero; ring.
  - assert (Hx : 0 < inject_Z m * 2 ^ k).
    { apply Qmult_lt_0_compat; [|apply two_pos].
      change 0 with (inject_Z 0). rewrite <- Zlt_Qlt. exact H. }
    rewrite (round_of_pos _ Hx). apply round_pos_exact. lia.
Qed.

Lemma round_Z (z : Z) :
  (- 2 ^ 53 < z < 2 ^ 53)%Z -> round (inject_Z z) == inject_Z z.
Proof.
  intros H.
  assert (E : inject_Z z == inject_Z z * 2 ^ 0) by (cbn; ring).
  eapply Qeq_trans; [apply round_compat; exact E|].
  eapply Qeq_trans; [apply round_exact; exact H|]. symmetry. exact E.
Qed.

Lemma round_zero : round 0 = 0.
Proof. reflexivity. Qed.

Lemma add_mono (a b a' b' : Q) : a <= a' -> b <= b' -> add a b <= add a' b'.
Proof.
  intros Ha Hb. unfold add. apply round_mono. apply Qplus_le_compat; assumption.
Qed.

Lemma mul_mono_l (r r' a : Q) : 0 <= a -> r <= r' -> mul r a <= mul r' a.
Proof.
  intros Ha Hr. unfold mul. apply round_mono.
  apply Qmult_le_compat_r; assumption.
Qed.

Lemma div_mono_l (a a' b : Q) : 0 < b -> a <= a' -> div a b <= div a' b.
Proof.
  intros Hb Ha. unfold div. apply round_mono. unfold Qdiv.
  apply Qmult_le_compat_r; [exact Ha|].
  apply Qlt_le_weak, Qinv_lt_0_compat. exact Hb.
Qed.

(** Rounding does not cross a number of binary64. *)
Lemma round_le (x b : Q) : representable b -> x <= b -> round x <= b.
Proof.
  intros Hb H. unfold representable in Hb. rewrite <- Hb.
  apply round_mono. exact H.
Qed.

Lemma round_ge (x b : Q) : representable b -> b <= x -> b <= round x.
Proof.
  intros Hb H. unfold representable in Hb. rewrite <- Hb.
  apply round_mono. exact H.
Qed.

Lemma representable_Z (z : Z) :
  (- 2 ^ 53 < z < 2 ^ 53)%Z -> representable (inject_Z z).
Proof. apply round_Z. Qed.

(** A number of binary64 below 1 is at most [1 - 2^-53]. *)
Lemma representable_below_one (r : Q) :
  representable r -> r < 1 -> r <= below_one.
Proof.
  intros Hr H1. destruct (Qlt_le_dec below_one r) as [Hb|Hb]; [|exact Hb].
  exfalso.
  assert (H0 : 0 < r).
  { eapply Qlt_trans; [|exact Hb]. reflexivity. }
  assert (HL : ilog2 r = (-1)%Z).
  { apply ilog2_unique; [exact H0| |exact H1].
    apply Qlt_le_weak. eapply Qle_lt_trans; [|exact Hb]. discriminate. }
  unfold representable in Hr. rewrite (round_of_pos r H0) in Hr.
  unfold round_pos in Hr. rewrite HL in Hr.
  change (-1 - 52)%Z with (-53)%Z in Hr.
  set (z := nearest_even (r / 2 ^ (-53))) in Hr.
  assert (A : (2 ^ 53 - 1 < z)%Z).
  { rewrite Zlt_Qlt. apply (Qmult_lt_r _ _ (2 ^ (-53))); [reflexivity|].
    rewrite Hr. eapply Qle_lt_trans; [|exact Hb]. discriminate. }
  assert (B : (z < 2 ^ 53)%Z).
  { rewrite Zlt_Qlt. apply (Qmult_lt_r _ _ (2 ^ (-53))); [reflexivity|].
    rewrite Hr. eapply Qlt_le_trans; [exact H1|]. discriminate. }
  lia.
Qed.

Lemma nearest_even_error (q : Q) :
  - (1 # 2) <= inject_Z (nearest_even q) - q <= 1 # 2.
Proof.
  pose proof (Qfloor_le q) as Hlo. pose proof (Qlt_floor q) as Hhi.
  rewrite inject_Z_plus in Hhi. change (inject_Z 1) with 1 in Hhi.
  unfold nearest_even.
  destruct (Qcompare (q - inject_Z (Qfloor q)) (1 # 2)) eqn:C.
  - apply Qeq_alt in C. destruct (Z.even (Qfloor q)).
    + lra.
    + rewrite inject_Z_plus. change (inject_Z 1) with 1. lra.
  - apply Qlt_alt in C. lra.
  - apply Qgt_alt in C. rewrite inject_Z_plus. change (inject_Z 1) with 1. lra.
Qed.

Lemma round_pos_error (x : Q) (L : Z) :
  0 < x -> x < 2 ^ (L + 1) ->
  - 2 ^ (L - 53) <= round_pos x - x <= 2 ^ (L - 53).
Proof.
  intros Hx Hb. destruct (ilog2_spec x Hx) as [H1 _].
  assert (HL : (ilog2 x <= L)%Z).
  { assert (A : (ilog2 x < L + 1)%Z); [|lia].
    apply two_lt_inv. eapply Qle_lt_trans; eassumption. }
  unfold round_pos. set (e := (ilog2 x - 52)%Z).
  pose proof (nearest_even_error (x / 2 ^ e)) as Hn.
  set (z := inject_Z (nearest_even (x / 2 ^ e))) in *.
  pose proof (two_pos e) as He.
  assert (Hh : (1 # 2) * 2 ^ e <= 2 ^ (L - 53)).
  { change (1 # 2) with (2 ^ (-1)). rewrite <- two_plus. apply two_le.
    unfold e. lia. }
  assert (E : z * 2 ^ e - x == (z - x / 2 ^ e) * 2 ^ e).
  { field. intros E0. rewrite E0 in He. discriminate. }
  rewrite E. destruct Hn as [Hn1 Hn2].
  assert (A : (z - x / 2 ^ e) * 2 ^ e <= (1 # 2) * 2 ^ e).
  { apply Qmult_le_compat_r; [exact Hn2|apply Qlt_le_weak; exact He]. }
  assert (B : (- (1 # 2)) * 2 ^ e <= (z - x / 2 ^ e) * 2 ^ e).
  { apply Qmult_le_compat_r; [exact Hn1|apply Qlt_le_weak; exact He]. }
  split; lra.
Qed.

(** The error of a rounding is at most half the distance between the
    numbers of binary64 around the result. *)
Lemma round_error (x : Q) (L : Z) :
  - 2 ^ (L + 1) < x -> x < 2 ^ (L + 1) ->
  - 2 ^ (L - 53) <= round x - x <= 2 ^ (L - 53).
Proof.
  intros Hlo Hhi. pose proof (two_pos (L - 53)) as Hp.
  destruct (sign_cases x) as [Hx|[Hx|Hx]].
  - rewrite (round_of_neg x Hx).
    assert (Hx' : 0 < - x) by lra.
    assert (Hb : - x < 2 ^ (L + 1)) by lra.
    pose proof (round_pos_error (- x) L Hx' Hb). lra.
  - rewrite (round_of_zero x Hx). lra.
  - rewrite (round_of_pos x Hx). apply round_pos_error; assumption.
Qed.

Lemma closed_le (a b : Q) : Qle_bool a b = true -> (a <= b)%Q.
Proof. apply Qle_bool_iff. Qed.

Lemma closed_lt (a b : Q) : Qle_bool b a = false -> (a < b)%Q.
Proof.
  intros H. apply Qnot_le_lt. intros C. apply Qle_bool_iff in C. congruence.
Qed.

Lemma mult_le_l (z a b : Q) : 0 <= z -> a <= b -> z * a <= z * b.
Proof.
  intros Hz H. rewrite (Qmult_comm z a), (Qmult_comm z b).
  apply Qmult_le_compat_r; assumption.
Qed.

End DoubleFacts.

(* ================================================================== *)
(** * SunAzimuthCalculator: the Julian date counts the days *)
(* ================================================================== *)

Section JulianFacts.
Import SunAzimuthCalculator Calendar.

Lemma leap_quotients (y : Z) :
  y / 4 - y / 100 + y / 400 - ((y - 1) / 4 - (y - 1) / 100 + (y - 1) / 400)
  = if leap y then 1 else 0.
Proof.
  unfold leap.
  destruct (Z.eqb_spec (y mod 4) 0), (Z.eqb_spec (y mod 100) 0),
    (Z.eqb_spec (y mod 400) 0); cbn [andb orb negb];
    Z.to_euclidean_division_equations; lia.
Qed.

Lemma leap_shift (y : Z) : leap (y + 4800) = leap y.
Proof.
  unfold leap.
  replace ((y + 4800) mod 4) with (y mod 4)
    by (Z.to_euclidean_division_equations; lia).
  replace ((y + 4800) mod 100) with (y mod 100)
    by (Z.to_euclidean_division_equations; lia).
  replace ((y + 4800) mod 400) with (y mod 400)
    by (Z.to_euclidean_division_equations; lia).
  reflexivity.
Qed.

(** X5.  The day number that [calculateJulianDate] computes counts the
    days of the Gregorian calendar: from any day to the next one, across
    the ends of months and years and in leap years, it grows by 1. *)
Theorem day_number_counts_days (year month day : Z) :
  1 <= month <= 12 -> 1 <= day <= days_in_month year month ->
  let '(year', month', day') := tomorrow year month day in
  day_number year' month' day' = day_number year month day + 1.
Proof.
  intros Hm Hd. unfold tomorrow.
  destruct (Z.ltb_spec day (days_in_month year month)) as [Hlt|Hge].
  - unfold day_number. lia.
  - assert (Hday : day = days_in_month year month) by lia. clear Hd Hge.
    pose proof (leap_quotients (year + 4800)) as Hq.
    rewrite leap_shift in Hq.
    replace (year + 4800 - 1) with (year + 4799) in Hq by lia.
    assert (Hcases : month = 1 \/ month = 2 \/ month = 3 \/ month = 4 \/
                     month = 5 \/ month = 6 \/ month = 7 \/ month = 8 \/
                     month = 9 \/ month = 10 \/ month = 11 \/ month = 12)
      by lia.
    unfold days_in_month in Hday.
    destruct Hcases as [->|[->|[->|[->|[->|[->|[->|[->|[->|[->|[->| ->]]]]]]]]]]];
      cbn in Hday; subst day; unfold day_number; cbn -[Z.div Z.add Z.mul Z.sub];
      try (destruct (leap year));
      Z.to_euclidean_division_equations; lia.
Qed.

Lemma day_number_counts_days_witness :
  day_number 2024 3 1 = day_number 2024 2 29 + 1.
Proof.
  apply (day_number_counts_days 2024 2 29); [lia|vm_compute; split; discriminate].
Defined.

Lemma day_number_of_a_date (year month day : Z) :
  -271821 <= year <= 275760 -> 1 <= month <= 12 -> 1 <= day <= 31 ->
  - 2 ^ 27 < day_number year month day < 2 ^ 27 - 1.
Proof.
  intros Hy Hm Hd. unfold day_number.
  change (2 ^ 27) with 134217728.
  Z.to_euclidean_division_equations; lia.
Qed.

Lemma quotient_bounds (z hi d : Z) :
  0 <= z <= hi -> 0 < d ->
  (0 <= inject_Z z / inject_Z d)%Q /\
  (inject_Z z / inject_Z d <= inject_Z hi / inject_Z d)%Q.
Proof.
  intros Hz Hd.
  assert (Hd' : (0 < inject_Z d)%Q).
  { change 0%Q with (inject_Z 0). rewrite <- Zlt_Qlt. exact Hd. }
  split.
  - apply Qle_shift_div_l; [exact Hd'|]. rewrite Qmult_0_l.
    change 0%Q with (inject_Z 0). rewrite <- Zle_Qle. lia.
  - unfold Qdiv. apply Qmult_le_compat_r.
    + rewrite <- Zle_Qle. lia.
    + apply Qlt_le_weak, Qinv_lt_0_compat. exact Hd'.
Qed.

(** X6.  For the dates that a [Date] can hold, the Julian date that
    [calculateJulianDate] returns lies within the day: it is never below the
    day number, it is the day number at 00:00:00 UTC, and it stays below the
    day number of the next day.  It is the day number plus the seconds since
    00:00:00 UTC over 86400 up to the rounding of the three divisions and
    of the three additions: the two differ by 2^-26 of a day at most, which
    is less than two milliseconds. *)
Theorem julian_date_within_day (date : utc) :
  -271821 <= getUTCFullYear date <= 275760 ->
  0 <= getUTCMonth date <= 11 -> 1 <= getUTCDate date <= 31 ->
  0 <= getUTCHours date < 24 -> 0 <= getUTCMinutes date < 60 ->
  0 <= getUTCSeconds date < 60 ->
  let n := day_number (getUTCFullYear date) (getUTCMonth date + 1)
             (getUTCDate date) in
  let s := 3600 * getUTCHours date + 60 * getUTCMinutes date
           + getUTCSeconds date in
  (inject_Z n <= calculateJulianDate date)%Q /\
  (calculateJulianDate date < inject_Z (n + 1))%Q /\
  (s = 0 -> (calculateJulianDate date == inject_Z n)%Q) /\
  (- 2 ^ (-26)
   <= calculateJulianDate date - (inject_Z n + inject_Z s / 86400)
   <= 2 ^ (-26))%Q.
Proof.
  intros Hy Hmo Hd Hh Hm Hs n s.
  assert (Hn : - 2 ^ 27 < n < 2 ^ 27 - 1).
  { apply day_number_of_a_date; [exact Hy|lia|exact Hd]. }
  unfold calculateJulianDate. fold n.
  set (hour := getUTCHours date) in *.
  set (minute := getUTCMinutes date) in *.
  set (second := getUTCSeconds date) in *.
  destruct (quotient_bounds hour 23 24) as [Ha0 Ha1]; [lia|lia|].
  destruct (quotient_bounds minute 59 1440) as [Hb0 Hb1]; [lia|lia|].
  destruct (quotient_bounds second 59 86400) as [Hc0 Hc1]; [lia|lia|].
  change (inject_Z 24) with 24%Q in *. change (inject_Z 1440) with 1440%Q in *.
  change (inject_Z 86400) with 86400%Q in *.
  change (inject_Z 23) with 23%Q in *. change (inject_Z 59) with 59%Q in *.
  set (qa := (inject_Z hour / 24)%Q) in *.
  set (qb := (inject_Z minute / 1440)%Q) in *.
  set (qc := (inject_Z second / 86400)%Q) in *.
  assert (ET : (inject_Z s / 86400 == qa + qb + qc)%Q).
  { unfold s, qa, qb, qc. rewrite !inject_Z_plus, !inject_Z_mult. field. }
  (* the three quotients, rounded *)
  set (a := Double.div (inject_Z hour) 24).
  set (b := Double.div (inject_Z minute) 1440).
  set (c := Double.div (inject_Z second) 86400).
  assert (Ha : (0 <= a)%Q /\ (a <= Double.div 23 24)%Q).
  { split; [apply (round_mono 0); exact Ha0|apply round_mono; exact Ha1]. }
  assert (Hb : (0 <= b)%Q /\ (b <= Double.div 59 1440)%Q).
  { split; [apply (round_mono 0); exact Hb0|apply round_mono; exact Hb1]. }
  assert (Hc : (0 <= c)%Q /\ (c <= Double.div 59 86400)%Q).
  { split; [apply (round_mono 0); exact Hc0|apply round_mono; exact Hc1]. }
  set (s1 := Double.add a b).
  assert (Hs1 : (0 <= s1)%Q /\
                (s1 <= Double.add (Double.div 23 24) (Double.div 59 1440))%Q).
  { split.
    - apply (round_mono 0). apply (Qplus_le_compat 0 a 0 b); tauto.
    - apply add_mono; tauto. }
  set (t := Double.add s1 c).
  set (last_second :=
         Double.add (Double.add (Double.div 23 24) (Double.div 59 1440))
           (Double.div 59 86400)).
  assert (Ht : (0 <= t)%Q /\ (t <= last_second)%Q).
  { split.
    - apply (round_mono 0). apply (Qplus_le_compat 0 s1 0 c); tauto.
    - apply add_mono; tauto. }
  assert (Hlast : (last_second <= 1 - 2 ^ (-17))%Q)
    by (apply closed_le; vm_compute; reflexivity).
  assert (RN : Double.representable (inject_Z n)).
  { apply representable_Z. lia. }
  assert (Hlo : (inject_Z n <= Double.add (inject_Z n) t)%Q).
  { apply round_ge; [exact RN|]. lra. }
  assert (Hhi : (Double.add (inject_Z n) t < inject_Z (n + 1))%Q).
  { apply Qle_lt_trans with (inject_Z ((n + 1) * 2 ^ 17 - 1) * 2 ^ (-17))%Q.
    - apply round_le; [apply round_exact; lia|].
      unfold Z.sub. rewrite inject_Z_plus, inject_Z_mult, inject_Z_plus.
      change (inject_Z (- (1))) with (- (1))%Q.
      change (inject_Z 1) with 1%Q.
      change (inject_Z (2 ^ 17)) with (2 ^ 17)%Q.
      setoid_replace ((((inject_Z n + 1) * 2 ^ 17 + - (1)) * 2 ^ (-17)))%Q
        with (inject_Z n + (1 - 2 ^ (-17)))%Q by (cbn; ring).
      lra.
    - unfold Z.sub. rewrite inject_Z_plus, inject_Z_mult, !inject_Z_plus.
      change (inject_Z (- (1))) with (- (1))%Q.
      change (inject_Z 1) with 1%Q.
      change (inject_Z (2 ^ 17)) with (2 ^ 17)%Q.
      setoid_replace ((((inject_Z n + 1) * 2 ^ 17 + - (1)) * 2 ^ (-17)))%Q
        with (inject_Z n + 1 - 2 ^ (-17))%Q by (cbn; ring).
      assert (0 < 2 ^ (-17))%Q by reflexivity. lra. }
  split; [exact Hlo|]. split; [exact Hhi|]. split.
  - intros Hs0.
    assert (E1 : hour = 0) by (unfold s in Hs0; lia).
    assert (E2 : minute = 0) by (unfold s in Hs0; lia).
    assert (E3 : second = 0) by (unfold s in Hs0; lia).
    unfold t, s1, a, b, c. rewrite E1, E2, E3.
    change (Double.add
              (Double.add (Double.div (inject_Z 0) 24)
                 (Double.div (inject_Z 0) 1440))
              (Double.div (inject_Z 0) 86400)) with 0%Q.
    eapply Qeq_trans; [apply round_compat, Qplus_0_r|]. exact RN.
  - (* the error of each rounding *)
    assert (Hsum1 : (Double.add (Double.div 23 24) (Double.div 59 1440) < 1)%Q)
      by (apply closed_lt; vm_compute; reflexivity).
    assert (Hsum0 : (Double.div 23 24 + Double.div 59 1440 < 1)%Q)
      by (apply closed_lt; vm_compute; reflexivity).
    assert (Hsum2 : (Double.add (Double.div 23 24) (Double.div 59 1440)
                     + Double.div 59 86400 < 1)%Q)
      by (apply closed_lt; vm_compute; reflexivity).
    assert (Hq : (23 / 24 < 1)%Q /\ (59 / 1440 < 1)%Q /\ (59 / 86400 < 1)%Q)
      by (repeat split; reflexivity).
    assert (P1 : (2 ^ (-1 + 1) == 1)%Q) by reflexivity.
    assert (P54 : (2 ^ (-1 - 53) == 2 ^ (-54))%Q) by reflexivity.
    assert (Ea : (- 2 ^ (-54) <= a - qa <= 2 ^ (-54))%Q).
    { rewrite <- P54. apply round_error; rewrite P1; lra. }
    assert (Eb : (- 2 ^ (-54) <= b - qb <= 2 ^ (-54))%Q).
    { rewrite <- P54. apply round_error; rewrite P1; lra. }
    assert (Ec : (- 2 ^ (-54) <= c - qc <= 2 ^ (-54))%Q).
    { rewrite <- P54. apply round_error; rewrite P1; lra. }
    assert (Es1 : (- 2 ^ (-54) <= s1 - (a + b) <= 2 ^ (-54))%Q).
    { rewrite <- P54. apply round_error; rewrite P1; lra. }
    assert (Et : (- 2 ^ (-54) <= t - (s1 + c) <= 2 ^ (-54))%Q).
    { rewrite <- P54. apply round_error; rewrite P1; lra. }
    assert (P27 : (2 ^ (26 + 1) == inject_Z (2 ^ 27))%Q) by reflexivity.
    assert (P27' : (2 ^ (26 - 53) == 2 ^ (-27))%Q) by reflexivity.
    assert (Hn1 : (inject_Z (- 2 ^ 27) < inject_Z n)%Q)
      by (rewrite <- Zlt_Qlt; lia).
    assert (Hn2 : (inject_Z n <= inject_Z (2 ^ 27 - 2))%Q)
      by (rewrite <- Zle_Qle; lia).
    assert (Ej : (- 2 ^ (-27) <= Double.add (inject_Z n) t - (inject_Z n + t)
                  <= 2 ^ (-27))%Q).
    { rewrite <- P27'. apply round_error; rewrite P27.
      - change (inject_Z (2 ^ 27)) with (- inject_Z (- 2 ^ 27))%Q.
        change (inject_Z (- 2 ^ 27)) with (- (134217728))%Q in *. lra.
      - change (inject_Z (2 ^ 27 - 2)) with 134217726%Q in Hn2.
        change (inject_Z (2 ^ 27)) with 134217728%Q. lra. }
    assert (Hfin : (2 ^ (-27) + 5 * 2 ^ (-54) <= 2 ^ (-26))%Q)
      by (apply closed_le; vm_compute; reflexivity).
    rewrite ET.
    set (e54 := (2 ^ (-54))%Q) in *. set (e27 := (2 ^ (-27))%Q) in *.
    set (e26 := (2 ^ (-26))%Q) in *.
    split; lra.
Qed.

Lemma julian_date_within_day_witness :
  (inject_Z 2460677 <= calculateJulianDate (mkUtc 2025 0 1 23 59 59))%Q /\
  (calculateJulianDate (mkUtc 2025 0 1 23 59 59) < inject_Z (2460677 + 1))%Q.
Proof.
  pose proof (julian_date_within_day (mkUtc 2025 0 1 23 59 59)) as H.
  cbn [getUTCFullYear getUTCMonth getUTCDate getUTCHours getUTCMinutes
       getUTCSeconds] in H.
  specialize (H ltac:(lia) ltac:(lia) ltac:(lia) ltac:(lia) ltac:(lia)
                ltac:(lia)).
  split; [exact (proj1 H)|exact (proj1 (proj2 H))].
Defined.

(** The sum that exact arithmetic would give is not always what
    [calculateJulianDate] returns: one second after 00:00:00 UTC on the first
    day of 2000 the two differ. *)
Example julian_date_is_rounded :
  ~ (calculateJulianDate (mkUtc 2000 0 1 0 0 1)
     == inject_Z 2451545 + 1 / 86400)%Q.
Proof. intros H. vm_compute in H. discriminate H. Qed.

End JulianFacts.

(* ================================================================== *)
(** * The page script: random intervals, the clock, the recorder's type *)
(* ================================================================== *)

Section ScriptFacts.
Import JS World Script.
Import DotCanvas(unit_draw).

Lemma floor_between (q : Q) (lo hi : Z) :
  (inject_Z lo <= q)%Q -> (q < inject_Z (hi + 1))%Q -> lo <= Qfloor q <= hi.
Proof.
  intros Hlo Hhi. split.
  - rewrite <- (Qfloor_Z lo). apply Qfloor_resp_le. exact Hlo.
  - assert (H : Qfloor q < hi + 1); [|lia].
    rewrite Zlt_Qlt. eapply Qle_lt_trans; [apply Qfloor_le|exact Hhi].
Qed.

Lemma getRandomInt_bounds (min max random : Q) :
  Qceiling min <= Qfloor max -> unit_draw random ->
  Qceiling min <= getRandomInt min max random <= Qfloor max.
Proof.
  intros Hmm [H0 H1].
  set (lo := Qceiling min). set (hi := Qfloor max).
  fold lo hi in Hmm.
  assert (Hn : (0 < inject_Z (hi - lo + 1))%Q).
  { change 0%Q with (inject_Z 0). rewrite <- Zlt_Qlt. lia. }
  unfold getRandomInt. fold lo hi.
  apply floor_between.
  - rewrite <- (Qplus_0_l (inject_Z lo)) at 1.
    apply Qplus_le_l. apply Qmult_le_0_compat; [exact H0|].
    apply Qlt_le_weak. exact Hn.
  - replace (hi + 1) with ((hi - lo + 1) + lo) by lia.
    rewrite (inject_Z_plus (hi - lo + 1) lo).
    apply Qplus_lt_l.
    rewrite <- (Qmult_1_l (inject_Z (hi - lo + 1))) at 2.
    apply Qmult_lt_compat_r; [exact Hn|exact H1].
Qed.

Lemma floor_plus (q : Q) (z : Z) : Qfloor (q + inject_Z z) = Qfloor q + z.
Proof.
  pose proof (Qfloor_le q) as Hlo. pose proof (Qlt_floor q) as Hhi.
  assert (H : Qfloor q + z <= Qfloor (q + inject_Z z) <= Qfloor q + z).
  { apply floor_between.
    - rewrite inject_Z_plus. apply Qplus_le_l. exact Hlo.
    - replace (Qfloor q + z + 1) with ((Qfloor q + 1) + z) by lia.
      rewrite (inject_Z_plus (Qfloor q + 1) z). apply Qplus_lt_l. exact Hhi. }
  lia.
Qed.

(** The number of integers from [Math.ceil(min)] to [Math.floor(max)], as
    [getRandomInt] computes it. *)
Lemma count_is_exact (lo hi : Z) :
  - 2 ^ 52 < lo -> lo <= hi -> hi < 2 ^ 52 ->
  (Double.add (Double.sub (inject_Z hi) (inject_Z lo)) 1
   == inject_Z (hi - lo + 1))%Q.
Proof.
  intros H1 H2 H3.
  assert (E1 : (Double.sub (inject_Z hi) (inject_Z lo)
                == inject_Z (hi - lo))%Q).
  { unfold Double.sub. eapply Qeq_trans.
    - apply round_compat. unfold Qminus.
      rewrite <- inject_Z_opp, <- inject_Z_plus. reflexivity.
    - apply round_Z. lia. }
  unfold Double.add. eapply Qeq_trans.
  - apply round_compat. rewrite E1. change 1%Q with (inject_Z 1).
    rewrite <- inject_Z_plus. reflexivity.
  - apply round_Z. lia.
Qed.

Lemma getRandomInt_binary64_mono (min max r r' : Q) :
  (0 <= Double.add
          (Double.sub (inject_Z (Qfloor max)) (inject_Z (Qceiling min))) 1)%Q ->
  (r <= r')%Q ->
  getRandomInt_binary64 min max r <= getRandomInt_binary64 min max r'.
Proof.
  intros Hn Hr. unfold getRandomInt_binary64. apply Qfloor_resp_le.
  apply add_mono; [|apply Qle_refl]. apply mul_mono_l; assumption.
Qed.

(** X7.  As the engine computes it, with the product and the sum rounded,
    [getRandomInt(min, max)] returns what exact arithmetic would give or the
    integer after it, when [Math.ceil(min)] is not above [Math.floor(max)]
    and both are below 2^52 in size.  So it returns an integer from
    [Math.ceil(min)] to [Math.floor(max) + 1], and the upper end can be
    passed: [getRandomInt(5, 7)] is 8 when [Math.random()] returns its
    largest value, [1 - 2^-53].  [getRandomInt(1, 60)], the call of the
    clock, stays from 1 to 60 for every number of binary64 that
    [Math.random()] can return. *)
Theorem getRandomInt_rounds_up_at_most_one :
  (forall min max random : Q,
     - 2 ^ 52 < Qceiling min -> Qceiling min <= Qfloor max ->
     Qfloor max < 2 ^ 52 -> unit_draw random ->
     (getRandomInt_binary64 min max random = getRandomInt min max random \/
      getRandomInt_binary64 min max random
      = getRandomInt min max random + 1) /\
     Qceiling min <= getRandomInt_binary64 min max random <= Qfloor max + 1) /\
  (unit_draw Double.below_one /\ Double.representable Double.below_one /\
   getRandomInt_binary64 5 7 Double.below_one = 8) /\
  (forall random : Q,
     unit_draw random -> Double.representable random ->
     1 <= getRandomInt_binary64 1 60 random <= 60).
Proof.
  assert (General : forall min max random : Q,
     - 2 ^ 52 < Qceiling min -> Qceiling min <= Qfloor max ->
     Qfloor max < 2 ^ 52 -> unit_draw random ->
     (getRandomInt_binary64 min max random = getRandomInt min max random \/
      getRandomInt_binary64 min max random
      = getRandomInt min max random + 1) /\
     Qceiling min <= getRandomInt_binary64 min max random <= Qfloor max + 1).
  { intros min max random H1 H2 H3 Hr.
    pose proof (getRandomInt_bounds min max random H2 Hr) as Hexact.
    unfold getRandomInt_binary64, getRandomInt in *.
    set (lo := Qceiling min) in *. set (hi := Qfloor max) in *.
    pose proof (count_is_exact lo hi H1 H2 H3) as En.
    set (count := Double.add (Double.sub (inject_Z hi) (inject_Z lo)) 1) in *.
    rewrite floor_plus in Hexact. rewrite floor_plus.
    set (m := Qfloor (random * inject_Z (hi - lo + 1))) in *.
    assert (Hm1 : (inject_Z m <= random * count)%Q).
    { rewrite En. apply Qfloor_le. }
    assert (Hm2 : (random * count <= inject_Z (m + 1))%Q).
    { rewrite En. apply Qlt_le_weak. apply Qlt_floor. }
    assert (Hy1 : (inject_Z m <= Double.mul random count)%Q).
    { apply round_ge; [apply representable_Z; lia|exact Hm1]. }
    assert (Hy2 : (Double.mul random count <= inject_Z (m + 1))%Q).
    { apply round_le; [apply representable_Z; lia|exact Hm2]. }
    assert (Hz1 : (inject_Z (m + lo)
                   <= Double.add (Double.mul random count) (inject_Z lo))%Q).
    { apply round_ge; [apply representable_Z; lia|].
      rewrite inject_Z_plus. apply Qplus_le_l. exact Hy1. }
    assert (Hz2 : (Double.add (Double.mul random count) (inject_Z lo)
                   <= inject_Z (m + lo + 1))%Q).
    { apply round_le; [apply representable_Z; lia|].
      replace (m + lo + 1) with ((m + 1) + lo) by lia.
      rewrite (inject_Z_plus (m + 1) lo). apply Qplus_le_l. exact Hy2. }
    apply Qfloor_resp_le in Hz1, Hz2. rewrite Qfloor_Z in Hz1, Hz2.
    lia. }
  split; [exact General|]. split.
  - split; [split; [discriminate|reflexivity]|].
    split; [|vm_compute; reflexivity].
    unfold Double.representable. apply Qeq_bool_iff. vm_compute. reflexivity.
  - intros random Hr Hrep. split.
    + apply (General 1%Q 60%Q random);
        [reflexivity|discriminate|reflexivity|exact Hr].
    + change 60 with (getRandomInt_binary64 1 60 Double.below_one) at 2.
      apply getRandomInt_binary64_mono.
      * apply closed_le. vm_compute. reflexivity.
      * apply representable_below_one; [exact Hrep|apply Hr].
Qed.

Lemma getRandomInt_rounds_up_at_most_one_witness :
  2 <= getRandomInt_binary64 2 9 (1 # 3) <= 9 + 1.
Proof.
  refine (proj2 (proj1 getRandomInt_rounds_up_at_most_one 2 9 (1 # 3) _ _ _ _)%Q).
  - reflexivity.
  - discriminate.
  - reflexivity.
  - split; [discriminate|reflexivity].
Defined.

(** [0.3333333333333333 * 60 + 1] is 21 as the engine computes it, where
    exact arithmetic gives a number below 21. *)
Example getRandomInt_differs_from_exact :
  let random := Double.round (3333333333333333 # 10000000000000000) in
  getRandomInt 1 60 random = 20 /\ getRandomInt_binary64 1 60 random = 21.
Proof. split; vm_compute; reflexivity. Qed.

Lemma interval_range (random : Q) :
  unit_draw random -> 1 <= getRandomInt 1 60 random <= 60.
Proof.
  intros H.
  apply (getRandomInt_bounds 1 60 random); [vm_compute; discriminate|exact H].
Qed.

(** X8.  Every delay that the clock sets for its next call of [start()]
    is a whole number of seconds between 1 and 60: the current interval
    times 1000 milliseconds. *)
Theorem clock_waits_one_to_sixty_seconds (text : string) (randoms : list Q) :
  Forall unit_draw randoms ->
  let c := fold_left (fun c random => start random c) randoms (new_Clock text) in
  1 <= currentInterval c <= 60 /\
  timeout c = currentInterval c * 1000 /\
  1000 <= timeout c <= 60000.
Proof.
  intros H c.
  assert (Hc : 1 <= currentInterval c <= 60 /\
               timeout c = currentInterval c * 1000).
  { subst c. destruct randoms as [|r0 rs0] using rev_ind.
    - cbn. lia.
    - rewrite fold_left_app. cbn [fold_left]. unfold start at 1.
      cbn [currentInterval timeout]. split; [|reflexivity].
      apply interval_range.
      apply Forall_app in H. destruct H as [_ H].
      inversion H; assumption. }
  destruct Hc as [H1 H2]. split; [exact H1|]. split; [exact H2|lia].
Qed.

Lemma clock_waits_one_to_sixty_seconds_witness :
  1000 <= timeout (start (1 # 2) (start 0 (new_Clock ""))) <= 60000.
Proof.
  refine (proj2 (proj2 (clock_waits_one_to_sixty_seconds "" [0; 1 # 2]%Q _))).
  repeat constructor; discriminate.
Defined.


Lemma first_supported_spec (isTypeSupported : string -> bool) :
  forall types,
  match first_supported isTypeSupported types with
  | Some mimeType =>
      exists before after,
        types = (before ++ mimeType :: after)%list /\
        isTypeSupported mimeType = true /\
        Forall (fun t => isTypeSupported t = false) before
  | None => Forall (fun t => isTypeSupported t = false) types
  end.
Proof.
  induction types as [|t rest IH]; cbn [first_supported]; [constructor|].
  destruct (isTypeSupported t) eqn:E.
  - exists [], rest. repeat split; [exact E|constructor].
  - destruct (first_supported isTypeSupported rest) as [m|].
    + destruct IH as (before & after & -> & Hm & Hb).
      exists (t :: before), after. repeat split; [exact Hm|].
      constructor; assumption.
    + constructor; assumption.
Qed.

(** X10.  [getSupportedMimeTypeOptions()] returns the first type of its
    list that the recorder supports, so a type is chosen only when every type
    listed before it is unsupported, and writes a log line that names it; it
    returns [null], with a warning, exactly when none of the listed types is
    supported. *)
Theorem first_supported_type_is_chosen (isTypeSupported : string -> bool) :
  match getSupportedMimeTypeOptions isTypeSupported with
  | (Some mimeType, line) =>
      (exists before after,
         typesToTest = (before ++ mimeType :: after)%list /\
         isTypeSupported mimeType = true /\
         Forall (fun t => isTypeSupported t = false) before) /\
      line = (LogLine, "Found supported specific mimeType: " ++ mimeType)
  | (None, line) =>
      Forall (fun t => isTypeSupported t = false) typesToTest /\
      fst line = WarnLine
  end.
Proof.
  unfold getSupportedMimeTypeOptions.
  pose proof (first_supported_spec isTypeSupported typesToTest) as H.
  destruct (first_supported isTypeSupported typesToTest) as [m|].
  - split; [exact H|reflexivity].
  - split; [exact H|reflexivity].
Qed.

End ScriptFacts.

(* ================================================================== *)
(** * SnowflakeRenderer: one loop, and flakes that stay on the screen *)
(* ================================================================== *)

Section SnowflakeFacts.
Import SnowflakeRenderer Snow.
Import DotCanvas(unit_draw).

Variable random : nat -> Q.
Variable parseFloat_left : Q -> Q.
Variable sin : Q -> Q.

Lemma generate_length (passes : nat) (color : string) (l : layout) :
  forall fl n,
  List.length (fst (generate random parseFloat_left passes color l fl n))
  = (List.length fl + passes)%nat.
Proof.
  induction passes as [|k IH]; intros fl n; cbn [generate].
  - cbn [fst]. lia.
  - cbn [_createSnowflake]. rewrite IH, length_app. cbn [List.length]. lia.
Qed.

Lemma move_all_length (time : Q) (l : layout) :
  forall fs n,
  List.length (fst (move_all random sin time l fs n)) = List.length fs.
Proof.
  induction fs as [|f fs IH]; intros n; [reflexivity|].
  cbn [move_all].
  destruct (move random sin time l f n) as [f' n1].
  specialize (IH n1).
  destruct (move_all random sin time l fs n1) as [rest n2].
  cbn [fst List.length] in *. rewrite IH. reflexivity.
Qed.

Lemma step_settled (count : Q) (r : renderer) (e : event) :
  settled count r -> settled count (step random parseFloat_left sin r e).
Proof.
  intros [Hc H]. destruct e as [l| |now l]; cbn [step].
  - unfold start. destruct (isRunning r) eqn:Erun.
    { split; [exact Hc|]. rewrite Erun. exact H. }
    destruct H as (Hi & Ha & Hf & Hfr).
    unfold _createIframe. cbn [iframe]. rewrite Hi.
    unfold _generateSnowflakes.
    cbn [snowflakeCount color flakes drawn iframe animationFrameId isRunning
         attached frames nextFrame console].
    rewrite Hc, Hf, Ha, Hfr.
    pose proof (generate_length (passes_of count) (color r) l [] (drawn r))
      as Hlen.
    destruct (generate random parseFloat_left (passes_of count) (color r) l []
                (drawn r)) as [fl n].
    cbn [fst List.length] in Hlen.
    split; [reflexivity|]. cbn.
    split; [reflexivity|]. split; [reflexivity|]. split; [exact Hlen|].
    eexists. split; reflexivity.
  - unfold stop. destruct (isRunning r) eqn:Erun; cbn [negb].
    + destruct H as (Hi & Ha & Hf & id & Hid & Hfr).
      rewrite Hid, Hfr, Hi, Ha. split; [exact Hc|].
      cbn. rewrite Nat.eqb_refl. repeat split.
    + split; [exact Hc|]. rewrite Erun. exact H.
  - unfold animation_frame. destruct (isRunning r) eqn:Erun.
    + destruct H as (Hi & Ha & Hf & id & Hid & Hfr).
      rewrite Hfr. unfold update.
      cbn [isRunning iframe flakes drawn snowflakeCount color animationFrameId
           attached frames nextFrame console].
      rewrite Hi. cbn [negb orb].
      pose proof (move_all_length (inject_Z now / 1000) l (flakes r) (drawn r))
        as Hlen.
      destruct (move_all random sin (inject_Z now / 1000) l (flakes r)
                  (drawn r)) as [fl n].
      cbn [fst] in Hlen.
      split; [exact Hc|]. cbn.
      split; [reflexivity|]. split; [exact Ha|].
      split; [rewrite Hlen; exact Hf|].
      eexists. split; reflexivity.
    + destruct H as (Hi & Ha & Hf & Hfr). rewrite Hfr.
      split; [exact Hc|]. rewrite Erun. repeat split; assumption.
Qed.

Lemma run_settled (count : Q) (events : list event) :
  forall r, settled count r ->
  settled count (run random parseFloat_left sin events r).
Proof.
  induction events as [|e events IH]; intros r H; [exact H|].
  cbn [run fold_left]. apply IH. apply step_settled. exact H.
Qed.

(** X11.  Whatever calls of [start()] and [stop()] and animation frames
    follow the constructor, a running renderer has its iframe in the body
    once, one flake for each pass of the loop over the count, and exactly
    one animation frame requested, the one whose id it holds; a stopped
    renderer has no iframe in the body, no flake and no frame requested. *)
Theorem renderer_runs_one_loop (count : Q) (color : string)
  (events : list event) :
  let r := run random parseFloat_left sin events (constructor count color) in
  if isRunning r
  then iframe r = true /\ attached r = 1%nat /\
       List.length (flakes r) = passes_of count /\
       exists id, animationFrameId r = Some id /\ frames r = [id]
  else iframe r = false /\ attached r = 0%nat /\ flakes r = [] /\
       frames r = [].
Proof.
  intros r.
  assert (H : settled count r).
  { apply run_settled. split; [reflexivity|]. cbn. repeat split. }
  exact (proj2 H).
Qed.

Hypothesis random_unit : forall i, unit_draw (random i).

Lemma gt_cases (a b : Q) :
  (gt a b = true /\ (b < a)%Q) \/ (gt a b = false /\ (a <= b)%Q).
Proof.
  unfold gt. destruct (Qle_bool a b) eqn:E.
  - right. split; [reflexivity|]. apply Qle_bool_iff. exact E.
  - left. split; [reflexivity|]. apply Qnot_le_lt. intros H.
    apply Qle_bool_iff in H. congruence.
Qed.

Lemma lt_cases (a b : Q) :
  (lt a b = true /\ (a < b)%Q) \/ (lt a b = false /\ (b <= a)%Q).
Proof. exact (gt_cases b a). Qed.

Lemma createSnowflake_as_created (color : string) (n : nat) :
  let f := fst (_createSnowflake random parseFloat_left color n) in
  as_created f /\ y f = (- size f)%Q /\ style_fontSize (flake_element f) = size f.
Proof.
  cbn [_createSnowflake fst]. unfold as_created.
  cbn [size speed wind initialOffset y flake_element style_fontSize].
  destruct (random_unit n), (random_unit (n + 1)), (random_unit (n + 2)),
    (random_unit (n + 6)).
  repeat split; try lra; reflexivity.
Qed.

Lemma generate_as_created (passes : nat) (color : string) (l : layout) :
  forall fl n,
  Forall as_created fl ->
  Forall as_created (fst (generate random parseFloat_left passes color l fl n)).
Proof.
  induction passes as [|k IH]; intros fl n H; cbn [generate]; [exact H|].
  pose proof (proj1 (createSnowflake_as_created color n)) as Hc.
  destruct (_createSnowflake random parseFloat_left color n) as [f n1].
  cbn [fst] in Hc. apply IH. apply Forall_app. split; [exact H|].
  constructor; [|constructor]. exact Hc.
Qed.

Lemma move_spec (time : Q) (l : layout) (f : flake) (n : nat) :
  (0 <= size f)%Q -> 0 <= offsetWidth l -> 0 <= offsetHeight l ->
  let f' := fst (move random sin time l f n) in
  on_screen l f' /\
  size f' = size f /\ speed f' = speed f /\ wind f' = wind f /\
  initialOffset f' = initialOffset f.
Proof.
  intros Hs Hw Hh. unfold move.
  assert (HW : (0 <= inject_Z (offsetWidth l))%Q)
    by (change 0%Q with (inject_Z 0); rewrite <- Zle_Qle; exact Hw).
  assert (HH : (0 <= inject_Z (offsetHeight l))%Q)
    by (change 0%Q with (inject_Z 0); rewrite <- Zle_Qle; exact Hh).
  set (W := inject_Z (offsetWidth l)) in *.
  set (H := inject_Z (offsetHeight l)) in *.
  assert (Hdraw : forall i, (0 <= random i * W)%Q /\ (random i * W <= W)%Q).
  { intros i. destruct (random_unit i) as [H0 H1]. split.
    - apply Qmult_le_0_compat; assumption.
    - rewrite <- (Qmult_1_l W) at 2.
      apply Qmult_le_compat_r; [apply Qlt_le_weak; exact H1|exact HW]. }
  set (y1 := (y f + speed f)%Q).
  set (x1 := (x f + (wind f + sin (time + initialOffset f) * (1 # 10)))%Q).
  destruct (gt_cases y1 H) as [[-> Hy]|[-> Hy]].
  - destruct (lt_cases (random n * W) (- size f)) as [[-> Hx1]|[-> Hx1]];
      cbn [orb fst].
    + unfold on_screen. cbn. fold W H.
      destruct (Hdraw (S n)). repeat split; try lra; reflexivity.
    + destruct (gt_cases (random n * W) W) as [[-> Hx2]|[-> Hx2]];
        cbn [fst]; unfold on_screen; cbn; fold W H.
      * destruct (Hdraw (S n)). repeat split; try lra; reflexivity.
      * repeat split; try lra; reflexivity.
  - destruct (lt_cases x1 (- size f)) as [[-> Hx1]|[-> Hx1]]; cbn [orb fst].
    + unfold on_screen. cbn. fold W H.
      destruct (Hdraw n). repeat split; try lra; reflexivity.
    + destruct (gt_cases x1 W) as [[-> Hx2]|[-> Hx2]];
        cbn [fst]; unfold on_screen; cbn; fold W H.
      * destruct (Hdraw n). repeat split; try lra; reflexivity.
      * repeat split; try lra; reflexivity.
Qed.

Lemma move_all_spec (time : Q) (l : layout) :
  0 <= offsetWidth l -> 0 <= offsetHeight l ->
  forall fs n,
  Forall as_created fs ->
  Forall (on_screen l) (fst (move_all random sin time l fs n)) /\
  Forall as_created (fst (move_all random sin time l fs n)).
Proof.
  intros Hw Hh. induction fs as [|f fs IH]; intros n Hall.
  - split; constructor.
  - inversion Hall as [|? ? Hf Hfs]; subst. cbn [move_all].
    assert (Hsize : (0 <= size f)%Q) by (destruct Hf as [Hf _]; lra).
    pose proof (move_spec time l f n Hsize Hw Hh) as Hm.
    destruct (move random sin time l f n) as [f' n1]. cbn [fst] in Hm.
    specialize (IH n1 Hfs).
    destruct (move_all random sin time l fs n1) as [rest n2].
    cbn [fst] in *. destruct IH as [IH1 IH2].
    destruct Hm as (Hon & E1 & E2 & E3 & E4).
    split; constructor; try assumption.
    unfold as_created. rewrite E1, E2, E3, E4. exact Hf.
Qed.

Lemma move_fields (time : Q) (l : layout) (f : flake) (n : nat) :
  let f' := fst (move random sin time l f n) in
  size f' = size f /\ speed f' = speed f /\ wind f' = wind f /\
  initialOffset f' = initialOffset f.
Proof.
  unfold move.
  destruct (gt _ _); destruct (_ || _); repeat split.
Qed.

Lemma move_all_as_created (time : Q) (l : layout) :
  forall fs n,
  Forall as_created fs ->
  Forall as_created (fst (move_all random sin time l fs n)).
Proof.
  induction fs as [|f fs IH]; intros n Hall; [constructor|].
  inversion Hall as [|? ? Hf Hfs]; subst. cbn [move_all].
  pose proof (move_fields time l f n) as Hm.
  destruct (move random sin time l f n) as [f' n1]. cbn [fst] in Hm.
  specialize (IH n1 Hfs).
  destruct (move_all random sin time l fs n1) as [rest n2].
  cbn [fst] in *. destruct Hm as (E1 & E2 & E3 & E4).
  constructor; [|exact IH].
  unfold as_created. rewrite E1, E2, E3, E4. exact Hf.
Qed.

Lemma step_as_created (r : renderer) (e : event) :
  Forall as_created (flakes r) ->
  Forall as_created (flakes (step random parseFloat_left sin r e)).
Proof.
  intros H. destruct e as [l| |now l]; cbn [step].
  - unfold start. destruct (isRunning r); [exact H|].
    unfold _createIframe. cbn [iframe]. destruct (iframe r); [exact H|].
    unfold _generateSnowflakes.
    cbn [snowflakeCount color flakes drawn].
    pose proof (generate_as_created (passes_of (snowflakeCount r)) (color r) l
                  (flakes r) (drawn r) H) as Hg.
    destruct (generate random parseFloat_left (passes_of (snowflakeCount r))
                (color r) l (flakes r) (drawn r)) as [fl n].
    exact Hg.
  - unfold stop. destruct (isRunning r); cbn [negb]; [constructor|exact H].
  - unfold animation_frame. destruct (frames r) as [|id rest]; [exact H|].
    unfold update. cbn [isRunning iframe flakes drawn].
    destruct (negb (isRunning r) || negb (iframe r)); [exact H|].
    pose proof (move_all_as_created (inject_Z now / 1000) l (flakes r)
                  (drawn r) H) as Hm.
    destruct (move_all random sin (inject_Z now / 1000) l (flakes r)
                (drawn r)) as [fl n].
    exact Hm.
Qed.

Lemma run_as_created (events : list event) :
  forall r, Forall as_created (flakes r) ->
  Forall as_created (flakes (run random parseFloat_left sin events r)).
Proof.
  induction events as [|e events IH]; intros r H; [exact H|].
  cbn [run fold_left]. apply IH. apply step_as_created. exact H.
Qed.

(** X12.  Every flake of a renderer, whatever has been called since the
    constructor, has the size, speed, wind and offset that
    [_createSnowflake] drew for it: a size from 22 to 37 pixels, a fall of
    0.1 to 0.6 pixels a frame, a wind from -0.25 to 0.25, an offset from 0 to
    100, the ends included. *)
Theorem flakes_keep_what_was_drawn (count : Q) (color : string)
  (events : list event) :
  Forall as_created
    (flakes (run random parseFloat_left sin events (constructor count color))).
Proof. apply run_as_created. constructor. Qed.

(** X13.  An animation frame that comes while the renderer runs leaves
    every flake with [x] between minus its size and the width of the iframe,
    with [y] at most the height of the iframe, and with these two numbers as
    the translation in the style of its element. *)
Theorem frame_keeps_flakes_on_screen (count : Q) (color : string)
  (events : list event) (now : Z) (l : layout) :
  0 <= offsetWidth l -> 0 <= offsetHeight l ->
  isRunning (run random parseFloat_left sin events (constructor count color))
  = true ->
  Forall (on_screen l)
    (flakes (run random parseFloat_left sin (events ++ [Frame now l])%list
               (constructor count color))).
Proof.
  intros Hw Hh Hrun. unfold run. rewrite fold_left_app. cbn [fold_left step].
  fold (run random parseFloat_left sin events (constructor count color)).
  set (r := run random parseFloat_left sin events (constructor count color))
    in *.
  assert (Hset : settled count r).
  { apply run_settled. split; [reflexivity|]. cbn. repeat split. }
  assert (Hcr : Forall as_created (flakes r))
    by (apply run_as_created; constructor).
  destruct Hset as [_ Hset]. rewrite Hrun in Hset.
  destruct Hset as (Hi & _ & _ & id & _ & Hfr).
  unfold animation_frame. rewrite Hfr. unfold update.
  cbn [isRunning iframe flakes drawn]. rewrite Hrun, Hi. cbn [negb orb].
  pose proof (proj1 (move_all_spec (inject_Z now / 1000) l Hw Hh (flakes r)
                       (drawn r) Hcr)) as Hm.
  destruct (move_all random sin (inject_Z now / 1000) l (flakes r) (drawn r))
    as [fl n].
  exact Hm.
Qed.

End SnowflakeFacts.

Section SnowflakeWitnesses.
Import SnowflakeRenderer Snow.
Import DotCanvas(unit_draw).

Lemma flakes_keep_what_was_drawn_witness :
  Forall as_created
    (flakes (run (fun _ => (1 # 2)%Q) (fun q => q) (fun _ => 0%Q)
               [Start (mkLayout 800 600)] (constructor 2%Q "#e0f2ff"))).
Proof.
  apply (flakes_keep_what_was_drawn (fun _ => (1 # 2)%Q) (fun q => q) (fun _ => 0%Q)).
  intros i. split; [discriminate|reflexivity].
Defined.

Lemma frame_keeps_flakes_on_screen_witness :
  Forall (on_screen (mkLayout 800 600))
    (flakes (run (fun _ => (1 # 2)%Q) (fun q => q) (fun _ => 0%Q)
               [Start (mkLayout 800 600); Frame 1000 (mkLayout 800 600)]
               (constructor 2%Q "#e0f2ff"))).
Proof.
  apply (frame_keeps_flakes_on_screen (fun _ => (1 # 2)%Q) (fun q => q)
           (fun _ => 0%Q) ltac:(intros i; split; [discriminate|reflexivity])
           2%Q "#e0f2ff" [Start (mkLayout 800 600)] 1000 (mkLayout 800 600)).
  - cbn. lia.
  - cbn. lia.
  - reflexivity.
Defined.

End SnowflakeWitnesses.

Section SnowflakeNumbers.
Import SnowflakeRenderer.
Import DotCanvas(unit_draw).
Local Open Scope Q_scope.

Lemma sub_mono_l (a a' b : Q) : a <= a' -> Double.sub a b <= Double.sub a' b.
Proof.
  intros H. unfold Double.sub. apply round_mono. unfold Qminus.
  apply Qplus_le_l. exact H.
Qed.

Lemma size_binary64_mono (r r' : Q) :
  r <= r' -> size_binary64 r <= size_binary64 r'.
Proof.
  intros H. unfold size_binary64. apply add_mono; [|apply Qle_refl].
  apply mul_mono_l; [discriminate|exact H].
Qed.

Lemma speed_binary64_mono (r r' : Q) :
  r <= r' -> speed_binary64 r <= speed_binary64 r'.
Proof.
  intros H. unfold speed_binary64. apply add_mono; [|apply Qle_refl].
  apply mul_mono_l; [discriminate|exact H].
Qed.

Lemma wind_binary64_mono (r r' : Q) :
  r <= r' -> wind_binary64 r <= wind_binary64 r'.
Proof.
  intros H. unfold wind_binary64. apply sub_mono_l.
  apply mul_mono_l; [discriminate|exact H].
Qed.

Lemma initialOffset_binary64_mono (r r' : Q) :
  r <= r' -> initialOffset_binary64 r <= initialOffset_binary64 r'.
Proof.
  intros H. unfold initialOffset_binary64.
  apply mul_mono_l; [discriminate|exact H].
Qed.

(** X28.  As the engine computes them, for every number of binary64 that
    [Math.random()] can return, the size of a new flake is from 22 to 37,
    its speed from 0.1 to 0.6, its wind from -0.25 to 0.25 and its offset
    from 0 to 100.  The upper ends of the size and of the speed are reached:
    when [Math.random()] returns its largest value, [1 - 2^-53], the size is
    37 and the speed is the number that [0.6] denotes.  The wind and the
    offset stay below 0.25 and 100. *)
Theorem drawn_numbers_as_rounded :
  (forall random : Q,
     unit_draw random -> Double.representable random ->
     22 <= size_binary64 random <= 37 /\
     (1 # 10) <= speed_binary64 random <= (6 # 10) /\
     - (1 # 4) <= wind_binary64 random < (1 # 4) /\
     0 <= initialOffset_binary64 random < 100) /\
  size_binary64 Double.below_one == 37 /\
  speed_binary64 Double.below_one == Double.round (6 # 10).
Proof.
  split.
  - intros random [H0 H1] Hrep.
    pose proof (representable_below_one random Hrep H1) as Htop.
    repeat split.
    + eapply Qle_trans; [|apply size_binary64_mono; exact H0].
      apply closed_le. vm_compute. reflexivity.
    + eapply Qle_trans; [apply size_binary64_mono; exact Htop|].
      apply closed_le. vm_compute. reflexivity.
    + eapply Qle_trans; [|apply speed_binary64_mono; exact H0].
      apply closed_le. vm_compute. reflexivity.
    + eapply Qle_trans; [apply speed_binary64_mono; exact Htop|].
      apply closed_le. vm_compute. reflexivity.
    + eapply Qle_trans; [|apply wind_binary64_mono; exact H0].
      apply closed_le. vm_compute. reflexivity.
    + eapply Qle_lt_trans; [apply wind_binary64_mono; exact Htop|].
      apply closed_lt. vm_compute. reflexivity.
    + eapply Qle_trans; [|apply initialOffset_binary64_mono; exact H0].
      apply closed_le. vm_compute. reflexivity.
    + eapply Qle_lt_trans; [apply initialOffset_binary64_mono; exact Htop|].
      apply closed_lt. vm_compute. reflexivity.
  - split; apply Qeq_bool_iff; vm_compute; reflexivity.
Qed.

Lemma drawn_numbers_as_rounded_witness :
  22 <= size_binary64 (1 # 2) <= 37.
Proof.
  refine (proj1 (proj1 drawn_numbers_as_rounded (1 # 2) _ _)).
  - split; [discriminate|reflexivity].
  - unfold Double.representable. apply Qeq_bool_iff. vm_compute. reflexivity.
Defined.

End SnowflakeNumbers.

(* ================================================================== *)
(** * DotCanvas: counts, places and delays *)
(* ================================================================== *)

Section CanvasFacts.
Import DotCanvas.

Lemma getRandomColor_returned (rs rest : list Q) (col : string) :
  getRandomColor rs = Returned col rest ->
  col = "#ffffff" /\ exists used, rs = (used ++ rest)%list.
Proof.
  unfold getRandomColor.
  destruct rs as [|a [|b [|c [|d [|e [|f rs]]]]]]; try discriminate.
  intros H. injection H as <- <-. split; [reflexivity|].
  exists [a; b; c; d; e; f]. reflexivity.
Qed.

Lemma scheduleNextLine_returned (rs rest : list Q) (c c' : canvas) :
  scheduleNextLine rs c = Returned c' rest ->
  exists r, rs = r :: rest /\
    c' = mkCanvas (width c) (height c) (maxDots c) (dotRadius c) (dots c)
           (lines c) (dotCount c) (Some (r * (1000 - 200) + 200)%Q).
Proof.
  unfold scheduleNextLine. destruct rs as [|r rs]; [discriminate|].
  intros H. injection H as <- <-. exists r. split; reflexivity.
Qed.

Lemma retry_returned (n : nat) (i1 : Z) (rs : list Q) :
  forall i2 i rest,
  retry n i1 i2 rs = Returned i rest -> exists used, rs = (used ++ rest)%list.
Proof.
  induction rs as [|r rs IH]; intros i2 i rest; cbn [retry].
  - destruct (i1 =? i2); [discriminate|].
    intros H. injection H as _ <-. exists []. reflexivity.
  - destruct (i1 =? i2).
    + intros H. destruct (IH _ _ _ H) as (used & ->).
      exists (r :: used). reflexivity.
    + intros H. injection H as _ <-. exists []. reflexivity.
Qed.

(** What a call of [addRandomDot] that returns has done. *)
Lemma addRandomDot_returned (rs rest : list Q) (c c' : canvas) :
  addRandomDot rs c = Returned c' rest ->
  width c' = width c /\ height c' = height c /\ maxDots c' = maxDots c /\
  dotRadius c' = dotRadius c /\ lines c' = lines c /\
  (exists used, rs = (used ++ rest)%list) /\
  ((dotCount c <= maxDots c /\
    exists rx ry tail,
      rs = rx :: ry :: tail /\
      dots c' = (dots c ++ [mkDot (rx * width c) (ry * height c)
                              (dotRadius c) "#ffffff"])%list /\
      dotCount c' = dotCount c + 1) \/
   (maxDots c < dotCount c /\ dots c' = dots c /\ dotCount c' = dotCount c)) /\
  (lineTimeout c' = lineTimeout c \/
   exists r, In r rs /\ lineTimeout c' = Some (r * (1000 - 200) + 200)%Q).
Proof.
  unfold addRandomDot.
  destruct (Z.leb_spec (dotCount c) (maxDots c)) as [Hle|Hgt].
  - destruct rs as [|rx [|ry tail]]; try discriminate.
    destruct (getRandomColor tail) as [col rest'| |] eqn:Ecol; try discriminate.
    destruct (getRandomColor_returned _ _ _ Ecol) as (-> & used & ->).
    cbn [dotCount].
    destruct (dotCount c + 1 =? 10).
    + intros H. destruct (scheduleNextLine_returned _ _ _ _ H) as (r & -> & ->).
      cbn. repeat split.
      * exists (rx :: ry :: used ++ [r])%list.
        cbn [app]. rewrite <- app_assoc. reflexivity.
      * left. split; [exact Hle|]. eexists _, _, _. repeat split.
      * right. exists r. split; [|reflexivity].
        right. right. apply in_or_app. right. left. reflexivity.
    + intros H. injection H as <- <-. cbn. repeat split.
      * exists (rx :: ry :: used). reflexivity.
      * left. split; [exact Hle|]. eexists _, _, _. repeat split.
      * left. reflexivity.
  - destruct (dotCount c =? 10).
    + intros H. destruct (scheduleNextLine_returned _ _ _ _ H) as (r & -> & ->).
      cbn. repeat split.
      * exists [r]. reflexivity.
      * right. repeat split. exact Hgt.
      * right. exists r. split; [left|]; reflexivity.
    + intros H. injection H as <- <-. repeat split.
      * exists []. reflexivity.
      * right. repeat split. exact Hgt.
      * left. reflexivity.
Qed.

(** What a call of [addRandomLine] that returns has done. *)
Lemma addRandomLine_returned (rs rest : list Q) (c c' : canvas) :
  addRandomLine rs c = Returned c' rest ->
  width c' = width c /\ height c' = height c /\ maxDots c' = maxDots c /\
  dotRadius c' = dotRadius c /\ dots c' = dots c /\
  dotCount c' = dotCount c /\
  (exists used, rs = (used ++ rest)%list) /\
  (exists new,
     lines c' = ((if (20 <? List.length (lines c))%nat then [] else lines c)
                 ++ [new])%list) /\
  (exists r, In r rs /\ lineTimeout c' = Some (r * (1000 - 200) + 200)%Q).
Proof.
  unfold addRandomLine.
  destruct rs as [|r1 [|r2 tail]]; try discriminate.
  destruct (retry _ _ _ tail) as [i2 rest1| |] eqn:Eretry; try discriminate.
  destruct (retry_returned _ _ _ _ _ _ Eretry) as (used1 & ->).
  destruct (getRandomColor rest1) as [col rest2| |] eqn:Ecol; try discriminate.
  destruct (getRandomColor_returned _ _ _ Ecol) as (-> & used2 & ->).
  intros H. destruct (scheduleNextLine_returned _ _ _ _ H) as (r & -> & ->).
  cbn. repeat split.
  - exists (r1 :: r2 :: used1 ++ used2 ++ [r])%list.
    cbn [app]. rewrite <- !app_assoc. reflexivity.
  - eexists. reflexivity.
  - exists r. split; [|reflexivity].
    right. right. apply in_or_app. right. apply in_or_app. right.
    left. reflexivity.
Qed.

Lemma run_returned (calls : list callback) :
  forall (rs rest : list Q) (c c' : canvas),
  run calls rs c = Returned c' rest ->
  dotCount c = Z.of_nat (List.length (dots c)) ->
  dotCount c <= Z.max 0 (maxDots c + 1) ->
  (List.length (lines c) <= 21)%nat ->
  maxDots c' = maxDots c /\ dotRadius c' = dotRadius c /\
  dotCount c' = Z.of_nat (List.length (dots c')) /\
  dotCount c' <= Z.max 0 (maxDots c + 1) /\
  (List.length (lines c') <= 21)%nat.
Proof.
  induction calls as [|call calls IH]; intros rs rest c c' Hrun Hcount Hcap Hlines;
    cbn [run] in Hrun.
  - injection Hrun as <- <-. repeat split; assumption.
  - destruct call as [| |iw ih].
    + destruct (addRandomDot rs c) as [c1 rs1| |] eqn:E; try discriminate.
      destruct (addRandomDot_returned _ _ _ _ E)
        as (_ & _ & Hm & Hr & Hl & _ & Hd & _).
      assert (H1 : dotCount c1 = Z.of_nat (List.length (dots c1)) /\
                   dotCount c1 <= Z.max 0 (maxDots c + 1)).
      { destruct Hd as [(Hle & rx & ry & tail & _ & Hdots & Hdc)
                       |(Hgt & Hdots & Hdc)].
        - rewrite Hdots, Hdc, length_app. cbn [List.length]. lia.
        - rewrite Hdots, Hdc. split; assumption. }
      destruct H1 as [H1 H2].
      destruct (IH _ _ _ _ Hrun H1 ltac:(rewrite Hm; exact H2)
                  ltac:(rewrite Hl; exact Hlines))
        as (A & B & C & D & F).
      rewrite Hm in A, D. rewrite Hr in B. repeat split; assumption.
    + destruct (addRandomLine rs c) as [c1 rs1| |] eqn:E; try discriminate.
      destruct (addRandomLine_returned _ _ _ _ E)
        as (_ & _ & Hm & Hr & Hd & Hdc & _ & (new & Hl) & _).
      assert (H3 : (List.length (lines c1) <= 21)%nat).
      { rewrite Hl, length_app. cbn [List.length].
        destruct (Nat.ltb_spec 20 (List.length (lines c))); cbn [List.length];
          lia. }
      destruct (IH _ _ _ _ Hrun ltac:(rewrite Hdc, Hd; exact Hcount)
                  ltac:(rewrite Hm, Hdc; exact Hcap) H3)
        as (A & B & C & D & F).
      rewrite Hm in A, D. rewrite Hr in B. repeat split; assumption.
    + destruct (IH _ _ _ _ Hrun Hcount Hcap Hlines) as (A & B & C & D & F).
      repeat split; assumption.
Qed.

(** X14.  Whatever callbacks have run since the constructor, the canvas
    holds as many dots as [dotCount] says and at most [maxDots + 1] of them,
    one more than the maximum given to the constructor (none when
    [maxDots] is negative); [dotCount] is never set back.  It holds at most
    21 lines. *)
Theorem canvas_holds_maxDots_plus_one (width height : Q) (maxDots : Z)
  (dotRadius : Q) (calls : list callback) (rs rest : list Q) (c : canvas) :
  run calls rs (constructor width height maxDots dotRadius) = Returned c rest ->
  dotCount c = Z.of_nat (List.length (dots c)) /\
  dotCount c <= Z.max 0 (maxDots + 1) /\
  (List.length (lines c) <= 21)%nat.
Proof.
  intros H.
  destruct (run_returned calls rs rest _ c H eq_refl
              ltac:(cbn; lia) ltac:(cbn; lia))
    as (_ & _ & A & B & C).
  repeat split; assumption.
Qed.

Lemma canvas_holds_maxDots_plus_one_witness :
  exists c,
    run [Animate; Animate; Animate] (repeat 0%Q 30)
      (constructor 800 600 1 2) = Returned c (repeat 0%Q 14) /\
    (dotCount c = Z.of_nat (List.length (dots c)) /\
     dotCount c <= Z.max 0 (1 + 1) /\
     (List.length (lines c) <= 21)%nat).
Proof.
  eexists. split; [reflexivity|].
  apply (canvas_holds_maxDots_plus_one 800 600 1 2
           [Animate; Animate; Animate] (repeat 0%Q 30) (repeat 0%Q 14)).
  reflexivity.
Defined.

Lemma addRandomDot_progress (rs : list Q) (c : canvas) :
  (9 <= List.length rs)%nat ->
  exists c' rest,
    addRandomDot rs c = Returned c' rest /\
    (List.length rs <= List.length rest + 9)%nat /\
    maxDots c' = maxDots c /\
    dotCount c' = if dotCount c <=? maxDots c then dotCount c + 1
                  else dotCount c.
Proof.
  intros Hlen.
  destruct rs as [|r1 [|r2 [|r3 [|r4 [|r5 [|r6 [|r7 [|r8 [|r9 rs]]]]]]]]];
    cbn [List.length] in Hlen; try lia.
  unfold addRandomDot. destruct (dotCount c <=? maxDots c).
  - cbn [getRandomColor dotCount]. destruct (dotCount c + 1 =? 10).
    + eexists _, _. split; [reflexivity|]. cbn. repeat split. lia.
    + eexists _, _. split; [reflexivity|]. cbn. repeat split. lia.
  - destruct (dotCount c =? 10).
    + eexists _, _. split; [reflexivity|]. cbn. repeat split. lia.
    + eexists _, _. split; [reflexivity|]. cbn. repeat split. lia.
Qed.

Lemma animate_progress (k : nat) :
  forall (rs : list Q) (c : canvas),
  (9 * k <= List.length rs)%nat ->
  exists c' rest,
    run (repeat Animate k) rs c = Returned c' rest /\
    dotCount c'
    = Z.min (dotCount c + Z.of_nat k) (Z.max (dotCount c) (maxDots c + 1)).
Proof.
  induction k as [|k IH]; intros rs c Hlen.
  - exists c, rs. split; [reflexivity|]. cbn [Z.of_nat]. lia.
  - destruct (addRandomDot_progress rs c ltac:(lia))
      as (c1 & rs1 & E & Hl & Hm & Hd).
    destruct (IH rs1 c1 ltac:(lia)) as (c' & rest & Hrun & Hc).
    exists c', rest. cbn [repeat run]. rewrite E. split; [exact Hrun|].
    rewrite Hc, Hm, Hd.
    destruct (Z.leb_spec (dotCount c) (maxDots c)); lia.
Qed.

(** X15.  With nine values of [Math.random()] for each frame, [k]
    animation frames after the constructor the canvas has counted [k] dots,
    until it has counted [maxDots + 1]: the dot that makes the count exceed
    [maxDots] is still added, and the count stays there. *)
Theorem animate_adds_a_dot_up_to_maxDots_plus_one (width height : Q)
  (maxDots : Z) (dotRadius : Q) (k : nat) (rs : list Q) :
  (9 * k <= List.length rs)%nat ->
  exists c rest,
    run (repeat Animate k) rs (constructor width height maxDots dotRadius)
    = Returned c rest /\
    dotCount c = Z.min (Z.of_nat k) (Z.max 0 (maxDots + 1)).
Proof.
  intros Hlen.
  destruct (animate_progress k rs (constructor width height maxDots dotRadius)
              Hlen) as (c & rest & Hrun & Hc).
  exists c, rest. split; [exact Hrun|]. rewrite Hc. reflexivity.
Qed.

Lemma animate_adds_a_dot_up_to_maxDots_plus_one_witness :
  exists c rest,
    run (repeat Animate 5) (repeat 0%Q 45) (constructor 800 600 2 2)
    = Returned c rest /\
    dotCount c = 3.
Proof.
  apply (animate_adds_a_dot_up_to_maxDots_plus_one 800 600 2 2 5
           (repeat 0%Q 45)).
  cbn. lia.
Defined.

End CanvasFacts.

Section CanvasPlaces.
Import DotCanvas Canvas.

Lemma delay_in_range (r : Q) :
  unit_draw r ->
  (200 <= r * (1000 - 200) + 200)%Q /\ (r * (1000 - 200) + 200 < 1000)%Q.
Proof. intros [H0 H1]. split; lra. Qed.

Lemma suffix_Forall (A : Type) (P : A -> Prop) (l rest : list A) :
  (exists used, l = (used ++ rest)%list) -> Forall P l -> Forall P rest.
Proof.
  intros (used & ->) H. apply Forall_app in H. exact (proj2 H).
Qed.

Lemma run_placed (w h rad : Q) (calls : list callback) :
  (0 <= w)%Q -> (0 <= h)%Q ->
  forallb keeps_size calls = true ->
  forall (rs rest : list Q) (c c' : canvas),
  Forall unit_draw rs ->
  run calls rs c = Returned c' rest ->
  width c = w -> height c = h -> dotRadius c = rad ->
  Forall (placed w h rad) (dots c) -> timer_in_range c ->
  Forall (placed w h rad) (dots c') /\ timer_in_range c'.
Proof.
  intros Hw Hh. induction calls as [|call calls IH];
    intros Hkeep rs rest c c' Hrs Hrun Ew Eh Er Hdots Htimer;
    cbn [run] in Hrun.
  - injection Hrun as <- <-. split; assumption.
  - cbn [forallb] in Hkeep. apply andb_prop in Hkeep.
    destruct Hkeep as [Hcall Hkeep]. specialize (IH Hkeep).
    destruct call as [| |iw ih]; [| |discriminate].
    + destruct (addRandomDot rs c) as [c1 rs1| |] eqn:E; try discriminate.
      destruct (addRandomDot_returned _ _ _ _ E)
        as (Hw1 & Hh1 & _ & Hr1 & _ & Hsuf & Hd & Ht).
      apply (IH rs1 rest c1 c' (suffix_Forall _ _ _ _ Hsuf Hrs) Hrun);
        try congruence.
      * destruct Hd as [(_ & rx & ry & tail & -> & -> & _)|(_ & -> & _)];
          [|exact Hdots].
        apply Forall_app. split; [exact Hdots|].
        constructor; [|constructor].
        inversion Hrs as [|? ? [X0 X1] Hrs']; subst.
        inversion Hrs' as [|? ? [Y0 Y1] _]; subst.
        unfold placed. cbn [x y radius color]. repeat split.
        -- apply Qmult_le_0_compat; assumption.
        -- rewrite <- (Qmult_1_l (width c)) at 2.
           apply Qmult_le_compat_r; [apply Qlt_le_weak; exact X1|exact Hw].
        -- apply Qmult_le_0_compat; assumption.
        -- rewrite <- (Qmult_1_l (height c)) at 2.
           apply Qmult_le_compat_r; [apply Qlt_le_weak; exact Y1|exact Hh].
      * unfold timer_in_range in *.
        destruct Ht as [->|(r & Hin & ->)]; [exact Htimer|].
        apply delay_in_range. rewrite Forall_forall in Hrs. exact (Hrs r Hin).
    + destruct (addRandomLine rs c) as [c1 rs1| |] eqn:E; try discriminate.
      destruct (addRandomLine_returned _ _ _ _ E)
        as (Hw1 & Hh1 & _ & Hr1 & Hd & _ & Hsuf & _ & (r & Hin & Ht)).
      apply (IH rs1 rest c1 c' (suffix_Forall _ _ _ _ Hsuf Hrs) Hrun);
        try congruence.
      unfold timer_in_range. rewrite Ht.
      apply delay_in_range. rewrite Forall_forall in Hrs. exact (Hrs r Hin).
Qed.

(** X16.  While the canvas keeps its size, every dot lies inside it, has
    the radius given to the constructor and is white, whatever
    [getRandomColor] has drawn; and the timer of the next line, once set,
    waits from 200 up to 1000 milliseconds. *)
Theorem dots_lie_inside_the_canvas (width height : Q) (maxDots : Z)
  (dotRadius : Q) (calls : list callback) (rs rest : list Q) (c : canvas) :
  (0 <= width)%Q -> (0 <= height)%Q ->
  forallb keeps_size calls = true ->
  Forall unit_draw rs ->
  run calls rs (constructor width height maxDots dotRadius) = Returned c rest ->
  Forall (placed width height dotRadius) (dots c) /\ timer_in_range c.
Proof.
  intros Hw Hh Hkeep Hrs Hrun.
  apply (run_placed width height dotRadius calls Hw Hh Hkeep rs rest
           (constructor width height maxDots dotRadius) c Hrs Hrun);
    try reflexivity; [constructor].
Qed.

Lemma dots_lie_inside_the_canvas_witness :
  exists c,
    run [Animate; Animate; AddRandomLine] (repeat 0%Q 16 ++ (1 # 2)%Q :: repeat 0%Q 8)%list
      (constructor 800 600 100 2) = Returned c [] /\
    (Forall (placed 800 600 2) (dots c) /\ timer_in_range c).
Proof.
  eexists. split; [reflexivity|].
  apply (dots_lie_inside_the_canvas 800 600 100 2
           [Animate; Animate; AddRandomLine]
           (repeat 0%Q 16 ++ (1 # 2)%Q :: repeat 0%Q 8)%list []).
  - discriminate.
  - discriminate.
  - reflexivity.
  - repeat constructor; discriminate.
  - reflexivity.
Defined.

End CanvasPlaces.

(* ================================================================== *)
(** * DotCanvas: the size that a resize gives the canvas *)
(* ================================================================== *)

Section CanvasSize.
Import DotCanvas.

Lemma assigned_size_of (default z : Z) (q : Q) :
  0 <= z < 2 ^ 31 -> (inject_Z z <= q)%Q -> (q < inject_Z (z + 1))%Q ->
  assigned_size default q = inject_Z z.
Proof.
  intros Hz Hlo Hhi. unfold assigned_size, integer_part.
  assert (H0 : Qle_bool 0 q = true).
  { apply Qle_bool_iff. eapply Qle_trans; [|exact Hlo].
    change 0%Q with (inject_Z 0). rewrite <- Zle_Qle. lia. }
  rewrite H0.
  assert (Hf : z <= Qfloor q <= z) by (apply floor_between; assumption).
  replace (Qfloor q) with z by lia.
  rewrite Z.mod_small by lia.
  destruct (Z.gtb_spec z 2147483647) as [H|H]; [lia|reflexivity].
Qed.

Lemma below_next (f : Z) :
  - 2 ^ 31 < f < 2 ^ 31 ->
  Double.representable (inject_Z ((f + 1) * 2 ^ 10 - 1) * 2 ^ (-10))%Q /\
  (inject_Z ((f + 1) * 2 ^ 10 - 1) * 2 ^ (-10) == inject_Z f + (1023 # 1024))%Q.
Proof.
  intros Hf. split.
  - apply round_exact. lia.
  - unfold Z.sub. rewrite inject_Z_plus, inject_Z_mult, inject_Z_plus.
    change (inject_Z (- (1))) with (- (1))%Q. change (inject_Z 1) with 1%Q.
    change (inject_Z (2 ^ 10)) with 1024%Q.
    change (2 ^ (-10))%Q with (1 # 1024)%Q. ring.
Qed.

(** X29.  A resize gives the canvas whole pixels.  For a window whose
    inner width and height are integers from 0 to below 2^31, the width of
    the canvas becomes the integer part of eight tenths of the inner width;
    the height becomes the integer part of seven tenths of the inner height
    or one pixel less, since [0.7] is read as a number just below seven
    tenths: for a window 700 pixels high the canvas is 489 pixels high.  The
    dots and the lines stay as they are. *)
Theorem setCanvasSize_keeps_whole_pixels (innerWidth innerHeight : Z)
  (c : canvas) :
  0 <= innerWidth < 2 ^ 31 -> 0 <= innerHeight < 2 ^ 31 ->
  let c' := setCanvasSize (inject_Z innerWidth) (inject_Z innerHeight) c in
  width c' = inject_Z (8 * innerWidth / 10) /\
  (height c' = inject_Z (7 * innerHeight / 10) \/
   height c' = inject_Z (7 * innerHeight / 10 - 1) /\
   0 < 7 * innerHeight / 10) /\
  (innerHeight = 700 -> height c' = inject_Z 489) /\
  dots c' = dots c /\ lines c' = lines c.
Proof.
  intros HW HH c'.
  assert (Width : width c' = inject_Z (8 * innerWidth / 10)).
  { unfold c', setCanvasSize. cbn [width].
    set (f := 8 * innerWidth / 10).
    assert (Hf : 10 * f <= 8 * innerWidth <= 10 * f + 9 /\ 0 <= f < 2 ^ 31).
    { unfold f. Z.to_euclidean_division_equations; lia. }
    destruct Hf as [[Hf1 Hf2] Hf3].
    apply assigned_size_of; [exact Hf3| |].
    - apply round_ge; [apply representable_Z; lia|].
      assert (Hd : ((8 # 10) <= Double.round (8 # 10))%Q)
        by (apply closed_le; vm_compute; reflexivity).
      apply Qle_trans with (inject_Z innerWidth * (8 # 10))%Q.
      + rewrite Zle_Qle in Hf1. rewrite !inject_Z_mult in Hf1.
        change (inject_Z 10) with 10%Q in Hf1.
        change (inject_Z 8) with 8%Q in Hf1. lra.
      + apply mult_le_l; [|exact Hd].
        change 0%Q with (inject_Z 0). rewrite <- Zle_Qle. lia.
    - destruct (below_next f) as [Hr He]; [lia|].
      apply Qle_lt_trans
        with (inject_Z ((f + 1) * 2 ^ 10 - 1) * 2 ^ (-10))%Q.
      + apply round_le; [exact Hr|]. rewrite He.
        assert (Hd : (Double.round (8 # 10) <= (8 # 10) + 2 ^ (-54))%Q)
          by (apply closed_le; vm_compute; reflexivity).
        apply Qle_trans
          with (inject_Z innerWidth * ((8 # 10) + 2 ^ (-54)))%Q.
        * apply mult_le_l; [|exact Hd].
          change 0%Q with (inject_Z 0). rewrite <- Zle_Qle. lia.
        * rewrite Zle_Qle in Hf2. rewrite inject_Z_plus, !inject_Z_mult in Hf2.
          change (inject_Z 10) with 10%Q in Hf2.
          change (inject_Z 8) with 8%Q in Hf2.
          change (inject_Z 9) with 9%Q in Hf2.
          assert (Hw : (inject_Z innerWidth <= 2147483648)%Q).
          { change 2147483648%Q with (inject_Z (2 ^ 31)).
            rewrite <- Zle_Qle. lia. }
          assert (Hw0 : (0 <= inject_Z innerWidth)%Q).
          { change 0%Q with (inject_Z 0). rewrite <- Zle_Qle. lia. }
          change (2 ^ (-54))%Q with (1 # 18014398509481984)%Q. lra.
      + rewrite He, inject_Z_plus. change (inject_Z 1) with 1%Q. lra. }
  assert (Height :
            height c' = inject_Z (7 * innerHeight / 10) \/
            height c' = inject_Z (7 * innerHeight / 10 - 1) /\
            0 < 7 * innerHeight / 10).
  { unfold c', setCanvasSize. cbn [height].
    set (f := 7 * innerHeight / 10).
    assert (Hf : 10 * f <= 7 * innerHeight <= 10 * f + 9 /\ 0 <= f < 2 ^ 31).
    { unfold f. Z.to_euclidean_division_equations; lia. }
    destruct Hf as [[Hf1 Hf2] Hf3].
    set (v := Double.mul (inject_Z innerHeight) (Double.round (7 # 10))).
    assert (Hh : (inject_Z innerHeight <= 2147483648)%Q).
    { change 2147483648%Q with (inject_Z (2 ^ 31)). rewrite <- Zle_Qle. lia. }
    assert (Hh0 : (0 <= inject_Z innerHeight)%Q).
    { change 0%Q with (inject_Z 0). rewrite <- Zle_Qle. lia. }
    rewrite Zle_Qle in Hf1. rewrite !inject_Z_mult in Hf1.
    rewrite Zle_Qle in Hf2. rewrite inject_Z_plus, !inject_Z_mult in Hf2.
    change (inject_Z 10) with 10%Q in Hf1, Hf2.
    change (inject_Z 7) with 7%Q in Hf1, Hf2.
    change (inject_Z 9) with 9%Q in Hf2.
    assert (Hup : (v < inject_Z (f + 1))%Q).
    { destruct (below_next f) as [Hr He]; [lia|].
      apply Qle_lt_trans
        with (inject_Z ((f + 1) * 2 ^ 10 - 1) * 2 ^ (-10))%Q.
      - apply round_le; [exact Hr|]. rewrite He.
        assert (Hd : (Double.round (7 # 10) <= (7 # 10))%Q)
          by (apply closed_le; vm_compute; reflexivity).
        apply Qle_trans with (inject_Z innerHeight * (7 # 10))%Q.
        + apply mult_le_l; [exact Hh0|exact Hd].
        + lra.
      - rewrite He, inject_Z_plus. change (inject_Z 1) with 1%Q. lra. }
    assert (Hexact : (inject_Z innerHeight * ((7 # 10) - 2 ^ (-54))
                      <= inject_Z innerHeight * Double.round (7 # 10))%Q).
    { apply mult_le_l; [exact Hh0|].
      apply closed_le. vm_compute. reflexivity. }
    change (2 ^ (-54))%Q with (1 # 18014398509481984)%Q in Hexact.
    destruct (Z.eq_dec f 0) as [E0|N0].
    - left. apply assigned_size_of; [exact Hf3| |exact Hup].
      rewrite E0. apply (round_mono 0).
      apply Qmult_le_0_compat; [exact Hh0|]. discriminate.
    - assert (Hlow : (inject_Z (f - 1) <= v)%Q).
      { apply round_ge; [apply representable_Z; lia|].
        unfold Z.sub. rewrite inject_Z_plus.
        change (inject_Z (- (1))) with (- (1))%Q. lra. }
      assert (Hfl : f - 1 <= Qfloor v <= f) by (apply floor_between; assumption).
      destruct (Z.eq_dec (Qfloor v) f) as [E|N].
      + left. apply assigned_size_of; [exact Hf3| |exact Hup].
        rewrite <- E. apply Qfloor_le.
      + right. split; [|lia].
        apply assigned_size_of; [lia|exact Hlow|].
        replace (f - 1 + 1) with (Qfloor v + 1) by lia. apply Qlt_floor. }
  split; [exact Width|]. split; [exact Height|]. split.
  - intros E. unfold c'. rewrite E. vm_compute. reflexivity.
  - split; reflexivity.
Qed.

Lemma setCanvasSize_keeps_whole_pixels_witness :
  width (setCanvasSize (inject_Z 1280) (inject_Z 700)
           (constructor 300 150 100 2))
  = inject_Z (8 * 1280 / 10).
Proof.
  refine (proj1 (setCanvasSize_keeps_whole_pixels 1280 700
                   (constructor 300 150 100 2) _ _)); lia.
Defined.

End CanvasSize.

(* ================================================================== *)
(** * IndexedDBBackupRestore: what else the helper does *)
(* ================================================================== *)

Section HelperFacts.
Import JS IDB World IndexedDBBackupRestore Conditions.

(** X17.  The constructor accepts exactly the arrays whose elements are
    all strings, and keeps their elements as its names; anything else makes
    it throw the error [dbNames must be an array of strings.] *)
Theorem constructor_takes_arrays_of_strings (dbNames : value) :
  (forall names,
     constructor dbNames = Ok names <-> dbNames = VArr (map VStr names)) /\
  (forall e,
     constructor dbNames = Throw e ->
     e = Err "dbNames must be an array of strings.").
Proof.
  split.
  - intros names. split.
    + destruct dbNames as [| | | | | | | |l|]; try discriminate.
      cbn [constructor].
      destruct (existsb _ l) eqn:E; [discriminate|].
      intros H. injection H as <-. f_equal.
      induction l as [|x l IH]; [reflexivity|].
      cbn [existsb] in E. apply orb_false_elim in E. destruct E as [Ex El].
      destruct x; try discriminate Ex.
      cbn [flat_map app map]. rewrite <- (IH El). reflexivity.
    + intros ->. cbn [constructor].
      assert (E : forall ns,
                existsb (fun name => match name with
                                     | VStr _ => false
                                     | _ => true
                                     end) (map VStr ns) = false
                /\ flat_map (fun name => match name with
                                         | VStr s => [s]
                                         | _ => []
                                         end) (map VStr ns) = ns).
      { induction ns as [|n ns [IH1 IH2]]; [split; reflexivity|].
        cbn [map existsb flat_map app orb]. rewrite IH1, IH2.
        split; reflexivity. }
      destruct (E names) as [-> ->]. reflexivity.
  - intros e. destruct dbNames as [| | | | | | | |l|]; cbn [constructor];
      try (intros H; injection H as <-; reflexivity).
    destruct (existsb _ l); [|discriminate].
    intros H. injection H as <-. reflexivity.
Qed.

Lemma backup_dbs_grows (dbNames : list string) :
  forall data (w w' : world) r,
  backup_dbs dbNames data w = (r, w') ->
  messageBox w' = messageBox w /\
  forall n,
    assoc n (indexedDB w') = assoc n (indexedDB w) \/
    (In n dbNames /\ assoc n (indexedDB w) = None /\
     assoc n (indexedDB w') = Some (mkDb 1 [])).
Proof.
  induction dbNames as [|dbName rest IH]; intros data w w' r H;
    cbn [backup_dbs] in H.
  - injection H as _ <-. split; [reflexivity|]. intros n. left. reflexivity.
  - assert (Ho : exists db w1,
              _openDB dbName None [] w = (Ok db, w1) /\
              messageBox w1 = messageBox w /\
              forall n,
                assoc n (indexedDB w1) = assoc n (indexedDB w) \/
                (n = dbName /\ assoc n (indexedDB w) = None /\
                 assoc n (indexedDB w1) = Some (mkDb 1 []))).
    { unfold _openDB, IDB.open.
      destruct (assoc dbName (indexedDB w)) as [d|] eqn:Ed.
      - exists d, w. split; [reflexivity|]. split; [reflexivity|].
        intros n. left. reflexivity.
      - cbn [ensure_stores]. eexists _, _. split; [reflexivity|].
        split; [reflexivity|]. intros n.
        cbn [set_db with_dbs logs indexedDB].
        destruct (String.eqb_spec n dbName) as [->|Hne].
        + right. split; [reflexivity|]. split; [exact Ed|].
          apply assoc_set_same.
        + left. apply assoc_set_other. exact Hne. }
    destruct Ho as (db & w1 & Eo & Hm1 & Hg1). rewrite Eo in H.
    assert (Hstep : forall n,
              assoc n (indexedDB w1) = assoc n (indexedDB w) \/
              (In n (dbName :: rest) /\ assoc n (indexedDB w) = None /\
               assoc n (indexedDB w1) = Some (mkDb 1 []))).
    { intros n. destruct (Hg1 n) as [E|(-> & E1 & E2)]; [left; exact E|].
      right. split; [left; reflexivity|]. split; assumption. }
    destruct (backup_stores (objectStores db) []) as [stores|].
    + destruct (IH _ _ _ _ H) as [Hm2 Hg2].
      split; [congruence|]. intros n.
      destruct (Hg2 n) as [E|(Hin & E1 & E2)].
      * rewrite E. exact (Hstep n).
      * destruct (Hg1 n) as [E0|(-> & E3 & E4)].
        -- right. split; [right; exact Hin|]. split; [congruence|exact E2].
        -- congruence.
    + injection H as _ <-. split; [exact Hm1|exact Hstep].
Qed.

Lemma backup_dbs_opens_all (dbNames : list string) :
  forall data (w w' : world) data',
  backup_dbs dbNames data w = (Resolved data', w') ->
  forall n, In n dbNames -> assoc n (indexedDB w') <> None.
Proof.
  induction dbNames as [|dbName rest IH]; intros data w w' data' H n Hin;
    [destruct Hin|].
  cbn [backup_dbs] in H.
  destruct (_openDB dbName None [] w) as [[db|e] w1] eqn:Eo; [|discriminate].
  destruct (backup_stores (objectStores db) []) as [stores|]; [|discriminate].
  destruct (in_dec string_dec n rest) as [Hr|Hr]; [exact (IH _ _ _ _ H n Hr)|].
  destruct Hin as [<-|Hin]; [|contradiction].
  rewrite (backup_dbs_frame dbName rest _ _ _ _ H Hr).
  unfold _openDB, IDB.open in Eo.
  destruct (assoc dbName (indexedDB w)) as [d|] eqn:Ed.
  - injection Eo as _ <-. congruence.
  - cbn [ensure_stores] in Eo. injection Eo as _ <-.
    cbn [set_db with_dbs logs indexedDB]. rewrite assoc_set_same. discriminate.
Qed.

(** X18.  [backup()] changes no database that exists: whatever its
    outcome, each database is afterwards what it was, or did not exist, is
    one of the names of the instance and has been created empty, at version
    1 and without object store.  When [backup()] resolves, every name of the
    instance has a database. *)
Theorem backup_creates_missing_databases (dbNames : list string) (w : world) :
  (forall n,
     assoc n (indexedDB (snd (backup dbNames w))) = assoc n (indexedDB w) \/
     (In n dbNames /\ assoc n (indexedDB w) = None /\
      assoc n (indexedDB (snd (backup dbNames w))) = Some (mkDb 1 []))) /\
  (forall json,
     fst (backup dbNames w) = Resolved json ->
     forall n, In n dbNames ->
       assoc n (indexedDB (snd (backup dbNames w))) <> None).
Proof.
  rewrite backup_world. unfold backup.
  destruct (backup_dbs dbNames [] w) as [[data|e|] w'] eqn:E; cbn [fst snd];
    (split; [exact (proj2 (backup_dbs_grows _ _ _ _ _ E))|]);
    try discriminate.
  intros json _. exact (backup_dbs_opens_all _ _ _ _ _ E).
Qed.

End HelperFacts.

(* ================================================================== *)
(** * The page and the image target: what the user sees *)
(* ================================================================== *)

Section PageFacts.
Import JS IDB World IndexedDBBackupRestore.

(** X19.  When a record of one of the databases of [DB_NAMES] has a Blob or
    File field, a click on the backup button downloads nothing and writes no
    further message: the message box keeps showing [Saving backup disk...] *)
Theorem backup_button_keeps_saving (w : world) (dbName storeName key : string)
  (d : database) (s : objectStore) (k : IDB.key) (v : value)
  (bytes : list byte) (mime : string) (fname : option string) :
  In dbName Page.DB_NAMES ->
  assoc dbName (indexedDB w) = Some d ->
  In (storeName, s) (objectStores d) ->
  In (k, v) (records s) ->
  In (key, VBlob bytes mime fname) (own_properties v) ->
  fst (Page.backupBtn_click w) = None /\
  messageBox (snd (Page.backupBtn_click w)) = "Saving backup disk...".
Proof.
  intros Hin Hd Hs Hk Hf.
  assert (Hb : awaited (own_properties v) = true).
  { unfold awaited. apply existsb_exists. eexists. split; [exact Hf|].
    reflexivity. }
  set (w0 := Page.showMessage "Saving backup disk..." w).
  pose proof (backup_dbs_blob dbName storeName d s k v Hs Hk Hb
                Page.DB_NAMES [] w0 Hin Hd) as H.
  unfold Page.backupBtn_click, backup. fold w0.
  destruct (backup_dbs Page.DB_NAMES [] w0) as [[x|e|] w'] eqn:E;
    cbn [fst] in H; try discriminate.
  cbn [fst snd]. split; [reflexivity|].
  exact (proj1 (backup_dbs_grows _ _ _ _ _ E)).
Qed.

Lemma backup_button_keeps_saving_witness :
  fst (Page.backupBtn_click States.notes_with_file) = None /\
  messageBox (snd (Page.backupBtn_click States.notes_with_file))
  = "Saving backup disk...".
Proof.
  refine (backup_button_keeps_saving States.notes_with_file
            "kalvNotesDB" "notes" "file" _ _
            (KNum 1) _ [x01] "text/plain" None (or_introl eq_refl) eq_refl
            (or_introl eq_refl) (or_introl eq_refl) _).
  right. left. reflexivity.
Defined.



End PageFacts.

Section ImageFacts.
Import JS IDB World DroppableImageTarget.

(** X21.  An image dropped on the target comes back after a reload.  When
    the target has its database, with an [images] store of key path [id], a
    drop whose first file is an image shows the data URL of that file, and
    any later [loadExistingImage()] on these databases shows the same data
    URL.  A drop whose first file is not an image changes nothing. *)
Theorem dropped_image_is_shown_again (f : file) (others : list file)
  (now : string) (t : target) (w : world) (d : database)
  (store : objectStore) :
  db t = true ->
  assoc dbName (indexedDB w) = Some d ->
  assoc "images" (objectStores d) = Some store ->
  keyPath store = Some "id" ->
  let url := Blob.readAsDataURL (file_bytes f) (file_type f) in
  (is_image f = false -> drop (f :: others) now t w = (t, w)) /\
  (is_image f = true ->
     shown (fst (drop (f :: others) now t w)) = Some url /\
     forall t2,
       db t2 = true ->
       shown (fst (loadExistingImage t2 (snd (drop (f :: others) now t w))))
       = Some url).
Proof.
  intros Hdb Hd Hs Hkp url. split.
  - intros Himg. cbn [drop]. rewrite Himg. reflexivity.
  - intros Himg. cbn [drop]. rewrite Himg.
    destruct store as [kp ai g recs]. cbn [keyPath] in Hkp. subst kp.
    unfold storeImage. rewrite Hdb. cbn [negb]. rewrite Hd, Hs.
    cbn -[Blob.readAsDataURL]. split; [reflexivity|].
    intros t2 Hdb2. unfold loadExistingImage. rewrite Hdb2.
    cbn -[Blob.readAsDataURL]. rewrite assoc_set_same.
    cbn -[Blob.readAsDataURL]. rewrite assoc_set_same.
    reflexivity.
Qed.

Lemma dropped_image_is_shown_again_witness :
  shown (fst (loadExistingImage (mkTarget true None) (snd Samples.dropped)))
  = Some "data:image/png;base64,AQL/".
Proof.
  refine (proj2 (proj2 (dropped_image_is_shown_again Samples.picture []
            Samples.noon (fst Samples.opened) (snd Samples.opened) _ _
            eq_refl eq_refl eq_refl eq_refl) eq_refl) (mkTarget true None)
            eq_refl).
Defined.

(** X22.  A database [windowImage] that exists at a version above 1 leaves
    the target without its database: [initDatabase()] fails, [this.db] stays
    unset, and every later drop stores and shows nothing. *)
Theorem newer_database_disables_target (w : world) (d : database)
  (files : list file) (now : string) :
  assoc dbName (indexedDB w) = Some d ->
  1 < version d ->
  let '(t1, w1) := initDatabase (mkTarget false None) w in
  let '(t2, w2) := drop files now t1 w1 in
  db t1 = false /\ indexedDB w1 = indexedDB w /\
  shown t2 = None /\ indexedDB w2 = indexedDB w.
Proof.
  intros Hd Hv. unfold initDatabase, IDB.open. rewrite Hd.
  unfold dbVersion. destruct (Z.ltb_spec 1 (version d)); [|lia].
  destruct files as [|f others]; cbn [drop]; [repeat split|].
  destruct (is_image f); [|repeat split].
  unfold storeImage. cbn [db negb]. repeat split.
Qed.

Lemma newer_database_disables_target_witness :
  shown (fst (drop [Samples.picture] Samples.noon
           (fst (initDatabase (mkTarget false None)
                   States.newer_image_database))
           (snd (initDatabase (mkTarget false None)
                   States.newer_image_database))))
  = None.
Proof.
  pose proof (newer_database_disables_target
                States.newer_image_database (mkDb 2 [])
                [Samples.picture] Samples.noon eq_refl ltac:(cbn; lia)) as H.
  exact (proj1 (proj2 (proj2 H))).
Defined.

End ImageFacts.

(* ================================================================== *)
(** * restore: puts and nothing else *)
(* ================================================================== *)

Section RestoreChanges.
Import JS IDB World IndexedDBBackupRestore Conditions Changes.

Lemma puts_trans (a b c : objectStore) : puts a b -> puts b c -> puts a c.
Proof.
  intros H. induction H as [s|s s1 s2 v Hp _ IH]; intros Hc; [exact Hc|].
  exact (puts_more _ _ _ _ Hp (IH Hc)).
Qed.

Lemma stores_put_refl (l : list (string * objectStore)) : stores_put l l.
Proof. intros n. destruct (assoc n l); [constructor|exact I]. Qed.

Lemma stores_put_trans (a b c : list (string * objectStore)) :
  stores_put a b -> stores_put b c -> stores_put a c.
Proof.
  intros H1 H2 n. specialize (H1 n). specialize (H2 n).
  destruct (assoc n a), (assoc n b), (assoc n c); try tauto;
    eapply puts_trans; eassumption.
Qed.

Lemma databases_put_refl (dbs : databases) : databases_put dbs dbs.
Proof.
  intros n. destruct (assoc n dbs); [apply stores_put_refl|exact I].
Qed.

Lemma databases_put_trans (a b c : databases) :
  databases_put a b -> databases_put b c -> databases_put a c.
Proof.
  intros H1 H2 n. specialize (H1 n). specialize (H2 n).
  destruct (assoc n a), (assoc n b), (assoc n c); try tauto;
    eapply stores_put_trans; eassumption.
Qed.

Lemma assoc_set_lookup (A : Type) (n k : string) (v : A)
  (l : list (string * A)) :
  assoc n (assoc_set k v l) = if String.eqb n k then Some v else assoc n l.
Proof.
  destruct (String.eqb_spec n k) as [->|Hne].
  - apply assoc_set_same.
  - apply assoc_set_other. exact Hne.
Qed.

Lemma assoc_insert_store (n k : string) (s : objectStore)
  (l : list (string * objectStore)) :
  assoc n (insert_store k s l) = if String.eqb n k then Some s else assoc n l.
Proof.
  induction l as [|[k' s'] l IH]; cbn [insert_store assoc].
  - destruct (String.eqb n k); reflexivity.
  - destruct (String.compare k k') eqn:E; cbn [assoc].
    + apply String.compare_eq_iff in E. subst k'.
      destruct (String.eqb n k); reflexivity.
    + destruct (String.eqb n k); reflexivity.
    + rewrite IH. destruct (String.eqb_spec n k') as [->|Hne]; [|reflexivity].
      destruct (String.eqb_spec k' k) as [->|]; [|reflexivity].
      pose proof (String.compare_antisym k k) as Ha. rewrite E in Ha.
      discriminate.
Qed.

Lemma ensure_stores_put (dbName : string) (names : list string) :
  forall db,
  version (fst (ensure_stores dbName names db)) = version db /\
  stores_put (objectStores db)
    (objectStores (fst (ensure_stores dbName names db))).
Proof.
  induction names as [|storeName rest IH]; intros db; cbn [ensure_stores].
  - split; [reflexivity|apply stores_put_refl].
  - unfold contains.
    destruct (assoc storeName (objectStores db)) as [s|] eqn:Es; [apply IH|].
    specialize (IH (createObjectStore storeName (Some "id") true db)).
    destruct (ensure_stores dbName rest
                (createObjectStore storeName (Some "id") true db))
      as [db' ls].
    cbn [fst] in *. destruct IH as [IHv IHs]. split; [exact IHv|].
    eapply stores_put_trans; [|exact IHs].
    intros n. cbn [createObjectStore objectStores].
    rewrite assoc_insert_store.
    destruct (String.eqb_spec n storeName) as [->|Hne].
    + rewrite Es. constructor.
    + destruct (assoc n (objectStores db)); [constructor|exact I].
Qed.

Lemma openDB_put (dbName : string) (ver : option Z) (names : list string)
  (w w1 : world) (r : result database) :
  _openDB dbName ver names w = (r, w1) ->
  databases_put (indexedDB w) (indexedDB w1) /\
  match r with
  | Ok db => assoc dbName (indexedDB w1) = Some db
  | Throw _ => True
  end.
Proof.
  unfold _openDB, IDB.open. intros H.
  assert (Hup : forall v stores0,
            match assoc dbName (indexedDB w) with
            | Some d => stores0 = objectStores d
            | None => stores0 = []
            end ->
            (let (db', ls) := ensure_stores dbName names (mkDb v stores0) in
             (Ok db', set_db dbName db' (logs ls w))) = (r, w1) ->
            databases_put (indexedDB w) (indexedDB w1) /\
            match r with
            | Ok db => assoc dbName (indexedDB w1) = Some db
            | Throw _ => True
            end).
  { intros v stores0 Hst Hrun.
    pose proof (ensure_stores_put dbName names (mkDb v stores0)) as [_ Hp].
    destruct (ensure_stores dbName names (mkDb v stores0)) as [db' ls].
    cbn [fst objectStores] in Hp. injection Hrun as <- <-.
    cbn [set_db with_dbs logs indexedDB]. split; [|apply assoc_set_same].
    intros n. rewrite assoc_set_lookup.
    destruct (String.eqb_spec n dbName) as [->|Hne].
    - destruct (assoc dbName (indexedDB w)); subst stores0; exact Hp.
    - destruct (assoc n (indexedDB w)); [apply stores_put_refl|exact I]. }
  destruct (assoc dbName (indexedDB w)) as [d|] eqn:Ed.
  - destruct ver as [v|].
    + destruct (v <? version d).
      * injection H as <- <-. split; [apply databases_put_refl|exact I].
      * destruct (v =? version d).
        -- injection H as <- <-. split; [apply databases_put_refl|exact Ed].
        -- exact (Hup v (objectStores d) eq_refl H).
    + injection H as <- <-. split; [apply databases_put_refl|exact Ed].
  - exact (Hup _ [] eq_refl H).
Qed.

Lemma put_items_puts (dbName storeName : string) :
  forall (items : list value) (s s' : objectStore) r ls,
  put_items dbName storeName items s = (r, s', ls) -> puts s s'.
Proof.
  induction items as [|item rest IH]; intros s s' r ls H;
    cbn [put_items] in H.
  - injection H as _ <- _. constructor.
  - destruct (restore_item item) as [item' ls0].
    destruct (put item' s) as [s1|e] eqn:Ep.
    + destruct (put_items dbName storeName rest s1) as [[r2 s2] ls2] eqn:E.
      injection H as _ <- _.
      exact (puts_more _ _ _ _ Ep (IH _ _ _ _ E)).
    + injection H as _ <- _. constructor.
Qed.

Lemma restore_stores_put (dbName : string) (dbStoresData : value) :
  forall (names : list string) (db db' : database) r ls,
  restore_stores dbName dbStoresData names db = (r, db', ls) ->
  stores_put (objectStores db) (objectStores db').
Proof.
  induction names as [|storeName rest IH]; intros db db' r ls H;
    cbn [restore_stores] in H.
  - injection H as _ <- _. apply stores_put_refl.
  - destruct (negb (truthy (get dbStoresData storeName))
              || length_is_zero (get dbStoresData storeName));
      [exact (IH _ _ _ _ H)|].
    destruct (assoc storeName (objectStores db)) as [s|] eqn:Es.
    + destruct (iterate (get dbStoresData storeName)) as [items|].
      * destruct (put_items dbName storeName items s) as [[r1 s1] ls1] eqn:Ep.
        assert (Hset : stores_put (objectStores db)
                         (objectStores (set_store storeName s1 db))).
        { intros n. cbn [set_store objectStores]. rewrite assoc_set_lookup.
          destruct (String.eqb_spec n storeName) as [->|Hne].
          - rewrite Es. exact (put_items_puts _ _ _ _ _ _ _ Ep).
          - destruct (assoc n (objectStores db)); [constructor|exact I]. }
        destruct r1 as [u|e].
        -- destruct (restore_stores dbName dbStoresData rest
                       (set_store storeName s1 db)) as [[r2 db2] ls2] eqn:E.
           injection H as _ <- _.
           exact (stores_put_trans _ _ _ Hset (IH _ _ _ _ E)).
        -- injection H as _ <- _. exact Hset.
      * injection H as _ <- _. apply stores_put_refl.
    + destruct (restore_stores dbName dbStoresData rest db)
        as [[r2 db2] ls2] eqn:E.
      injection H as _ <- _. exact (IH _ _ _ _ E).
Qed.

Lemma restore_db_put (parsedData : value) (dbName : string) (w w' : world)
  (r : option thrown) :
  restore_db parsedData dbName w = (r, w') ->
  databases_put (indexedDB w) (indexedDB w').
Proof.
  unfold restore_db. intros H.
  destruct (Object_keys (get parsedData dbName)) as [names|].
  2:{ injection H as _ <-. apply databases_put_refl. }
  destruct (_openDB dbName (Some 1) names w) as [[db|e] w1] eqn:Eo.
  - destruct (openDB_put _ _ _ _ _ _ Eo) as [Hp1 Hdb].
    destruct (restore_stores dbName (get parsedData dbName) names db)
      as [[r1 db1] ls1] eqn:Er.
    assert (Hp2 : databases_put (indexedDB w1)
                    (indexedDB (set_db dbName db1 (logs ls1 w1)))).
    { intros n. cbn [set_db with_dbs logs indexedDB].
      rewrite assoc_set_lookup.
      destruct (String.eqb_spec n dbName) as [->|Hne].
      - rewrite Hdb. exact (restore_stores_put _ _ _ _ _ _ _ Er).
      - destruct (assoc n (indexedDB w1)); [apply stores_put_refl|exact I]. }
    destruct r1 as [u|e]; injection H as _ <-;
      exact (databases_put_trans _ _ _ Hp1 Hp2).
  - destruct (openDB_put _ _ _ _ _ _ Eo) as [Hp1 _].
    injection H as _ <-. exact Hp1.
Qed.

Lemma restore_dbs_put (parsedData : value) :
  forall (dbNames : list string) (w w' : world) r,
  restore_dbs parsedData dbNames w = (r, w') ->
  databases_put (indexedDB w) (indexedDB w').
Proof.
  induction dbNames as [|dbName rest IH]; intros w w' r H;
    cbn [restore_dbs] in H.
  - injection H as _ <-. apply databases_put_refl.
  - destruct (hasOwnProperty parsedData dbName) as [[|]|e].
    + destruct (restore_db parsedData dbName w) as [[e|] w1] eqn:Ed.
      * injection H as _ <-. exact (restore_db_put _ _ _ _ _ Ed).
      * exact (databases_put_trans _ _ _ (restore_db_put _ _ _ _ _ Ed)
                 (IH _ _ _ H)).
    + exact (IH _ _ _ H).
    + injection H as _ <-. apply databases_put_refl.
Qed.

Lemma restore_put (jsonString : text) (w : world) :
  databases_put (indexedDB w) (indexedDB (snd (restore jsonString w))).
Proof.
  unfold restore. destruct (JSON_parse jsonString) as [parsedData|];
    [|apply databases_put_refl].
  destruct (restore_dbs parsedData (keys (own_properties parsedData)) w)
    as [r w'] eqn:E.
  exact (restore_dbs_put _ _ _ _ _ E).
Qed.

Lemma put_keeps (v : value) (s s' : objectStore) :
  put v s = Ok s' ->
  keyPath s' = keyPath s /\ autoIncrement s' = autoIncrement s /\
  forall k, lookup_record k (records s) <> None ->
            lookup_record k (records s') <> None.
Proof.
  unfold put. destruct (key_for v s) as [[[k0 v'] g]|]; [|discriminate].
  intros H. injection H as <-. cbn [with_records keyPath autoIncrement records].
  split; [reflexivity|]. split; [reflexivity|]. intros k Hk.
  destruct (key_eqb k k0) eqn:E.
  - apply key_eqb_eq in E. subst k0. rewrite lookup_insert_same. discriminate.
  - rewrite lookup_insert_other; [exact Hk|].
    intros ->. rewrite key_eqb_refl in E. discriminate.
Qed.

Lemma puts_keeps (s s' : objectStore) :
  puts s s' ->
  keyPath s' = keyPath s /\ autoIncrement s' = autoIncrement s /\
  forall k, lookup_record k (records s) <> None ->
            lookup_record k (records s') <> None.
Proof.
  intros H. induction H as [s|s s1 s2 v Hp _ (IH1 & IH2 & IH3)].
  - repeat split. intros k Hk. exact Hk.
  - destruct (put_keeps _ _ _ Hp) as (H1 & H2 & H3).
    split; [congruence|]. split; [congruence|].
    intros k Hk. apply IH3. apply H3. exact Hk.
Qed.


(** X23.  [restore()] removes nothing.  Whatever the JSON and whatever the
    outcome, every database and every object store that existed is still
    there, with the key path and the key generator setting it had, and every
    key that had a record in a store still has one (the record of the
    backup, when the backup has the key). *)
Theorem restore_removes_nothing (jsonString : text) (w : world) (n : string)
  (d : database) (storeName : string) (s : objectStore) (k : key)
  (v : value) :
  assoc n (indexedDB w) = Some d ->
  assoc storeName (objectStores d) = Some s ->
  lookup_record k (records s) = Some v ->
  exists d' s' v',
    assoc n (indexedDB (snd (restore jsonString w))) = Some d' /\
    assoc storeName (objectStores d') = Some s' /\
    keyPath s' = keyPath s /\ autoIncrement s' = autoIncrement s /\
    lookup_record k (records s') = Some v'.
Proof.
  intros Hd Hs Hk.
  pose proof (restore_put jsonString w n) as H. rewrite Hd in H.
  destruct (assoc n (indexedDB (snd (restore jsonString w)))) as [d'|] eqn:Ed';
    [|contradiction].
  specialize (H storeName). rewrite Hs in H.
  destruct (assoc storeName (objectStores d')) as [s'|] eqn:Es';
    [|contradiction].
  destruct (puts_keeps _ _ H) as (H1 & H2 & H3).
  specialize (H3 k ltac:(rewrite Hk; discriminate)).
  destruct (lookup_record k (records s')) as [v'|] eqn:E; [|contradiction].
  exists d', s', v'. split; [reflexivity|]. split; [exact Es'|].
  split; [exact H1|]. split; [exact H2|exact E].
Qed.

Lemma restore_removes_nothing_witness :
  exists d' s' v',
    assoc "shelf" (indexedDB (snd (restore States.one_book Samples.library)))
    = Some d' /\
    assoc "books" (objectStores d') = Some s' /\
    keyPath s' = Some "id" /\ autoIncrement s' = true /\
    lookup_record (KNum 2) (records s') = Some v'.
Proof.
  exact (restore_removes_nothing States.one_book Samples.library "shelf" _
           "books" _ (KNum 2) _ eq_refl eq_refl eq_refl).
Defined.








End RestoreChanges.

(* ================================================================== *)
(** * Failures *)
(* ================================================================== *)

Section Failures.
Import JS IDB World IndexedDBBackupRestore Conditions Changes.

















End Failures.
Section BackupWitness.
Import JS IDB World IndexedDBBackupRestore Conditions.


End BackupWitness.

(* ================================================================== *)
(** * restore: a second run changes nothing *)
(* ================================================================== *)

Section RestoreTwice.
Import JS IDB World IndexedDBBackupRestore Conditions Changes Keyed.















(** Without keys in the records this fails: a store that [restore] has
    created gives each record without [id] a new key, so a second run adds
    the records again. *)
Example restore_twice_adds_unkeyed_records :
  exists w1 w2 d1 s1 d2 s2,
    restore States.unkeyed_note Samples.empty_world = (Resolved tt, w1) /\
    restore States.unkeyed_note w1 = (Resolved tt, w2) /\
    assoc "pad" (indexedDB w1) = Some d1 /\
    assoc "notes" (objectStores d1) = Some s1 /\
    assoc "pad" (indexedDB w2) = Some d2 /\
    assoc "notes" (objectStores d2) = Some s2 /\
    List.length (records s1) = 1%nat /\ List.length (records s2) = 2%nat.
Proof. eexists _, _, _, _, _, _. repeat split. Qed.

End RestoreTwice.

(* ================================================================== *)
(** * DrawingApp: what gets drawn *)
(* ================================================================== *)

Section DrawingFacts.
Import DrawingApp.

Lemma moves_while_listening (offsets : list position) :
  forall a,
  listening a = true ->
  let a' := fold_left dispatch (map Pointermove offsets) a in
  strokes a' = (strokes a ++ joined (previousPosition a) offsets)%list /\
  listening a' = true.
Proof.
  induction offsets as [|p rest IH]; intros a Hl; cbn [map fold_left joined].
  - rewrite app_nil_r. split; [reflexivity|exact Hl].
  - cbn [dispatch]. rewrite Hl.
    destruct (IH (draw p a) Hl) as [H1 H2].
    split; [|exact H2]. rewrite H1. cbn [draw drawLine strokes previousPosition].
    rewrite <- app_assoc. reflexivity.
Qed.

Lemma moves_while_idle (offsets : list position) :
  forall a,
  listening a = false ->
  fold_left dispatch (map Pointermove offsets) a = a.
Proof.
  induction offsets as [|p rest IH]; intros a Hl; cbn [map fold_left];
    [reflexivity|].
  cbn [dispatch]. rewrite Hl. apply IH. exact Hl.
Qed.

(** X26.  The canvas gets the lines that join the positions of the pointer
    while it is pressed and nothing else.  After any events, a press followed
    by moves adds the line from the position of the press to the first move
    and from each move to the next; moves after a release, and moves before
    the first press, add nothing. *)
Theorem drawing_joins_the_moves_of_a_press (events : list event)
  (offsets : list position) :
  (forall offset pointerId,
     strokes (fold_left dispatch
                (events ++ Pointerdown offset pointerId
                        :: map Pointermove offsets)%list constructor)
     = (strokes (fold_left dispatch events constructor)
        ++ joined offset offsets)%list) /\
  (forall pointerId,
     strokes (fold_left dispatch
                (events ++ Pointerup pointerId :: map Pointermove offsets)%list
                constructor)
     = strokes (fold_left dispatch events constructor)) /\
  strokes (fold_left dispatch (map Pointermove offsets) constructor) = [].
Proof.
  split; [|split].
  - intros offset pointerId. rewrite fold_left_app. cbn [fold_left dispatch].
    set (a := fold_left dispatch events constructor).
    exact (proj1 (moves_while_listening offsets
                    (startDrawing offset pointerId a) eq_refl)).
  - intros pointerId. rewrite fold_left_app. cbn [fold_left dispatch].
    rewrite moves_while_idle; reflexivity.
  - rewrite moves_while_idle; reflexivity.
Qed.

End DrawingFacts.

(* ================================================================== *)
(** * The sun line: one location, at most one interval *)
(* ================================================================== *)

Section SunLineFacts.
Import World SunLine.

Variable returns : nat -> bool.

Lemma fetch_known (geolocation : bool) (s : script) (pos : coords) :
  currentLocation s = Some pos ->
  fst (fetchLocationAndDraw returns geolocation s)
  = mkScript (Some pos) (requests s) (intervals s)
      (drawSunLine_calls s ++ [pos])%list (console s).
Proof.
  intros H. unfold fetchLocationAndDraw. rewrite H. destruct pos as [la lo].
  reflexivity.
Qed.

Lemma fetch_known_iter (geolocation : bool) (pos : coords) (k : nat) :
  forall s,
  currentLocation s = Some pos ->
  let s' :=
    Nat.iter k (fun s' => fst (fetchLocationAndDraw returns geolocation s')) s in
  currentLocation s' = Some pos /\ requests s' = requests s /\
  intervals s' = intervals s /\
  drawSunLine_calls s' = (drawSunLine_calls s ++ repeat pos k)%list.
Proof.
  induction k as [|k IH]; intros s H.
  - cbn [Nat.iter repeat]. rewrite app_nil_r. repeat split. exact H.
  - cbv zeta. rewrite Nat.iter_succ. destruct (IH s H) as (A & B & C & D).
    rewrite (fetch_known _ _ pos A). cbn [currentLocation requests intervals
                                          drawSunLine_calls].
    rewrite D.
    split; [reflexivity|]. split; [exact B|]. split; [exact C|].
    rewrite <- app_assoc. f_equal.
    change (repeat pos k ++ [pos])%list
      with (repeat pos k ++ repeat pos 1)%list.
    rewrite <- repeat_app. rewrite Nat.add_1_r. reflexivity.
Qed.

Lemma step_located (geolocation : bool) (pos : coords) (s : script)
  (e : event) :
  located returns pos s -> located returns pos (step returns geolocation s e).
Proof.
  intros (Hc & Hr & Hi). destruct e as [p|code message|]; cbn [step].
  - rewrite Hr. repeat split; assumption.
  - rewrite Hr. repeat split; assumption.
  - destruct (fetch_known_iter geolocation pos (intervals s) s Hc)
      as (A & B & C & D).
    split; [exact A|]. split; [congruence|].
    destruct (returns 0).
    + destruct Hi as [Hi [k Hk]]. split; [congruence|].
      exists (k + intervals s)%nat. rewrite D, Hk.
      change (S (k + intervals s)) with (S k + intervals s)%nat.
      rewrite repeat_app. reflexivity.
    + destruct Hi as [Hi Hk]. split; [congruence|].
      rewrite D, Hk, Hi. reflexivity.
Qed.

Lemma run_located (geolocation : bool) (pos : coords) (events : list event) :
  forall s,
  located returns pos s -> located returns pos (fold_left (step returns geolocation) events s).
Proof.
  induction events as [|e events IH]; intros s H; cbn [fold_left];
    [exact H|].
  apply IH. apply step_located. exact H.
Qed.

Lemma run_never_located (geolocation : bool) (events : list event) :
  forall s,
  currentLocation s = None -> requests s = 0%nat -> intervals s = 0%nat ->
  fold_left (step returns geolocation) events s = s.
Proof.
  induction events as [|e events IH]; intros s Hc Hr Hi; [reflexivity|].
  cbn [fold_left].
  assert (E : step returns geolocation s e = s).
  { destruct e; cbn [step]; rewrite ?Hr, ?Hi; reflexivity. }
  rewrite E. apply IH; assumption.
Qed.

Lemma first_position_located (pos : coords) :
  located returns pos (step returns true (loaded returns true) (Position pos)).
Proof.
  destruct pos as [la lo].
  unfold located, loaded, step, success, startUpdateLoop, fetchLocationAndDraw.
  cbn. destruct (returns 0); cbn.
  - repeat split. exists 0%nat. reflexivity.
  - repeat split.
Qed.

(** X27.  The sun line is drawn for one location, the first that the
    browser gives, and by one interval at most.  If the call of
    [getCurrentPosition] that the script makes when it is loaded is answered
    with a position, then whatever follows, that position stays the current
    location and every call of [drawSunLine] has its latitude and longitude;
    one interval is set if the first call of [drawSunLine] returns, and if it
    throws none is set and the line is not drawn again.  If the call is
    answered with an error, or the browser has no geolocation, the script
    asks no second time and never calls [drawSunLine]. *)
Theorem sun_line_keeps_first_location (events : list event) :
  (forall pos,
     let s := fold_left (step returns true) (Position pos :: events)
                (loaded returns true) in
     currentLocation s = Some pos /\
     if returns 0
     then intervals s = 1%nat /\
          exists k, drawSunLine_calls s = repeat pos (S k)
     else intervals s = 0%nat /\ drawSunLine_calls s = [pos]) /\
  (forall code message,
     let s := fold_left (step returns true)
                (PositionError code message :: events) (loaded returns true) in
     currentLocation s = None /\ requests s = 0%nat /\ intervals s = 0%nat /\
     drawSunLine_calls s = []) /\
  (let s := fold_left (step returns false) events (loaded returns false) in
   currentLocation s = None /\ requests s = 0%nat /\ intervals s = 0%nat /\
   drawSunLine_calls s = []).
Proof.
  split; [|split].
  - intros pos. cbv zeta. cbn [fold_left].
    destruct (run_located true pos events _ (first_position_located pos))
      as (A & _ & B).
    split; [exact A|exact B].
  - intros code message. cbv zeta. cbn [fold_left].
    rewrite run_never_located; repeat split.
  - cbv zeta. rewrite run_never_located; repeat split.
Qed.

End SunLineFacts.
